(** * Terminal Puyo: the game-state engine of [puyo.c]

    A shallow embedding of the board, the falling piece, collision and kick
    resolution, the flood fill, the clear pass, gravity and the
    lock-and-cascade routine, followed by the properties of the
    specification that can be settled on it.

    Conventions.
    - A C [int] is a [Z].  The score only grows, by up to some ten thousand
      points in a clear pass, and is the one [int] a long game takes to the
      end of the range: its additions are made by [wrap_int], the result a
      32-bit two's-complement target gives where C leaves the behaviour
      undefined.  The other arithmetic is exact: cells hold 0 or 1, colours
      0..7, rows and columns are small, and the counters clears and level
      grow from 0 and 1 by at most 50 and 1 in a pass; the theorems that
      give the exact value of clears after a pass take it in the range in
      which the addition of the code is exact.
    - A C truth value is an [int]; [truthy] is the test "differs from 0".
    - [int a[H][W]] is a list of rows ([grid]); every access of the program
      is guarded by a bounds test, except the reads of the loop of
      [drawGhost]: these are made by [read], which has no value outside the
      array, and a call of [drawGhost] that reads there has no result.
    - The [double] chain multiplier only takes the values [1.0 + 0.5 * n];
      it is kept as the integer number of halves, which IEEE doubles
      represent and multiply exactly at this magnitude.
    - Calls to the terminal library and to [usleep] have no effect on the
      engine state and are left out. *)

From Stdlib Require Import ZArith QArith Qround Lia Bool.
From stdpp Require Import base tactics option list numbers.
From stdpp Require Import sorting.

Local Open Scope Z_scope.

(** ** Constants *)

Definition WIDTH : Z := 10.
Definition HEIGHT : Z := 20.
Definition SIZE : Z := 3.

(** ** The type int *)

Definition INT_MIN : Z := -2147483648.
Definition INT_MAX : Z := 2147483647.

(** the value an [int] holds after an addition whose exact result is [z]:
    [z] itself when it is in range, and [z] reduced modulo 2^32 into the
    range otherwise *)
Definition wrap_int (z : Z) : Z :=
  (z + 2147483648) mod 4294967296 - 2147483648.

(** ** Two-dimensional arrays *)

Abbreviation grid := (list (list Z)).

Definition truthy (v : Z) : bool := negb (v =? 0).

(** [g[y][x]] *)
Definition get (g : grid) (y x : Z) : Z :=
  if (0 <=? y) && (0 <=? x)
  then default 0 (g !! Z.to_nat y ≫= λ row, row !! Z.to_nat x)
  else 0.

(** [g[y][x] = v] *)
Definition put (g : grid) (y x v : Z) : grid :=
  if (0 <=? y) && (0 <=? x)
  then alter (λ row, <[Z.to_nat x := v]> row) (Z.to_nat y) g
  else g.

(** [memset(g, 0, sizeof g)] and [= {0}] for an [h] by [w] array *)
Definition zeros (h w : Z) : grid :=
  replicate (Z.to_nat h) (replicate (Z.to_nat w) 0).

(** an [h] by [w] array every element of which is assigned once, [g[y][x] = f y x] *)
Definition tabulate (h w : Z) (f : Z → Z → Z) : grid :=
  (λ y, (λ x, f y x) <$> seqZ 0 w) <$> seqZ 0 h.

(** the index pairs of [for (y = 0; y < h; y++) for (x = 0; x < w; x++)] *)
Definition cells (h w : Z) : list (Z * Z) :=
  y ← seqZ 0 h; (λ x, (y, x)) <$> seqZ 0 w.

(** the index pairs of [for (x = 0; x < w; x++) for (y = 0; y < h; y++)] *)
Definition cells_by_column (h w : Z) : list (Z * Z) :=
  x ← seqZ 0 w; (λ y, (y, x)) <$> seqZ 0 h.

(** the index pairs of [for (y = h - 1; y >= 0; y--) for (x = 0; x < w; x++)] *)
Definition cells_bottom_up (h w : Z) : list (Z * Z) :=
  y ← reverse (seqZ 0 h); (λ x, (y, x)) <$> seqZ 0 w.

(** ** The piece *)

Record Block : Type := mkBlock {
  shape : grid;   (* int shape[SIZE][SIZE] *)
  color : grid    (* int color[SIZE][SIZE] *)
}.

Definition isCorner (y x : Z) : Z :=
  if ((y =? 0) && (x =? 0)) || ((y =? 0) && (x =? 2))
     || ((y =? 2) && (x =? 0)) || ((y =? 2) && (x =? 2))
  then 1 else 0.

Definition rotateRight (b : Block) : Block :=
  let t := tabulate SIZE SIZE (λ y x,
             if truthy (isCorner y x) then 0 else get (shape b) (SIZE - 1 - x) y) in
  let c := tabulate SIZE SIZE (λ y x,
             if truthy (isCorner y x) then 0 else get (color b) (SIZE - 1 - x) y) in
  {| shape := t; color := c |}.

Definition rotateLeft (b : Block) : Block :=
  let t := tabulate SIZE SIZE (λ y x,
             if truthy (isCorner y x) then 0 else get (shape b) x (SIZE - 1 - y)) in
  let c := tabulate SIZE SIZE (λ y x,
             if truthy (isCorner y x) then 0 else get (color b) x (SIZE - 1 - y)) in
  {| shape := t; color := c |}.

(** ** The session state: the global variables of the program

    [base_speed] is a [double] that only takes the values of four decimal
    literals, kept as the rationals they denote; main reads it to compute
    the fall interval, which the model of the loop takes as an input.
    [fade_timer] only times the display of the chain text and is left out
    with the display. *)

Record State : Type := mkState {
  board : grid;              (* int board[HEIGHT][WIDTH] *)
  board_color : grid;        (* int board_color[HEIGHT][WIDTH] *)
  current : Block;
  next : Block;
  cx : Z;
  cy : Z;
  score : Z;
  level : Z;
  clears : Z;
  max_colors : Z;
  base_speed : Q;            (* double base_speed *)
  input_locked : Z;
  last_chain : Z;
  visited : grid;            (* int visited[HEIGHT][WIDTH] *)
  rand_stream : nat → Z;     (* the values rand() returns, in order *)
  rand_calls : nat           (* how many of them were consumed *)
}.

Definition with_board (st : State) (b bc : grid) : State :=
  mkState b bc (current st) (next st) (cx st) (cy st) (score st) (level st)
    (clears st) (max_colors st) (base_speed st) (input_locked st)
    (last_chain st) (visited st) (rand_stream st) (rand_calls st).

Definition with_visited (st : State) (v : grid) : State :=
  mkState (board st) (board_color st) (current st) (next st) (cx st) (cy st)
    (score st) (level st) (clears st) (max_colors st) (base_speed st) (input_locked st)
    (last_chain st) v (rand_stream st) (rand_calls st).

Definition with_current (st : State) (b : Block) : State :=
  mkState (board st) (board_color st) b (next st) (cx st) (cy st)
    (score st) (level st) (clears st) (max_colors st) (base_speed st) (input_locked st)
    (last_chain st) (visited st) (rand_stream st) (rand_calls st).

Definition with_next (st : State) (b : Block) : State :=
  mkState (board st) (board_color st) (current st) b (cx st) (cy st)
    (score st) (level st) (clears st) (max_colors st) (base_speed st) (input_locked st)
    (last_chain st) (visited st) (rand_stream st) (rand_calls st).

Definition with_pos (st : State) (x y : Z) : State :=
  mkState (board st) (board_color st) (current st) (next st) x y
    (score st) (level st) (clears st) (max_colors st) (base_speed st) (input_locked st)
    (last_chain st) (visited st) (rand_stream st) (rand_calls st).

Definition with_score (st : State) (s : Z) : State :=
  mkState (board st) (board_color st) (current st) (next st) (cx st) (cy st)
    s (level st) (clears st) (max_colors st) (base_speed st) (input_locked st)
    (last_chain st) (visited st) (rand_stream st) (rand_calls st).

Definition with_progress (st : State) (c l : Z) : State :=
  mkState (board st) (board_color st) (current st) (next st) (cx st) (cy st)
    (score st) l c (max_colors st) (base_speed st) (input_locked st)
    (last_chain st) (visited st) (rand_stream st) (rand_calls st).

Definition with_input_locked (st : State) (v : Z) : State :=
  mkState (board st) (board_color st) (current st) (next st) (cx st) (cy st)
    (score st) (level st) (clears st) (max_colors st) (base_speed st) v
    (last_chain st) (visited st) (rand_stream st) (rand_calls st).

Definition with_last_chain (st : State) (chain : Z) : State :=
  mkState (board st) (board_color st) (current st) (next st) (cx st) (cy st)
    (score st) (level st) (clears st) (max_colors st) (base_speed st) (input_locked st)
    chain (visited st) (rand_stream st) (rand_calls st).

Definition with_rand_calls (st : State) (n : nat) : State :=
  mkState (board st) (board_color st) (current st) (next st) (cx st) (cy st)
    (score st) (level st) (clears st) (max_colors st) (base_speed st) (input_locked st)
    (last_chain st) (visited st) (rand_stream st) n.

(** ** makeBlock *)

(** [rand()] *)
Definition rand (st : State) : Z * State :=
  (rand_stream st (rand_calls st), with_rand_calls st (S (rand_calls st))).

(** the block written through the pointer, and the state after the two
    calls of [rand] *)
Definition makeBlock (st : State) : Block * State :=
  let s := put (put (zeros SIZE SIZE) 0 1 1) 1 1 1 in
  let '(r0, st1) := rand st in
  let c0 := put (zeros SIZE SIZE) 0 1 (1 + Z.rem r0 (max_colors st1)) in
  let '(r1, st2) := rand st1 in
  let c1 := put c0 1 1 (1 + Z.rem r1 (max_colors st2)) in
  ({| shape := s; color := c1 |}, st2).

(** ** checkCollision *)

Fixpoint checkCollision_from (bd : grid) (b : Block) (nx ny : Z)
    (todo : list (Z * Z)) : Z :=
  match todo with
  | [] => 0
  | (y, x) :: rest =>
      if truthy (get (shape b) y x) then
        let gx := nx + x in
        let gy := ny + y in
        if (gx <? 0) || (gx >=? WIDTH) || (gy >=? HEIGHT) then 1
        else if (gy >=? 0) && truthy (get bd gy gx) then 1
        else checkCollision_from bd b nx ny rest
      else checkCollision_from bd b nx ny rest
  end.

Definition checkCollision (bd : grid) (b : Block) (nx ny : Z) : Z :=
  checkCollision_from bd b nx ny (cells SIZE SIZE).

(** ** attemptRotation *)

Definition offsets : list (Z * Z) :=
  [(0, 0); (-1, 0); (1, 0); (0, -1); (-1, -1); (1, -1)].

(** The result is the returned [int], the final [*nx] and [*ny], and the
    global state ([current] is assigned on success). *)
Fixpoint attemptRotation_from (rotated : Block) (nx ny : Z) (st : State)
    (todo : list (Z * Z)) : Z * Z * Z * State :=
  match todo with
  | [] => (0, nx, ny, st)
  | (ox, oy) :: rest =>
      let tx := nx + ox in
      let ty := ny + oy in
      if negb (truthy (checkCollision (board st) rotated tx ty))
      then (1, tx, ty, with_current st rotated)
      else attemptRotation_from rotated nx ny st rest
  end.

Definition attemptRotation (rotated : Block) (nx ny : Z) (st : State)
    : Z * Z * Z * State :=
  attemptRotation_from rotated nx ny st offsets.

(** The two rotation keys of [main]: [Block r = current; rotateX(&r);
    attemptRotation(r, &cx, &cy);] *)
Definition key_rotate (rot : Block → Block) (st : State) : State :=
  let r := rot (current st) in
  let '(_, nx, ny, st') := attemptRotation r (cx st) (cy st) st in
  with_pos st' nx ny.

(** ** placeBlock *)

Definition placeBlock_cell (b : Block) (bx by_ : Z)
    (acc : grid * grid) (c : Z * Z) : grid * grid :=
  let '(bd, bc) := acc in
  let '(y, x) := c in
  if truthy (get (shape b) y x) then
    let gx := bx + x in
    let gy := by_ + y in
    if (gy >=? 0) && (gy <? HEIGHT) && (gx >=? 0) && (gx <? WIDTH)
    then (put bd gy gx 1, put bc gy gx (get (color b) y x))
    else acc
  else acc.

Definition placeBlock (b : Block) (bx by_ : Z) (st : State) : State :=
  let '(bd, bc) :=
    foldl (placeBlock_cell b bx by_) (board st, board_color st) (cells SIZE SIZE) in
  with_board st bd bc.

(** ** The falling loop of gravityFailSafe

    [while (ny + 1 < HEIGHT && !tmp[ny + 1][x]) ny++;]
    It starts on a cell of the array, so all its reads are inside it.  The
    counter [n] bounds the number of rows left below [ny]; [fall_eq] shows
    that [fall] satisfies the equation of the loop. *)

Fixpoint fall_loop (bd : grid) (x : Z) (n : nat) (ny : Z) : Z :=
  match n with
  | O => ny
  | S n' =>
      if (ny + 1 <? HEIGHT) && negb (truthy (get bd (ny + 1) x))
      then fall_loop bd x n' (ny + 1)
      else ny
  end.

Definition fall (bd : grid) (x ny : Z) : Z :=
  fall_loop bd x (Z.to_nat (HEIGHT - 1 - ny)) ny.

(** ** drawGhost

    The loop of drawGhost is the same loop on [board], but it starts at the
    cell of the piece, whose row may be above the board and whose column is
    not tested: [board[gy + 1][gx]] is read after the test [gy + 1 < HEIGHT]
    alone.  [read] is such a read of a 20 by 10 array: it has no value
    ([None]) when an index is outside the array, where the C program has no
    defined behaviour, and so neither has the call of drawGhost.

    The terminal output is kept as the list of board cells [(gy, gx)] at which
    the two ghost characters are drawn (screen row [gy + 1], screen columns
    [(gx + 1) * 2] and [(gx + 1) * 2 + 1]), in drawing order. *)

Definition read (g : grid) (y x : Z) : option Z :=
  if (0 <=? y) && (y <? HEIGHT) && (0 <=? x) && (x <? WIDTH)
  then Some (get g y x)
  else None.

Fixpoint ghost_loop (bd : grid) (gx : Z) (n : nat) (gy : Z) : option Z :=
  match n with
  | O => Some gy
  | S n' =>
      if gy + 1 <? HEIGHT then
        v ← read bd (gy + 1) gx;
        if negb (truthy v) then ghost_loop bd gx n' (gy + 1) else Some gy
      else Some gy
  end.

Definition ghost_fall (bd : grid) (gx gy : Z) : option Z :=
  ghost_loop bd gx (Z.to_nat (HEIGHT - 1 - gy)) gy.

Definition drawGhost_cell (bd : grid) (b : Block) (x y : Z)
    (out : list (Z * Z)) (c : Z * Z) : option (list (Z * Z)) :=
  let '(yy, xx) := c in
  if truthy (get (shape b) yy xx) then
    let gx := x + xx in
    gy ← ghost_fall bd gx (y + yy);
    if (gy >=? 0) && (gy <? HEIGHT) && (gx >=? 0) && (gx <? WIDTH)
    then Some (out ++ [(gy, gx)])
    else Some out
  else Some out.

Fixpoint drawGhost_scan (bd : grid) (b : Block) (x y : Z)
    (todo : list (Z * Z)) (out : list (Z * Z)) : option (list (Z * Z)) :=
  match todo with
  | [] => Some out
  | c :: rest =>
      out' ← drawGhost_cell bd b x y out c;
      drawGhost_scan bd b x y rest out'
  end.

Definition drawGhost (b : Block) (x y : Z) (st : State)
    : option (State * list (Z * Z)) :=
  marks ← drawGhost_scan (board st) b x y (cells_by_column SIZE SIZE) [];
  Some (st, marks).

(** ** gravityFailSafe, gravity, animateGravity *)

Definition gravity_cell (bd bc : grid)
    (acc : Z * grid * grid) (c : Z * Z) : Z * grid * grid :=
  let '(moved, tmp, tmpc) := acc in
  let '(y, x) := c in
  if truthy (get bd y x) then
    let ny := fall bd x y in
    (if negb (ny =? y) then 1 else moved,
     put tmp ny x 1,
     put tmpc ny x (get bc y x))
  else acc.

Definition gravityFailSafe (st : State) : Z * State :=
  let '(moved, tmp, tmpc) :=
    foldl (gravity_cell (board st) (board_color st))
          (0, zeros HEIGHT WIDTH, zeros HEIGHT WIDTH)
          (cells_bottom_up HEIGHT WIDTH) in
  (moved, with_board st tmp tmpc).

(** [while (gravityFailSafe());] with a bound on the number of iterations;
    [None] when the bound is reached before the loop ends. *)
Fixpoint gravity (fuel : nat) (st : State) : option State :=
  match fuel with
  | O => None
  | S fuel' =>
      let '(moved, st') := gravityFailSafe st in
      if truthy moved then gravity fuel' st' else Some st'
  end.

(** the same loop, with a redraw and a pause in its body *)
Fixpoint animateGravity (fuel : nat) (st : State) : option State :=
  match fuel with
  | O => None
  | S fuel' =>
      let '(moved, st') := gravityFailSafe st in
      if truthy moved then animateGravity fuel' st' else Some st'
  end.

(** ** dfs

    [coords] and [*count] are one list, the cells stored so far in storing
    order; [fuel] bounds the depth of the recursion. *)

Fixpoint dfs (fuel : nat) (bd bc : grid) (y x color_ : Z)
    (s : grid * list (Z * Z)) : option (Z * (grid * list (Z * Z))) :=
  match fuel with
  | O => None
  | S fuel' =>
      let '(vis, coords) := s in
      if (y <? 0) || (y >=? HEIGHT) || (x <? 0) || (x >=? WIDTH) then Some (0, s)
      else if negb (truthy (get bd y x)) || negb (get bc y x =? color_)
              || truthy (get vis y x) then Some (0, s)
      else
        let s0 := (put vis y x 1, coords ++ [(y, x)]) in
        '(_, s1) ← dfs fuel' bd bc (y + 1) x color_ s0;
        '(_, s2) ← dfs fuel' bd bc (y - 1) x color_ s1;
        '(_, s3) ← dfs fuel' bd bc y (x + 1) color_ s2;
        '(_, s4) ← dfs fuel' bd bc y (x - 1) color_ s3;
        Some (1, s4)
  end.

(** a recursion of [dfs] is never deeper than the number of cells, plus one
    for the call that fails its test *)
Definition dfs_fuel : nat := S (Z.to_nat (HEIGHT * WIDTH)).

(** ** clearGroups *)

(** [for (i = 0; i < cnt; i++) { board[cy][cx] = 0; board_color[cy][cx] = 0; }] *)
Definition remove_cells (coords : list (Z * Z)) (bd bc : grid) : grid * grid :=
  foldl (λ acc c, let '(b, k) := acc in let '(cy_, cx_) := c in
                  (put b cy_ cx_ 0, put k cy_ cx_ 0))
        (bd, bc) coords.

(** [(int)(cnt * 100 * chain_mult)], the multiplier given in halves *)
Definition group_score (cnt chain_mult2 : Z) : Z :=
  Z.quot (cnt * 100 * chain_mult2) 2.

(** the body of the two nested loops; the accumulator is the global state
    with the locals [total] and [groups] *)
Definition clearGroups_cell (chain_mult2 : Z)
    (acc : State * Z * Z) (c : Z * Z) : option (State * Z * Z) :=
  let '(st, total, groups) := acc in
  let '(y, x) := c in
  if truthy (get (board st) y x) && negb (truthy (get (visited st) y x)) then
    let color_ := get (board_color st) y x in
    '(_, (vis, coords)) ←
        dfs dfs_fuel (board st) (board_color st) y x color_ (visited st, []);
    let cnt := Z.of_nat (length coords) in
    let st1 := with_visited st vis in
    if cnt >=? 4 then
      let '(bd, bc) := remove_cells coords (board st1) (board_color st1) in
      let st2 := with_board st1 bd bc in
      let st3 :=
        with_score st2 (wrap_int (score st2 + group_score cnt chain_mult2)) in
      Some (st3, total + cnt, groups + 1)
    else Some (st1, total, groups)
  else Some acc.

Fixpoint clearGroups_scan (chain_mult2 : Z) (todo : list (Z * Z))
    (acc : State * Z * Z) : option (State * Z * Z) :=
  match todo with
  | [] => Some acc
  | c :: rest =>
      acc' ← clearGroups_cell chain_mult2 acc c;
      clearGroups_scan chain_mult2 rest acc'
  end.

(** the part after the loops *)
Definition clearGroups_finish (st : State) (groups : Z) : State :=
  if groups >? 0 then
    let clears' := clears st + groups in
    if Z.quot clears' 5 >=? level st
    then with_progress st clears' (level st + 1)
    else with_progress st clears' (level st)
  else st.

Definition clearGroups (chain_mult2 : Z) (st : State) : option (Z * State) :=
  let st0 := with_visited st (zeros HEIGHT WIDTH) in
  '(st1, total, groups) ←
      clearGroups_scan chain_mult2 (cells HEIGHT WIDTH) (st0, 0, 0);
  Some (total, clearGroups_finish st1 groups).

(** ** hardDrop *)

Fixpoint hardDrop (fuel : nat) (st : State) : option State :=
  match fuel with
  | O => None
  | S fuel' =>
      if negb (truthy (checkCollision (board st) (current st) (cx st) (cy st + 1)))
      then hardDrop fuel' (with_pos st (cx st) (cy st + 1))
      else Some st
  end.

(** ** lock_and_cascade *)

Inductive outcome : Type :=
  | Returned (st : State)     (* the function returns *)
  | GameOver (st : State).    (* the function calls exit(0) *)

(** the inner [while (1)]; the result carries the locals [chain] and
    [any_wave_cleared] *)
Fixpoint cascade_waves (fuel : nat) (chain any_wave_cleared : Z) (st : State)
    : option (Z * Z * State) :=
  match fuel with
  | O => None
  | S fuel' =>
      let mult2 := 2 + chain in
      '(cleared, st1) ← clearGroups mult2 st;
      if cleared =? 0 then Some (chain, any_wave_cleared, st1)
      else
        let chain' := chain + 1 in
        let st2 := with_last_chain st1 chain' in
        st3 ← animateGravity fuel' st2;
        cascade_waves fuel' chain' 1 st3
  end.

(** the outer [while (1)] *)
Fixpoint cascade (fuel : nat) (chain : Z) (st : State) : option (Z * State) :=
  match fuel with
  | O => None
  | S fuel' =>
      '(chain', any_wave_cleared, st1) ← cascade_waves fuel' chain 0 st;
      st2 ← gravity fuel' st1;
      if negb (truthy any_wave_cleared) then Some (chain', st2)
      else cascade fuel' chain' st2
  end.

Definition lock_and_cascade (fuel : nat) (st : State) : option outcome :=
  let st1 := with_input_locked st 1 in
  let st2 := placeBlock (current st1) (cx st1) (cy st1) st1 in
  let st3 := with_current st2 (next st2) in
  let '(nb, st3') := makeBlock st3 in
  let st4 := with_next st3' nb in
  let st5 := with_pos st4 (Z.quot WIDTH 2 - 1) 0 in
  '(chain, st6) ← cascade fuel 0 st5;
  let st7 := if chain =? 0 then with_last_chain st6 0 else st6 in
  let st8 := with_input_locked st7 0 in
  if truthy (checkCollision (board st8) (current st8) (cx st8) (cy st8))
  then Some (GameOver st8)
  else Some (Returned st8).

(** the two places of [main] that lock a piece:
    [lock_and_cascade(); gravity(); clearGroups(1);] *)
Definition lock_then_settle (fuel : nat) (st : State) : option outcome :=
  o ← lock_and_cascade fuel st;
  match o with
  | GameOver st' => Some (GameOver st')
  | Returned st1 =>
      st2 ← gravity fuel st1;
      '(_, st3) ← clearGroups 2 st2;
      Some (Returned st3)
  end.

(** ** The loop of main

    One iteration is driven by the key [getch] returned and by whether the
    fall interval has elapsed ([fall_due]); the key Q, which ends the loop,
    and the flag [soft], which only shortens the fall interval, are left
    out. *)

Inductive key : Type :=
  | KEY_LEFT | KEY_RIGHT | KEY_Z | KEY_X | KEY_DOWN | KEY_UP | NO_KEY.

(** the fall interval chooseDifficulty sets together with [K] colours *)
Definition difficulty_speed (K : Z) : Q :=
  if K =? 4 then 1 else if K =? 5 then 8 # 10 else if K =? 6 then 6 # 10
  else 45 # 100.

(** the state when the loop is entered: the globals as initialised, the
    difficulty chosen ([K] colours), [makeBlock(&current); makeBlock(&next);] *)
Definition main_start (stream : nat → Z) (K : Z) : State :=
  let blank := {| shape := zeros SIZE SIZE; color := zeros SIZE SIZE |} in
  let st0 := mkState (zeros HEIGHT WIDTH) (zeros HEIGHT WIDTH) blank blank
               (Z.quot WIDTH 2 - 1) 0 0 1 0 K (difficulty_speed K) 0 0
               (zeros HEIGHT WIDTH) stream 0 in
  let '(b, st1) := makeBlock st0 in
  let st2 := with_current st1 b in
  let '(n, st3) := makeBlock st2 in
  with_next st3 n.

Definition main_key (fuel : nat) (ch : key) (st : State) : option outcome :=
  if negb (truthy (input_locked st)) then
    match ch with
    | KEY_LEFT =>
        if negb (truthy (checkCollision (board st) (current st) (cx st - 1) (cy st)))
        then Some (Returned (with_pos st (cx st - 1) (cy st)))
        else Some (Returned st)
    | KEY_RIGHT =>
        if negb (truthy (checkCollision (board st) (current st) (cx st + 1) (cy st)))
        then Some (Returned (with_pos st (cx st + 1) (cy st)))
        else Some (Returned st)
    | KEY_Z => Some (Returned (key_rotate rotateLeft st))
    | KEY_X => Some (Returned (key_rotate rotateRight st))
    | KEY_UP => st1 ← hardDrop fuel st; lock_then_settle fuel st1
    | KEY_DOWN | NO_KEY => Some (Returned st)
    end
  else Some (Returned st).

Definition main_fall (fuel : nat) (st : State) : option outcome :=
  if negb (truthy (checkCollision (board st) (current st) (cx st) (cy st + 1)))
  then Some (Returned (with_pos st (cx st) (cy st + 1)))
  else lock_then_settle fuel st.

Definition main_iteration (fuel : nat) (ch : key) (fall_due : bool) (st : State)
    : option outcome :=
  st1 ← gravity fuel st;
  o ← main_key fuel ch st1;
  match o with
  | GameOver st2 => Some (GameOver st2)
  | Returned st2 => if fall_due then main_fall fuel st2 else Some (Returned st2)
  end.

Fixpoint main_loop (fuel : nat) (inputs : list (key * bool)) (st : State)
    : option outcome :=
  match inputs with
  | [] => Some (Returned st)
  | (ch, fall_due) :: rest =>
      o ← main_iteration fuel ch fall_due st;
      match o with
      | GameOver st' => Some (GameOver st')
      | Returned st' => main_loop fuel rest st'
      end
  end.

(** ** The loop of main with its display

    Every iteration starts with drawBoard, which writes to the terminal and
    calls [drawGhost(&current, cx, cy)]; that call reads [board] at indices
    it has not tested.  [main_run] is the loop with this call: an iteration
    whose drawGhost reads outside [board] ends the run in [OutOfArray], the
    program having no defined behaviour from there on.  The other calls of
    drawBoard are made inside lock_and_cascade and animateGravity, when the
    new piece has just been put at column 4 and row 0. *)

Inductive run_end : Type :=
  | Went (o : outcome)        (* the inputs are used up, or exit(0) was called *)
  | OutOfArray (st : State).  (* drawGhost read outside [board] in the state [st] *)

Fixpoint main_run (fuel : nat) (inputs : list (key * bool)) (st : State)
    : option run_end :=
  match inputs with
  | [] => Some (Went (Returned st))
  | (ch, fall_due) :: rest =>
      match drawGhost (current st) (cx st) (cy st) st with
      | None => Some (OutOfArray st)
      | Some _ =>
          o ← main_iteration fuel ch fall_due st;
          match o with
          | GameOver st' => Some (Went (GameOver st'))
          | Returned st' => main_run fuel rest st'
          end
      end
  end.

(** ** chooseDifficulty

    [choice] is the character [getch] returned; the menu texts are left
    out. *)

Definition with_difficulty (st : State) (k : Z) (speed : Q) : State :=
  mkState (board st) (board_color st) (current st) (next st) (cx st) (cy st)
    (score st) (level st) (clears st) k speed (input_locked st)
    (last_chain st) (visited st) (rand_stream st) (rand_calls st).

Definition chooseDifficulty (choice : Z) (st : State) : State :=
  if choice =? 49 then with_difficulty st 4 1                 (* case '1' *)
  else if choice =? 50 then with_difficulty st 5 (8 # 10)     (* case '2' *)
  else if choice =? 51 then with_difficulty st 6 (6 # 10)     (* case '3' *)
  else with_difficulty st 7 (45 # 100).                       (* default *)

(** * Specification vocabulary *)

(** [g] is an [h] by [w] array *)
Definition dims (h w : Z) (g : grid) : Prop :=
  length g = Z.to_nat h ∧ Forall (λ row, length row = Z.to_nat w) g.

Definition is_board (g : grid) : Prop := dims HEIGHT WIDTH g.

Definition is_block (b : Block) : Prop :=
  dims SIZE SIZE (shape b) ∧ dims SIZE SIZE (color b).

Definition in_board (y x : Z) : Prop :=
  0 ≤ y < HEIGHT ∧ 0 ≤ x < WIDTH.

Definition in_block (y x : Z) : Prop :=
  0 ≤ y < SIZE ∧ 0 ≤ x < SIZE.

(** ** Groups

    Cells are pairs [(row, column)]. *)

Definition rd (g : grid) (c : Z * Z) : Z := get g c.1 c.2.

Definition on_board (c : Z * Z) : Prop := in_board c.1 c.2.

(** 4-directional adjacency: down, up, right, left *)
Definition adjacent (c d : Z * Z) : Prop :=
  d = (c.1 + 1, c.2) ∨ d = (c.1 - 1, c.2) ∨ d = (c.1, c.2 + 1) ∨ d = (c.1, c.2 - 1).

(** an occupied cell of colour [k] *)
Definition stone (bd bc : grid) (k : Z) (c : Z * Z) : Prop :=
  on_board c ∧ rd bd c ≠ 0 ∧ rd bc c = k.

(** [d] is reached from [c] by steps between adjacent occupied cells of colour [k] *)
Inductive linked (bd bc : grid) (k : Z) : Z * Z → Z * Z → Prop :=
  | linked_refl c : stone bd bc k c → linked bd bc k c c
  | linked_step c d e :
      linked bd bc k c d → adjacent d e → stone bd bc k e → linked bd bc k c e.

(** [R] lists, without repetition, the cells of a maximal 4-directionally
    connected region of occupied cells of one colour *)
Definition region (bd bc : grid) (R : list (Z * Z)) : Prop :=
  NoDup R ∧ R ≠ [] ∧
  ∃ k, (∀ c, c ∈ R → stone bd bc k c) ∧
       (∀ c d, c ∈ R → d ∈ R → linked bd bc k c d) ∧
       (∀ c d, c ∈ R → adjacent c d → stone bd bc k d → d ∈ R).

(** floor (n * 100 * (1 + 0.5 * d)) *)
Definition floor_score (n d : Z) : Z :=
  Qfloor (inject_Z n * 100 * (1 + (1 # 2) * inject_Z d))%Q.

(** a cell has colour 0 if and only if it is unoccupied *)
Definition color_inv (bd bc : grid) : Prop :=
  ∀ c, on_board c → (rd bc c = 0 ↔ rd bd c = 0).

(** every occupied cell of the piece has a colour in [1, K] *)
Definition colored (K : Z) (b : Block) : Prop :=
  ∀ y x, in_block y x → get (shape b) y x ≠ 0 → 1 ≤ get (color b) y x ≤ K.

(** the boards the program can reach when all pieces are coloured in [1, K]:
    the arrays start zeroed, and placeBlock, clearGroups and gravityFailSafe
    are the only functions that write them *)
Inductive reachable_boards (K : Z) : grid → grid → Prop :=
  | reach_start :
      reachable_boards K (zeros HEIGHT WIDTH) (zeros HEIGHT WIDTH)
  | reach_placeBlock st b bx by_ :
      reachable_boards K (board st) (board_color st) → colored K b →
      reachable_boards K (board (placeBlock b bx by_ st))
                         (board_color (placeBlock b bx by_ st))
  | reach_clearGroups st m total st' :
      reachable_boards K (board st) (board_color st) →
      clearGroups m st = Some (total, st') →
      reachable_boards K (board st') (board_color st')
  | reach_gravityFailSafe st :
      reachable_boards K (board st) (board_color st) →
      reachable_boards K (board (gravityFailSafe st).2)
                         (board_color (gravityFailSafe st).2).

(** ** Vocabulary of the statements and of the proofs *)

Definition corners_empty (g : grid) : Prop :=
  get g 0 0 = 0 ∧ get g 0 2 = 0 ∧ get g 2 0 = 0 ∧ get g 2 2 = 0.

(** the occupied local cell [(y, x)] of [b], the block being at [(nx, ny)],
    lies on a column outside the board, on a row below it, or on an occupied
    cell of the board *)
Definition cell_blocked (bd : grid) (b : Block) (nx ny y x : Z) : Prop :=
  get (shape b) y x ≠ 0 ∧
  (nx + x < 0 ∨ WIDTH ≤ nx + x ∨ HEIGHT ≤ ny + y ∨
   (0 ≤ ny + y ∧ get bd (ny + y) (nx + x) ≠ 0)).

(** [r] is the value of [fall] from row [gy] of column [gx]: the rows passed
    on the way are above the floor and read as 0, and the row below [r] is
    below the floor or does not read as 0.  The reads are those of [get]:
    this describes the loop of gravityFailSafe, which starts on the board. *)
Definition rests_at (bd : grid) (gx gy r : Z) : Prop :=
  gy ≤ r ∧ (∀ k, gy < k ≤ r → k < HEIGHT ∧ get bd k gx = 0) ∧
  (HEIGHT ≤ r + 1 ∨ get bd (r + 1) gx ≠ 0).

Definition fall_test (bd : grid) (x ny : Z) : bool :=
  (ny + 1 <? HEIGHT) && negb (truthy (get bd (ny + 1) x)).

(** [r] is the row at which the loop of drawGhost leaves a cell that starts
    at row [gy] of column [gx]: every cell from the one below the start down
    to row [r] is a cell of the board and empty, and the cell below row [r]
    is below the floor, or a cell of the board and occupied *)
Definition stops_at (bd : grid) (gx gy r : Z) : Prop :=
  gy ≤ r ∧ (∀ k, gy < k ≤ r → in_board k gx ∧ get bd k gx = 0) ∧
  (HEIGHT ≤ r + 1 ∨ (in_board (r + 1) gx ∧ get bd (r + 1) gx ≠ 0)).

(** the first read of the loop of drawGhost for a cell at row [gy] of column
    [gx], if there is one, is inside the array *)
Definition reads_inside (gx gy : Z) : Prop :=
  HEIGHT ≤ gy + 1 ∨ in_board (gy + 1) gx.

(** the marks of the ghost when no read leaves the array *)
Definition ghost_mark (bd : grid) (b : Block) (x y : Z)
    (out : list (Z * Z)) (c : Z * Z) : list (Z * Z) :=
  let '(yy, xx) := c in
  if truthy (get (shape b) yy xx) then
    let gx := x + xx in
    let gy := fall bd gx (y + yy) in
    if (gy >=? 0) && (gy <? HEIGHT) && (gx >=? 0) && (gx <? WIDTH)
    then out ++ [(gy, gx)]
    else out
  else out.

(** the ghost mark of the local cell [(yy, xx)] is drawn at [(gy, gx)] *)
Definition ghost_of (bd : grid) (b : Block) (x y yy xx gy gx : Z) : Prop :=
  get (shape b) yy xx ≠ 0 ∧ gx = x + xx ∧ gy = fall bd gx (y + yy) ∧
  in_board gy gx.

Definition size (g : list (Z * Z)) : Z := Z.of_nat (length g).

Definition sum_with (f : list (Z * Z) → Z) (gs : list (list (Z * Z))) : Z :=
  foldr (λ g a, f g + a) 0 gs.

(** [vis'] is [vis] with the cells of [new] marked, all of them stones that
    were not marked before *)
Definition grown (bd bc : grid) (k : Z) (vis vis' : grid) (new : list (Z * Z))
    : Prop :=
  NoDup new ∧
  (∀ c, c ∈ new → rd vis c = 0 ∧ stone bd bc k c) ∧
  (∀ c, rd vis' c ≠ 0 ↔ rd vis c ≠ 0 ∨ c ∈ new).

(** every stone next to a cell of [new] is marked in [vis] *)
Definition closed (bd bc : grid) (k : Z) (vis : grid) (new : list (Z * Z)) : Prop :=
  ∀ c d, c ∈ new → adjacent c d → stone bd bc k d → rd vis d ≠ 0.

(** the cells of the board not marked in [vis] *)
Definition unmarked (vis : grid) : list (Z * Z) :=
  filter (λ c, rd vis c = 0) (cells HEIGHT WIDTH).

(** the part of the state a clear pass does not write before its last step *)
Definition untouched (st : State) :=
  (current st, next st, cx st, cy st, level st, clears st, max_colors st,
   input_locked st, last_chain st, rand_stream st, rand_calls st,
   base_speed st).

(** the score after the groups [gs] have been counted one after the other,
    from the score [s0], with the multiplier of [m] halves *)
Definition score_after (m s0 : Z) (gs : list (list (Z * Z))) : Z :=
  foldl (λ s g, wrap_int (s + group_score (size g) m)) s0 gs.

(** The loop invariant of the scan, relative to the boards [bd0], [bc0] and
    the score [s0] the pass started with; [gs] lists the groups removed so
    far, in the order of their removal. *)
Record scan_inv (bd0 bc0 : grid) (s0 m : Z) (gs : list (list (Z * Z)))
    (st : State) (total groups : Z) : Prop := {
  inv_board : is_board (board st);
  inv_color : is_board (board_color st);
  inv_marks : is_board (visited st);
  inv_fresh : ∀ c, rd (visited st) c = 0 →
      rd (board st) c = rd bd0 c ∧ rd (board_color st) c = rd bc0 c;
  inv_cells : ∀ c,
      (rd (board st) c = rd bd0 c ∧ rd (board_color st) c = rd bc0 c) ∨
      (rd (board st) c = 0 ∧ rd (board_color st) c = 0);
  inv_marked : ∀ c, rd (visited st) c ≠ 0 → on_board c ∧ rd bd0 c ≠ 0;
  inv_closed : ∀ c d, rd (visited st) c ≠ 0 → adjacent c d →
      stone bd0 bc0 (rd bc0 c) d → rd (visited st) d ≠ 0;
  inv_fate : ∀ R c, region bd0 bc0 R → c ∈ R → rd (visited st) c ≠ 0 →
      (4 ≤ size R → rd (board st) c = 0 ∧ rd (board_color st) c = 0) ∧
      (size R < 4 → rd (board st) c = rd bd0 c ∧ rd (board_color st) c = rd bc0 c);
  inv_groups : ∀ g, g ∈ gs →
      region bd0 bc0 g ∧ 4 ≤ size g ∧ ∀ c, c ∈ g → rd (visited st) c ≠ 0;
  inv_found : ∀ R c, region bd0 bc0 R → 4 ≤ size R → c ∈ R →
      rd (visited st) c ≠ 0 → ∃ g, g ∈ gs ∧ g ≡ₚ R;
  inv_apart : NoDup (mjoin gs);
  inv_score : score st = score_after m s0 gs;
  inv_total : total = sum_with size gs;
  inv_count : groups = Z.of_nat (length gs)
}.

(** ** Vocabulary of the further properties *)

(** the occupied local cells of a piece, and the occupied cells of a board *)
Definition block_cells (b : Block) : list (Z * Z) :=
  filter (λ c, rd (shape b) c ≠ 0) (cells SIZE SIZE).

Definition stones (bd : grid) : list (Z * Z) :=
  filter (λ c, rd bd c ≠ 0) (cells HEIGHT WIDTH).

(** a piece as the program makes and keeps them *)
Definition is_piece (K : Z) (b : Block) : Prop :=
  is_block b ∧ corners_empty (shape b) ∧ corners_empty (color b) ∧ colored K b.

(** checkCollision accepts the position of the active piece *)
Definition piece_free (st : State) : Prop :=
  checkCollision (board st) (current st) (cx st) (cy st) = 0.

(** what checkCollision accepts: every occupied cell of the active piece is
    on a column of the board and above the floor and, unless its row is
    above the top row of the board, on an empty cell of the board *)
Definition piece_clear (st : State) : Prop :=
  ∀ yy xx, in_block yy xx → get (shape (current st)) yy xx ≠ 0 →
    0 ≤ cx st + xx < WIDTH ∧ cy st + yy < HEIGHT ∧
    (0 ≤ cy st + yy → get (board st) (cy st + yy) (cx st + xx) = 0).

(** every cell of the occupancy board holds 0 or 1 *)
Definition binary (bd : grid) : Prop :=
  ∀ c, on_board c → rd bd c = 0 ∨ rd bd c = 1.

(** the cell on which the cell [c] of column [c.2] lands in a gravity step *)
Definition landing (bd : grid) (c : Z * Z) : Z * Z := (fall bd c.2 c.1, c.2).

(** 1 for an occupied cell, 0 for an empty one *)
Definition one_if (v : Z) : nat := if decide (v ≠ 0) then 1%nat else 0%nat.

(** the sum of the row numbers of a list of cells: it grows when cells fall *)
Definition rows_sum (l : list (Z * Z)) : Z := foldr (λ c a, c.1 + a) 0 l.

(** the globals that neither a clear pass nor gravity ever writes *)
Definition unwritten (st : State) :=
  (current st, next st, cx st, cy st, max_colors st, input_locked st,
   rand_stream st, rand_calls st, base_speed st).

(** the state an outcome carries *)
Definition outcome_state (o : outcome) : State :=
  match o with Returned st | GameOver st => st end.

(** what a cascade that took the chain counter from [chain] to [chain'] has
    done to the counters, from the state [st] to the state [st'] *)
Definition chain_effect (chain chain' : Z) (st st' : State) : Prop :=
  chain ≤ chain' ∧
  (chain' = chain →
     last_chain st' = last_chain st ∧ score st' = score st ∧
     clears st' = clears st ∧ level st' = level st) ∧
  (chain < chain' →
     last_chain st' = chain' ∧ clears st < clears st') ∧
  level st ≤ level st' ∧ unwritten st' = unwritten st.

(** the state in which the cascade of lock_and_cascade starts: input locked,
    the piece written to the boards, [next] made the current piece, a new
    [next] made, the position reset *)
Definition locked (st : State) : State :=
  let st1 := with_input_locked st 1 in
  let st2 := placeBlock (current st1) (cx st1) (cy st1) st1 in
  let st3 := with_current st2 (next st2) in
  let st4 := with_next (makeBlock st3).2 (makeBlock st3).1 in
  with_pos st4 (Z.quot WIDTH 2 - 1) 0.

(** what lock_and_cascade has done when it ends with the outcome [o] *)
Definition lock_effect (st : State) (o : outcome) : Prop :=
  let st' := outcome_state o in
  is_board (board st') ∧ is_board (board_color st') ∧
  current st' = next st ∧ next st' = (makeBlock st).1 ∧
  rand_calls st' = S (S (rand_calls st)) ∧ rand_stream st' = rand_stream st ∧
  max_colors st' = max_colors st ∧
  cx st' = 4 ∧ cy st' = 0 ∧ input_locked st' = 0 ∧
  0 ≤ last_chain st' ∧
  (last_chain st' = 0 →
     score st' = score st ∧ clears st' = clears st ∧ level st' = level st) ∧
  (0 < last_chain st' → clears st < clears st') ∧
  level st ≤ level st' ∧
  (gravityFailSafe st').1 = 0 ∧
  (o = Returned st' ↔ piece_free st') ∧ (o = GameOver st' ↔ ¬ piece_free st').

(** boards as the program keeps them: 20 by 10, occupancy 0 or 1, colour 0
    exactly on the empty cells *)
Definition good_boards (bd bc : grid) : Prop :=
  is_board bd ∧ is_board bc ∧ binary bd ∧ color_inv bd bc.

(** the shape makeBlock writes: the cells (0,1) and (1,1) *)
Definition upright : grid := [[0; 1; 0]; [0; 1; 0]; [0; 0; 0]].

(** the piece is upright in the column in which lock_and_cascade puts a new
    piece, and that column of the board is empty down to the piece's lower
    cell *)
Definition fresh (st : State) : Prop :=
  cx st = 4 ∧ shape (current st) = upright ∧ 0 ≤ cy st ∧
  ∀ y, 0 ≤ y ≤ cy st + 1 → get (board st) y 5 = 0.

(** the invariant of the loop of main: the boards are good; the two pieces
    are pieces coloured in [1, max_colors], the current one with its centre
    cell occupied, the next one upright; input is not locked; checkCollision
    accepts the position of the active piece (which may be above the top
    row); and either the board is at rest or the piece is a new one with
    nothing above it *)
Definition game_inv (st : State) : Prop :=
  good_boards (board st) (board_color st) ∧
  1 ≤ max_colors st ∧ (∀ n, 0 ≤ rand_stream st n) ∧
  is_piece (max_colors st) (current st) ∧ get (shape (current st)) 1 1 ≠ 0 ∧
  is_piece (max_colors st) (next st) ∧ shape (next st) = upright ∧
  input_locked st = 0 ∧
  piece_free st ∧
  ((gravityFailSafe st).1 = 0 ∨ fresh st).

(** the occupied rows of the column [x], from the top, and their colours *)
Definition column_rows (bd : grid) (x : Z) : list Z :=
  filter (λ y, get bd y x ≠ 0) (seqZ 0 HEIGHT).

Definition column (bd bc : grid) (x : Z) : list Z :=
  (λ y, get bc y x) <$> column_rows bd x.

(** no occupied cell of the board has an empty cell below it *)
Definition settled (bd : grid) : Prop :=
  ∀ y x, in_board y x → get bd y x ≠ 0 → y + 1 < HEIGHT → get bd (y + 1) x ≠ 0.

(** occupancy 0 or 1 and colour 0 on the empty cells: the boards a
    gravityFailSafe step writes *)
Definition tidy (bd bc : grid) : Prop :=
  binary bd ∧ ∀ c, on_board c → rd bd c = 0 → rd bc c = 0.

(** [waves d st n st']: from the state [st] and the chain depth [d], the
    inner loop of lock_and_cascade runs [n] waves, each a clear pass that
    removes cells, called with the multiplier of the depth it has reached,
    after which last_chain is set and the cells fall, and then a pass that
    removes nothing, which leaves the state [st'] *)
Inductive waves : Z → State → nat → State → Prop :=
  | waves_end d st st' :
      clearGroups (2 + d) st = Some (0, st') →
      waves d st 0 st'
  | waves_more d st total st1 fuel st2 n st' :
      clearGroups (2 + d) st = Some (total, st1) → total ≠ 0 →
      animateGravity fuel (with_last_chain st1 (d + 1)) = Some st2 →
      waves (d + 1) st2 n st' →
      waves d st (S n) st'.

(** ** Concrete boards and sessions for the examples *)

(** the boards holding the listed [(row, column, colour)] cells *)
Definition fill (l : list (Z * Z * Z)) : grid * grid :=
  foldl (λ acc c, let '(bd, bc) := acc in let '(y, x, k) := c in
                  (put bd y x 1, put bc y x k))
        (zeros HEIGHT WIDTH, zeros HEIGHT WIDTH) l.

(** the piece makeBlock builds, with colours [c0] (top) and [c1] (centre) *)
Definition domino_up (c0 c1 : Z) : Block :=
  {| shape := [[0; 1; 0]; [0; 1; 0]; [0; 0; 0]];
     color := [[0; c0; 0]; [0; c1; 0]; [0; 0; 0]] |}.

(** the same piece after one clockwise rotation *)
Definition domino_right (c0 c1 : Z) : Block :=
  {| shape := [[0; 0; 0]; [0; 1; 1]; [0; 0; 0]];
     color := [[0; 0; 0]; [0; c1; c0]; [0; 0; 0]] |}.

(** a session on the given boards, the active piece [cur] being at [(x, y)]:
    score 0, level 1, no clears, four colours at the speed 1.0, [rand]
    returning 0, 1, 2, ... *)
Definition session (bds : grid * grid) (cur : Block) (x y : Z) : State :=
  mkState bds.1 bds.2 cur (domino_up 1 2) x y 0 1 0 4 1 0 0
          (zeros HEIGHT WIDTH) (λ n, Z.of_nat n) 0.

(** an L-shaped group of four cells of colour 2 and, apart from it, a column
    of three cells of colour 1 *)
Definition ell : list (Z * Z) := [(19, 3); (19, 4); (19, 5); (18, 3)].

Definition bar : list (Z * Z) := [(19, 7); (18, 7); (17, 7)].

Definition ell_and_bar : State :=
  session (fill [(19, 3, 2); (19, 4, 2); (19, 5, 2); (18, 3, 2);
                 (19, 7, 1); (18, 7, 1); (17, 7, 1)])
          (domino_up 1 2) 4 0.

(** ten groups of four cells: in each of the rows 15 to 19, the columns 0 to
    3 in one colour and the columns 4 to 7 in the other, the two colours
    changing sides from row to row *)
Definition ten_groups : State :=
  session (fill (y ← seqZ 15 5; x ← seqZ 0 8;
                 [(y, x, if Z.even (y + Z.quot x 4) then 1 else 2)]))
          (domino_up 1 2) 4 0.

(** a game of four colours in which [rand] returns 2, 1, 2, 1, 0, 0, 0, 3,
    0, 1 and then 0, played with the keys Up, Up, Right, Up, Right, Right,
    Up, X *)
Definition overhang_stream : nat → Z :=
  λ n, default 0 ([2; 1; 2; 1; 0; 0; 0; 3; 0; 1] !! n).

Definition overhang_keys : list (key * bool) :=
  [(KEY_UP, false); (KEY_UP, false); (KEY_RIGHT, false); (KEY_UP, false);
   (KEY_RIGHT, false); (KEY_RIGHT, false); (KEY_UP, false); (KEY_X, false)].

(** the state that game is in after these keys: a horizontal piece at the
    top, its right cell of colour 1 above the column of two cells of colour 1 *)
Definition overhang : State :=
  let bds := fill [(19, 5, 2); (18, 5, 3); (17, 5, 2); (16, 5, 3);
                   (19, 6, 1); (18, 6, 1); (19, 7, 4); (18, 7, 1)] in
  mkState bds.1 bds.2 (domino_right 1 2) (domino_up 1 1) 4 0 0 1 0 4 1 0 0
          bds.1 overhang_stream 12.

(** the state lock_and_cascade returns when the piece of [overhang] has been
    dropped, and the state after the gravity() and clearGroups(1) that follow
    the call in main *)
Definition after_lock : State :=
  Eval vm_compute in
    match hardDrop 30 overhang ≫= lock_and_cascade 30 with
    | Some (Returned st) => st
    | _ => overhang
    end.

Definition after_settle : State :=
  Eval vm_compute in
    match hardDrop 30 overhang ≫= lock_then_settle 30 with
    | Some (Returned st) => st
    | _ => overhang
    end.

(** the group of four of colour 1 that the fall of that cell completes *)
Definition late_group : list (Z * Z) := [(17, 6); (18, 6); (19, 6); (18, 7)].

(** a game of four colours in which 45 upright pieces are dropped on the
    columns 4, 5, 6, 8 and 9, nine on each, and a flat one on the columns 8
    and 9, the colours alternating so that no group forms; the next piece is
    then turned on top of the columns 4 to 6, which lifts it by one row,
    moved to the right wall and turned on top of the columns 8 and 9, which
    lifts it by one more row, and turned until it is upright again *)
Definition climb_stream : nat → Z :=
  λ n, default 0
         ((mjoin (replicate 9 [0; 1]) ++ mjoin (replicate 9 [1; 0]) ++
           mjoin (replicate 18 [0; 1]) ++ mjoin (replicate 9 [1; 0]) ++
           [0; 1; 0; 1]) !! n).

Definition climb_keys : list (key * bool) :=
  (λ k, (k, false)) <$>
    (mjoin (replicate 9 [KEY_LEFT; KEY_UP]) ++
     mjoin (replicate 9 [KEY_UP]) ++
     mjoin (replicate 9 [KEY_RIGHT; KEY_UP]) ++
     mjoin (replicate 9 [KEY_RIGHT; KEY_RIGHT; KEY_RIGHT; KEY_UP]) ++
     mjoin (replicate 9 [KEY_RIGHT; KEY_RIGHT; KEY_RIGHT; KEY_RIGHT; KEY_UP]) ++
     [KEY_X; KEY_RIGHT; KEY_RIGHT; KEY_RIGHT; KEY_UP] ++
     [KEY_X; KEY_X; KEY_X; KEY_RIGHT; KEY_RIGHT; KEY_RIGHT; KEY_RIGHT;
      KEY_Z; KEY_Z; KEY_Z]).

(** the state that game is in after these keys: the piece is upright in
    column 8, on the rows -2 and -1 *)
Definition climbed : State :=
  Eval vm_compute in
    match main_loop 60 climb_keys (main_start climb_stream 4) with
    | Some o => outcome_state o
    | None => main_start climb_stream 4
    end.

(** * Arrays: reading after writing *)

Section Arrays.
Implicit Types (g : grid) (y x v h w : Z).

Lemma get_outside g y x : ¬ (0 ≤ y ∧ 0 ≤ x) → get g y x = 0.
Proof.
  intros Hn. unfold get.
  destruct (0 <=? y) eqn:Hy; destruct (0 <=? x) eqn:Hx; simpl; try reflexivity.
  apply Z.leb_le in Hy, Hx. tauto.
Qed.

Lemma get_put_eq h w g y x v :
  dims h w g → 0 ≤ y < h → 0 ≤ x < w → get (put g y x v) y x = v.
Proof.
  intros [Hlen Hrows] Hy Hx. unfold get, put.
  replace (0 <=? y) with true by (symmetry; apply Z.leb_le; lia).
  replace (0 <=? x) with true by (symmetry; apply Z.leb_le; lia).
  cbn [andb].
  destruct (lookup_lt_is_Some_2 g (Z.to_nat y)) as [row Hrow]; [lia|].
  rewrite list_lookup_alter_eq, Hrow. cbn [fmap option_fmap option_map mbind option_bind].
  rewrite list_lookup_insert_eq; [reflexivity|].
  rewrite Forall_lookup in Hrows. rewrite (Hrows _ _ Hrow). lia.
Qed.

Lemma get_put_ne g y x v y' x' :
  (y, x) ≠ (y', x') → get (put g y x v) y' x' = get g y' x'.
Proof.
  intros Hne. unfold get, put.
  destruct (0 <=? y') eqn:Hy'; destruct (0 <=? x') eqn:Hx'; cbn [andb]; try reflexivity.
  destruct (0 <=? y) eqn:Hy; destruct (0 <=? x) eqn:Hx; cbn [andb]; try reflexivity.
  apply Z.leb_le in Hy, Hx, Hy', Hx'.
  destruct (decide (y = y')) as [->|Hyy].
  - rewrite list_lookup_alter_eq.
    destruct (g !! Z.to_nat y') as [row|]; cbn [fmap option_fmap option_map mbind option_bind];
      [|reflexivity].
    rewrite list_lookup_insert_ne; [reflexivity|].
    intros Heq. apply Hne. f_equal. lia.
  - rewrite list_lookup_alter_ne; [reflexivity|]. lia.
Qed.

Lemma dims_put h w g y x v : dims h w g → dims h w (put g y x v).
Proof.
  intros [Hlen Hrows]. unfold put.
  destruct ((0 <=? y) && (0 <=? x)); [|split; assumption].
  split.
  - rewrite length_alter. exact Hlen.
  - apply Forall_alter; [exact Hrows|].
    intros row _ Hrow. rewrite length_insert. exact Hrow.
Qed.

Lemma dims_zeros h w : dims h w (zeros h w).
Proof.
  split.
  - unfold zeros. apply length_replicate.
  - unfold zeros. apply Forall_replicate. apply length_replicate.
Qed.

Lemma get_zeros h w y x : get (zeros h w) y x = 0.
Proof.
  unfold get, zeros.
  destruct ((0 <=? y) && (0 <=? x)); [|reflexivity].
  destruct (replicate (Z.to_nat h) (replicate (Z.to_nat w) 0) !! Z.to_nat y)
    as [row|] eqn:Hrow; simpl; [|reflexivity].
  apply lookup_replicate in Hrow as [-> _].
  destruct (replicate (Z.to_nat w) 0 !! Z.to_nat x) as [v|] eqn:Hv; simpl;
    [|reflexivity].
  apply lookup_replicate in Hv as [-> _]. reflexivity.
Qed.

Lemma get_tabulate h w f y x :
  0 ≤ y < h → 0 ≤ x < w → get (tabulate h w f) y x = f y x.
Proof.
  intros Hy Hx. unfold get, tabulate.
  replace (0 <=? y) with true by (symmetry; apply Z.leb_le; lia).
  replace (0 <=? x) with true by (symmetry; apply Z.leb_le; lia).
  simpl. rewrite list_lookup_fmap.
  rewrite (lookup_seqZ_lt 0 h (Z.to_nat y)) by lia. simpl.
  rewrite list_lookup_fmap.
  rewrite (lookup_seqZ_lt 0 w (Z.to_nat x)) by lia. simpl.
  f_equal; lia.
Qed.

Lemma dims_tabulate h w f : dims h w (tabulate h w f).
Proof.
  split.
  - unfold tabulate. rewrite length_fmap. apply length_seqZ.
  - unfold tabulate. apply Forall_fmap, Forall_forall. intros y _. simpl.
    rewrite length_fmap. apply length_seqZ.
Qed.

(** two arrays of the same dimensions with the same elements are equal *)
Lemma grid_ext h w g1 g2 :
  dims h w g1 → dims h w g2 →
  (∀ y x, 0 ≤ y < h → 0 ≤ x < w → get g1 y x = get g2 y x) → g1 = g2.
Proof.
  intros [Hl1 Hr1] [Hl2 Hr2] Hget.
  apply list_eq_same_length with (Z.to_nat h); [assumption..|].
  intros i r1 r2 Hi H1 H2.
  rewrite Forall_lookup in Hr1, Hr2.
  apply list_eq_same_length with (Z.to_nat w); [eauto..|].
  intros j v1 v2 Hj Hv1 Hv2.
  specialize (Hget (Z.of_nat i) (Z.of_nat j)). unfold get in Hget.
  replace (0 <=? Z.of_nat i) with true in Hget by (symmetry; apply Z.leb_le; lia).
  replace (0 <=? Z.of_nat j) with true in Hget by (symmetry; apply Z.leb_le; lia).
  simpl in Hget. rewrite !Nat2Z.id, H1, H2 in Hget. simpl in Hget.
  rewrite Hv1, Hv2 in Hget. simpl in Hget. apply Hget; lia.
Qed.

Lemma elem_of_cells h w y x :
  (y, x) ∈ cells h w ↔ 0 ≤ y < h ∧ 0 ≤ x < w.
Proof.
  unfold cells. rewrite list_elem_of_bind. split.
  - intros (y' & Hin & Hy'). apply list_elem_of_fmap in Hin as (x' & Heq & Hx').
    inversion Heq; subst. apply elem_of_seqZ in Hy', Hx'. lia.
  - intros [Hy Hx]. exists y. split.
    + apply list_elem_of_fmap. exists x. split; [reflexivity|].
      apply elem_of_seqZ. lia.
    + apply elem_of_seqZ. lia.
Qed.

End Arrays.

(** * Rotation *)

Lemma row_of_three (row : list Z) :
  length row = Z.to_nat SIZE → ∃ a b c, row = [a; b; c].
Proof.
  destruct row as [|a [|b [|c [|d row]]]]; try discriminate. eauto.
Qed.

Lemma grid_of_nine (g : grid) :
  dims SIZE SIZE g →
  ∃ a b c d e f p q r, g = [[a; b; c]; [d; e; f]; [p; q; r]].
Proof.
  intros [Hlen Hrows].
  destruct g as [|r0 [|r1 [|r2 [|r3 g]]]]; try discriminate.
  apply Forall_cons_1 in Hrows as [H0 Hrows].
  apply Forall_cons_1 in Hrows as [H1 Hrows].
  apply Forall_cons_1 in Hrows as [H2 _].
  apply row_of_three in H0 as (a & b & c & ->).
  apply row_of_three in H1 as (d & e & f & ->).
  apply row_of_three in H2 as (p & q & r & ->).
  by exists a, b, c, d, e, f, p, q, r.
Qed.

Lemma rotate_preserves_block (b : Block) :
  is_block (rotateRight b) ∧ is_block (rotateLeft b).
Proof. repeat split; apply dims_tabulate. Qed.

Lemma rotate_corners (b : Block) :
  corners_empty (shape (rotateRight b)) ∧ corners_empty (color (rotateRight b)) ∧
  corners_empty (shape (rotateLeft b)) ∧ corners_empty (color (rotateLeft b)).
Proof. repeat split; reflexivity. Qed.

(** the rotations write 0 to the corner cells whatever they read there, so
    a [Block] value with an occupied corner, which no code path of the
    program builds, would lose that cell at its first rotation: this is why
    the corners appear in the hypotheses below *)
Lemma rotate_four_times_corner_lost :
  let b := {| shape := [[1; 1; 0]; [0; 1; 0]; [0; 0; 0]];
              color := [[3; 1; 0]; [0; 2; 0]; [0; 0; 0]] |} in
  is_block b ∧
  Nat.iter 4 rotateRight b ≠ b ∧ Nat.iter 4 rotateLeft b ≠ b ∧
  Nat.iter 4 rotateRight b =
    {| shape := [[0; 1; 0]; [0; 1; 0]; [0; 0; 0]];
       color := [[0; 1; 0]; [0; 2; 0]; [0; 0; 0]] |}.
Proof.
  repeat split; try discriminate; repeat constructor.
Qed.

(** C7: four clockwise rotations return the shape and colour matrices of a
    piece unchanged, and so do four counter-clockwise ones.  A piece is a
    3 by 3 block whose four corner cells are empty in the shape and in the
    colour matrix: makeBlock makes such blocks and both rotations return
    such blocks, so these are the only blocks rotateRight and rotateLeft
    ever receive. *)
Theorem rotate_four_times (b : Block) :
  is_block b → corners_empty (shape b) → corners_empty (color b) →
  Nat.iter 4 rotateRight b = b ∧ Nat.iter 4 rotateLeft b = b.
Proof.
  destruct b as [s c]. intros [Hs Hc] Hcs Hcc. simpl in *.
  apply grid_of_nine in Hs as (s1 & s2 & s3 & s4 & s5 & s6 & s7 & s8 & s9 & ->).
  apply grid_of_nine in Hc as (c1 & c2 & c3 & c4 & c5 & c6 & c7 & c8 & c9 & ->).
  destruct Hcs as (Hs1 & Hs3 & Hs7 & Hs9). destruct Hcc as (Hc1 & Hc3 & Hc7 & Hc9).
  cbv in Hs1, Hs3, Hs7, Hs9, Hc1, Hc3, Hc7, Hc9. subst.
  split; reflexivity.
Qed.

Lemma rotate_four_times_witness :
  let b := fst (makeBlock (session (fill []) (domino_up 1 2) 4 0)) in
  b = domino_up 1 2 ∧
  Nat.iter 4 rotateRight b = b ∧ Nat.iter 4 rotateLeft b = b.
Proof.
  split; [reflexivity|].
  apply rotate_four_times; repeat split; repeat constructor.
Defined.

(** * Collision *)

Lemma truthy_true v : truthy v = true ↔ v ≠ 0.
Proof. unfold truthy. rewrite negb_true_iff, Z.eqb_neq. reflexivity. Qed.

Lemma truthy_false v : truthy v = false ↔ v = 0.
Proof. unfold truthy. rewrite negb_false_iff, Z.eqb_eq. reflexivity. Qed.

Lemma checkCollision_from_spec bd b nx ny todo :
  (checkCollision_from bd b nx ny todo = 1 ∧
     ∃ y x, (y, x) ∈ todo ∧ cell_blocked bd b nx ny y x)
  ∨ (checkCollision_from bd b nx ny todo = 0 ∧
     ∀ y x, (y, x) ∈ todo → ¬ cell_blocked bd b nx ny y x).
Proof.
  induction todo as [|[y x] rest IH]; simpl.
  - right. split; [reflexivity|]. intros y x Hin. inversion Hin.
  - destruct (truthy (get (shape b) y x)) eqn:Hocc.
    + apply truthy_true in Hocc.
      destruct ((nx + x <? 0) || (nx + x >=? WIDTH) || (ny + y >=? HEIGHT)) eqn:Hout.
      { left. split; [reflexivity|]. exists y, x. split; [left|].
        split; [assumption|]. rewrite !orb_true_iff in Hout. lia. }
      rewrite !orb_false_iff in Hout. destruct Hout as [[Hx0 Hx1] Hy1].
      destruct ((ny + y >=? 0) && truthy (get bd (ny + y) (nx + x))) eqn:Hhit.
      { left. split; [reflexivity|]. exists y, x. split; [left|].
        apply andb_true_iff in Hhit as [Hy0 Hb]. apply truthy_true in Hb.
        split; [assumption|]. right; right; right. split; [lia|assumption]. }
      destruct IH as [[-> (y' & x' & Hin & Hbl)]|[-> Hfree]].
      * left. split; [reflexivity|]. exists y', x'. split; [by right|assumption].
      * right. split; [reflexivity|]. intros y' x' Hin.
        apply elem_of_cons in Hin as [Heq|Hin]; [|by apply Hfree].
        inversion Heq; subst. intros [_ Hbl].
        apply andb_false_iff in Hhit as [Hy0|Hb].
        -- lia.
        -- apply truthy_false in Hb. lia.
    + apply truthy_false in Hocc.
      destruct IH as [[-> (y' & x' & Hin & Hbl)]|[-> Hfree]].
      * left. split; [reflexivity|]. exists y', x'. split; [by right|assumption].
      * right. split; [reflexivity|]. intros y' x' Hin.
        apply elem_of_cons in Hin as [Heq|Hin]; [|by apply Hfree].
        inversion Heq; subst. intros [Hne _]. contradiction.
Qed.

Lemma checkCollision_cases bd b nx ny :
  (checkCollision bd b nx ny = 1 ∧
     ∃ y x, in_block y x ∧ cell_blocked bd b nx ny y x)
  ∨ (checkCollision bd b nx ny = 0 ∧
     ∀ y x, in_block y x → ¬ cell_blocked bd b nx ny y x).
Proof.
  unfold checkCollision.
  destruct (checkCollision_from_spec bd b nx ny (cells SIZE SIZE))
    as [[-> (y & x & Hin & Hbl)]|[-> Hfree]].
  - left. split; [reflexivity|]. exists y, x. split; [|assumption].
    by apply elem_of_cells in Hin.
  - right. split; [reflexivity|]. intros y x Hin. apply Hfree.
    by apply elem_of_cells.
Qed.

(** C4: checkCollision reports a collision exactly when some occupied local
    cell of the piece lies on a column outside [0, WIDTH), or on a row
    >= HEIGHT, or on a row >= 0 whose board cell is occupied; it returns 0
    otherwise, so that occupied cells on rows < 0 (and columns inside the
    board) are never the cause of a collision. *)
Theorem checkCollision_iff (bd : grid) (b : Block) (nx ny : Z) :
  (checkCollision bd b nx ny = 1 ↔
     ∃ y x, in_block y x ∧ get (shape b) y x ≠ 0 ∧
            (nx + x < 0 ∨ WIDTH ≤ nx + x ∨ HEIGHT ≤ ny + y ∨
             (0 ≤ ny + y ∧ get bd (ny + y) (nx + x) ≠ 0)))
  ∧ (checkCollision bd b nx ny = 0 ∨ checkCollision bd b nx ny = 1)
  ∧ ((∀ y x, in_block y x → get (shape b) y x ≠ 0 →
             0 ≤ nx + x < WIDTH ∧
             (ny + y < 0 ∨ (ny + y < HEIGHT ∧ get bd (ny + y) (nx + x) = 0))) →
     checkCollision bd b nx ny = 0).
Proof.
  destruct (checkCollision_cases bd b nx ny) as [[Hr Hex]|[Hr Hfree]].
  - split; [|split].
    + split; [|intros; assumption]. intros _.
      destruct Hex as (y & x & Hin & Hocc & Hbl). by exists y, x.
    + by right.
    + intros Hall. destruct Hex as (y & x & Hin & Hocc & Hbl).
      destruct (Hall y x Hin Hocc) as [Hx Hy]. unfold HEIGHT, WIDTH in *. lia.
  - split; [|split].
    + rewrite Hr. split; [discriminate|].
      intros (y & x & Hin & Hocc & Hbl). exfalso.
      apply (Hfree y x Hin). by split.
    + by left.
    + intros _. assumption.
Qed.

(** * Rotation with kicks *)

Lemma attemptRotation_from_first rotated nx ny st todo i ox oy :
  todo !! i = Some (ox, oy) →
  checkCollision (board st) rotated (nx + ox) (ny + oy) = 0 →
  (∀ j ox' oy', (j < i)%nat → todo !! j = Some (ox', oy') →
     checkCollision (board st) rotated (nx + ox') (ny + oy') ≠ 0) →
  attemptRotation_from rotated nx ny st todo =
    (1, nx + ox, ny + oy, with_current st rotated).
Proof.
  revert i. induction todo as [|[ox0 oy0] rest IH]; intros i Hi Hfree Hbefore.
  - discriminate.
  - simpl. destruct i as [|i].
    + inversion Hi; subst. rewrite Hfree. reflexivity.
    + pose proof (Hbefore 0%nat ox0 oy0 ltac:(lia) eq_refl) as Hhit.
      destruct (truthy (checkCollision (board st) rotated (nx + ox0) (ny + oy0)))
        eqn:Hc.
      * simpl. apply (IH i); [exact Hi|exact Hfree|].
        intros j ox' oy' Hj Hl. apply (Hbefore (S j) ox' oy'); [lia|exact Hl].
      * apply truthy_false in Hc. contradiction.
Qed.

Lemma attemptRotation_from_none rotated nx ny st todo :
  (∀ ox oy, (ox, oy) ∈ todo →
     checkCollision (board st) rotated (nx + ox) (ny + oy) ≠ 0) →
  attemptRotation_from rotated nx ny st todo = (0, nx, ny, st).
Proof.
  induction todo as [|[ox0 oy0] rest IH]; intros Hall; [reflexivity|].
  simpl.
  destruct (truthy (checkCollision (board st) rotated (nx + ox0) (ny + oy0)))
    eqn:Hc.
  - simpl. apply IH. intros ox oy Hin. apply Hall. by right.
  - apply truthy_false in Hc. exfalso. apply (Hall ox0 oy0); [left|exact Hc].
Qed.

Lemma with_pos_same st : with_pos st (cx st) (cy st) = st.
Proof. by destruct st. Qed.

(** C5: attemptRotation tries the offsets (0,0), (-1,0), (+1,0), (0,-1),
    (-1,-1), (+1,-1) in this order against the rotated piece.  The first
    offset at which the rotated piece does not collide is committed: 1 is
    returned, the position becomes the old one plus that offset and the
    active piece becomes the rotated piece, nothing else changing.  If the
    rotated piece collides at all six offsets, 0 is returned and the active
    piece, the position and the rest of the state are unchanged. *)
Theorem attemptRotation_kicks (rotated : Block) (st : State) :
  offsets = [(0, 0); (-1, 0); (1, 0); (0, -1); (-1, -1); (1, -1)]
  ∧ (∀ i ox oy,
       offsets !! i = Some (ox, oy) →
       checkCollision (board st) rotated (cx st + ox) (cy st + oy) = 0 →
       (∀ j ox' oy', (j < i)%nat → offsets !! j = Some (ox', oy') →
          checkCollision (board st) rotated (cx st + ox') (cy st + oy') ≠ 0) →
       attemptRotation rotated (cx st) (cy st) st =
         (1, cx st + ox, cy st + oy, with_current st rotated)
       ∧ ∀ rot, rot (current st) = rotated →
           key_rotate rot st =
             with_pos (with_current st rotated) (cx st + ox) (cy st + oy))
  ∧ ((∀ ox oy, (ox, oy) ∈ offsets →
        checkCollision (board st) rotated (cx st + ox) (cy st + oy) ≠ 0) →
     attemptRotation rotated (cx st) (cy st) st = (0, cx st, cy st, st)
     ∧ ∀ rot, rot (current st) = rotated → key_rotate rot st = st).
Proof.
  split; [reflexivity|]. split.
  - intros i ox oy Hi Hfree Hbefore.
    assert (attemptRotation rotated (cx st) (cy st) st =
              (1, cx st + ox, cy st + oy, with_current st rotated)) as Heq
      by (eapply attemptRotation_from_first; eassumption).
    split; [exact Heq|].
    intros rot Hrot. unfold key_rotate. rewrite Hrot, Heq. reflexivity.
  - intros Hall.
    assert (attemptRotation rotated (cx st) (cy st) st = (0, cx st, cy st, st))
      as Heq by (by apply attemptRotation_from_none).
    split; [exact Heq|].
    intros rot Hrot. unfold key_rotate. rewrite Hrot, Heq. apply with_pos_same.
Qed.

(** * The falling loop *)

Lemma fall_test_true bd x ny :
  fall_test bd x ny = true ↔ ny + 1 < HEIGHT ∧ get bd (ny + 1) x = 0.
Proof.
  unfold fall_test. rewrite andb_true_iff, Z.ltb_lt, negb_true_iff, truthy_false.
  reflexivity.
Qed.

Lemma fall_test_false bd x ny :
  fall_test bd x ny = false ↔ HEIGHT ≤ ny + 1 ∨ get bd (ny + 1) x ≠ 0.
Proof.
  unfold fall_test. rewrite andb_false_iff, Z.ltb_ge, negb_false_iff, truthy_true.
  reflexivity.
Qed.

(** [fall] is the while loop: it satisfies the loop's unfolding *)
Lemma fall_eq bd x ny :
  fall bd x ny = if fall_test bd x ny then fall bd x (ny + 1) else ny.
Proof.
  unfold fall. destruct (Z.to_nat (HEIGHT - 1 - ny)) as [|n] eqn:Hn.
  - simpl. destruct (fall_test bd x ny) eqn:Ht; [|reflexivity].
    apply fall_test_true in Ht. lia.
  - simpl. fold (fall_test bd x ny). destruct (fall_test bd x ny); [|reflexivity].
    replace (Z.to_nat (HEIGHT - 1 - (ny + 1))) with n by lia. reflexivity.
Qed.

Lemma fall_loop_rests bd x n ny :
  HEIGHT - 1 - ny ≤ Z.of_nat n → rests_at bd x ny (fall_loop bd x n ny).
Proof.
  revert ny. induction n as [|n IH]; intros ny Hn; simpl.
  - split; [lia|]. split; [intros; lia|]. left. lia.
  - fold (fall_test bd x ny). destruct (fall_test bd x ny) eqn:Ht.
    + apply fall_test_true in Ht as [Hlt Hfree].
      destruct (IH (ny + 1)) as (Hle & Hpath & Hstop); [lia|].
      split; [lia|]. split; [|exact Hstop].
      intros k Hk. destruct (decide (k = ny + 1)) as [->|Hne]; [by split|].
      apply Hpath. lia.
    + apply fall_test_false in Ht.
      split; [lia|]. split; [intros; lia|]. exact Ht.
Qed.

Lemma fall_rests bd x ny : rests_at bd x ny (fall bd x ny).
Proof. apply fall_loop_rests. lia. Qed.

Lemma rests_at_unique bd x ny r1 r2 :
  rests_at bd x ny r1 → rests_at bd x ny r2 → r1 = r2.
Proof.
  intros (Hle1 & Hpath1 & Hstop1) (Hle2 & Hpath2 & Hstop2).
  destruct (Z.lt_trichotomy r1 r2) as [Hlt|[Heq|Hgt]]; [|exact Heq|].
  - destruct (Hpath2 (r1 + 1)) as [Hin Hfree]; [lia|].
    destruct Hstop1 as [Hout|Hocc]; [lia|contradiction].
  - destruct (Hpath1 (r2 + 1)) as [Hin Hfree]; [lia|].
    destruct Hstop2 as [Hout|Hocc]; [lia|contradiction].
Qed.

(** * The ghost projection *)

Lemma elem_of_cells_by_column h w y x :
  (y, x) ∈ cells_by_column h w ↔ 0 ≤ y < h ∧ 0 ≤ x < w.
Proof.
  unfold cells_by_column. rewrite list_elem_of_bind. split.
  - intros (x' & Hin & Hx'). apply list_elem_of_fmap in Hin as (y' & Heq & Hy').
    inversion Heq; subst. apply elem_of_seqZ in Hy', Hx'. lia.
  - intros [Hy Hx]. exists x. split.
    + apply list_elem_of_fmap. exists y. split; [reflexivity|].
      apply elem_of_seqZ. lia.
    + apply elem_of_seqZ. lia.
Qed.

Lemma drawGhost_cell_marks bd b x y todo out gy gx :
  (gy, gx) ∈ foldl (ghost_mark bd b x y) out todo ↔
  (gy, gx) ∈ out ∨ ∃ yy xx, (yy, xx) ∈ todo ∧ ghost_of bd b x y yy xx gy gx.
Proof.
  revert out. induction todo as [|[yy xx] rest IH]; intros out; simpl.
  - split; [by left|]. intros [Hin|(yy & xx & Hin & _)]; [exact Hin|inversion Hin].
  - rewrite IH.
    destruct (truthy (get (shape b) yy xx)) eqn:Hocc.
    + apply truthy_true in Hocc.
      destruct ((fall bd (x + xx) (y + yy) >=? 0) && (fall bd (x + xx) (y + yy) <? HEIGHT)
                && (x + xx >=? 0) && (x + xx <? WIDTH)) eqn:Hin.
      * rewrite !andb_true_iff in Hin. destruct Hin as [[[H1 H2] H3] H4].
        rewrite elem_of_app, list_elem_of_singleton. split.
        -- intros [[Hout|Heq]|(yy' & xx' & Hr & Hg)].
           ++ by left.
           ++ inversion Heq; subst. right. exists yy, xx. split; [left|].
              repeat split; try assumption; lia.
           ++ right. exists yy', xx'. split; [by right|assumption].
        -- intros [Hout|(yy' & xx' & Hr & Hg)]; [by left; left|].
           apply elem_of_cons in Hr as [Heq|Hr].
           ++ inversion Heq; subst. destruct Hg as (_ & -> & -> & _). left. by right.
           ++ right. exists yy', xx'. by split.
      * split.
        -- intros [Hout|(yy' & xx' & Hr & Hg)]; [by left|].
           right. exists yy', xx'. split; [by right|assumption].
        -- intros [Hout|(yy' & xx' & Hr & Hg)]; [by left|].
           apply elem_of_cons in Hr as [Heq|Hr].
           ++ inversion Heq; subst. destruct Hg as (_ & -> & -> & [Hy Hx]).
              exfalso. rewrite !andb_false_iff in Hin. lia.
           ++ right. exists yy', xx'. by split.
    + apply truthy_false in Hocc. split.
      * intros [Hout|(yy' & xx' & Hr & Hg)]; [by left|].
        right. exists yy', xx'. split; [by right|assumption].
      * intros [Hout|(yy' & xx' & Hr & Hg)]; [by left|].
        apply elem_of_cons in Hr as [Heq|Hr].
        -- inversion Heq; subst. destruct Hg as [Hne _]. contradiction.
        -- right. exists yy', xx'. by split.
Qed.

(** the reads of the loop of drawGhost *)
Lemma read_inside g y x : in_board y x → read g y x = Some (get g y x).
Proof.
  intros [Hy Hx]. unfold read.
  replace ((0 <=? y) && (y <? HEIGHT) && (0 <=? x) && (x <? WIDTH)) with true;
    [reflexivity|].
  symmetry. rewrite !andb_true_iff, !Z.leb_le, !Z.ltb_lt. lia.
Qed.

Lemma read_outside g y x : ¬ in_board y x → read g y x = None.
Proof.
  intros Hout. unfold read.
  destruct ((0 <=? y) && (y <? HEIGHT) && (0 <=? x) && (x <? WIDTH)) eqn:Hin;
    [|reflexivity].
  rewrite !andb_true_iff, !Z.leb_le, !Z.ltb_lt in Hin.
  exfalso. apply Hout. unfold in_board. lia.
Qed.

Lemma reads_inside_dec gx gy : {reads_inside gx gy} + {¬ reads_inside gx gy}.
Proof.
  unfold reads_inside, in_board.
  destruct (decide (HEIGHT ≤ gy + 1)) as [|Hlow]; [by left; left|].
  destruct (decide (0 ≤ gy + 1 ∧ 0 ≤ gx < WIDTH)) as [Hin|Hout].
  - left. right. lia.
  - right. intros [?|?]; lia.
Qed.

(** when its first read is inside the array, the loop of drawGhost is the
    loop of gravityFailSafe *)
Lemma ghost_loop_inside bd gx n gy :
  0 ≤ gy + 1 → 0 ≤ gx < WIDTH →
  ghost_loop bd gx n gy = Some (fall_loop bd gx n gy).
Proof.
  revert gy. induction n as [|n IH]; intros gy Hy Hx; simpl; [reflexivity|].
  destruct (gy + 1 <? HEIGHT) eqn:Hlt; [|reflexivity].
  apply Z.ltb_lt in Hlt.
  rewrite read_inside by (unfold in_board; lia). cbn [mbind option_bind].
  destruct (negb (truthy (get bd (gy + 1) gx))); [|reflexivity].
  apply IH; lia.
Qed.

Lemma ghost_fall_inside bd gx gy :
  reads_inside gx gy → ghost_fall bd gx gy = Some (fall bd gx gy).
Proof.
  unfold ghost_fall, fall. intros [Hlow|[Hy Hx]].
  - replace (Z.to_nat (HEIGHT - 1 - gy)) with 0%nat by lia. reflexivity.
  - apply ghost_loop_inside; lia.
Qed.

Lemma ghost_fall_outside bd gx gy :
  ¬ reads_inside gx gy → ghost_fall bd gx gy = None.
Proof.
  intros Hout. unfold ghost_fall.
  destruct (Z.to_nat (HEIGHT - 1 - gy)) as [|n] eqn:Hn.
  - exfalso. apply Hout. left. lia.
  - simpl. replace (gy + 1 <? HEIGHT) with true by (symmetry; apply Z.ltb_lt; lia).
    rewrite read_outside; [reflexivity|].
    intros Hin. apply Hout. by right.
Qed.

(** [ghost_fall] is the while loop of drawGhost: it satisfies the loop's
    unfolding *)
Lemma ghost_fall_eq bd gx gy :
  ghost_fall bd gx gy =
    if gy + 1 <? HEIGHT then
      v ← read bd (gy + 1) gx;
      if negb (truthy v) then ghost_fall bd gx (gy + 1) else Some gy
    else Some gy.
Proof.
  unfold ghost_fall. destruct (Z.to_nat (HEIGHT - 1 - gy)) as [|n] eqn:Hn.
  - simpl. destruct (gy + 1 <? HEIGHT) eqn:Hlt; [|reflexivity].
    apply Z.ltb_lt in Hlt. lia.
  - simpl. destruct (gy + 1 <? HEIGHT); [|reflexivity].
    by replace (Z.to_nat (HEIGHT - 1 - (gy + 1))) with n by lia.
Qed.

Lemma stops_at_inside bd gx gy r : stops_at bd gx gy r → reads_inside gx gy.
Proof.
  intros (Hle & Hpath & Hstop).
  destruct (decide (r = gy)) as [->|Hne].
  - destruct Hstop as [Hlow|[Hin _]]; [by left|by right].
  - right. apply (Hpath (gy + 1)). lia.
Qed.

Lemma stops_at_fall bd gx gy r :
  reads_inside gx gy → stops_at bd gx gy r ↔ r = fall bd gx gy.
Proof.
  intros Hin. split.
  - intros (Hle & Hpath & Hstop).
    apply (rests_at_unique bd gx gy); [|apply fall_rests].
    split; [exact Hle|]. split.
    + intros k Hk. destruct (Hpath k Hk) as [[Hk' _] Hz]. split; [lia|exact Hz].
    + destruct Hstop as [Hlow|[_ Hocc]]; [by left|by right].
  - intros ->. destruct (fall_rests bd gx gy) as (Hle & Hpath & Hstop).
    split; [exact Hle|]. split.
    + intros k Hk. destruct (Hpath k Hk) as [Hk' Hz].
      split; [|exact Hz]. destruct Hin as [Hlow|[Hy Hx]]; [lia|].
      unfold in_board. lia.
    + destruct Hstop as [Hlow|Hocc]; [by left|].
      destruct (decide (HEIGHT ≤ fall bd gx gy + 1)) as [|Hup]; [by left|].
      right. split; [|exact Hocc].
      destruct Hin as [Hlow|[Hy Hx]]; [lia|]. unfold in_board. lia.
Qed.

Lemma ghost_fall_stops bd gx gy r :
  ghost_fall bd gx gy = Some r ↔ stops_at bd gx gy r.
Proof.
  destruct (reads_inside_dec gx gy) as [Hin|Hout].
  - rewrite (ghost_fall_inside bd gx gy Hin), (stops_at_fall bd gx gy r Hin).
    split; [by inversion 1|by intros ->].
  - rewrite (ghost_fall_outside bd gx gy Hout). split; [discriminate|].
    intros Hstop. exfalso. apply Hout. by apply (stops_at_inside bd gx gy r).
Qed.

(** the scan of the cells of the piece: it has a result exactly when the
    first read of every occupied cell is inside the array *)
Lemma drawGhost_scan_inside bd b x y todo out :
  (∀ yy xx, (yy, xx) ∈ todo → get (shape b) yy xx ≠ 0 →
            reads_inside (x + xx) (y + yy)) →
  drawGhost_scan bd b x y todo out = Some (foldl (ghost_mark bd b x y) out todo).
Proof.
  revert out. induction todo as [|[yy xx] rest IH]; intros out Hall; [reflexivity|].
  cbn [drawGhost_scan foldl]. unfold drawGhost_cell, ghost_mark at 2.
  destruct (truthy (get (shape b) yy xx)) eqn:Hocc.
  - apply truthy_true in Hocc.
    rewrite (ghost_fall_inside bd (x + xx) (y + yy))
      by (apply Hall; [by left|exact Hocc]).
    cbn [mbind option_bind].
    destruct ((fall bd (x + xx) (y + yy) >=? 0) && (fall bd (x + xx) (y + yy) <? HEIGHT)
              && (x + xx >=? 0) && (x + xx <? WIDTH));
      cbn [mbind option_bind]; apply IH; intros yy' xx' Hin; apply Hall; by right.
  - cbn [mbind option_bind]. apply IH. intros yy' xx' Hin. apply Hall. by right.
Qed.

Lemma drawGhost_scan_outside bd b x y todo out yy xx :
  (yy, xx) ∈ todo → get (shape b) yy xx ≠ 0 → ¬ reads_inside (x + xx) (y + yy) →
  drawGhost_scan bd b x y todo out = None.
Proof.
  revert out. induction todo as [|[yy' xx'] rest IH]; intros out Hin Hocc Hout;
    [inversion Hin|].
  cbn [drawGhost_scan].
  destruct (drawGhost_cell bd b x y out (yy', xx')) as [out'|] eqn:Hcell;
    [|reflexivity].
  cbn [mbind option_bind].
  apply elem_of_cons in Hin as [Heq|Hin]; [|by apply IH].
  inversion Heq; subst yy' xx'. exfalso.
  unfold drawGhost_cell in Hcell.
  replace (truthy (get (shape b) yy xx)) with true in Hcell
    by (symmetry; by apply truthy_true).
  by rewrite (ghost_fall_outside bd (x + xx) (y + yy) Hout) in Hcell.
Qed.

(** whether one of the cells of [todo] reads outside the array *)
Lemma reads_outside_dec (b : Block) (x y : Z) (todo : list (Z * Z)) :
  (∃ yy xx, (yy, xx) ∈ todo ∧ get (shape b) yy xx ≠ 0 ∧
            ¬ reads_inside (x + xx) (y + yy)) ∨
  (∀ yy xx, (yy, xx) ∈ todo → get (shape b) yy xx ≠ 0 →
            reads_inside (x + xx) (y + yy)).
Proof.
  induction todo as [|[yy xx] rest IH].
  - right. intros yy xx Hin. inversion Hin.
  - destruct IH as [(yy' & xx' & Hin & Hocc & Hout)|Hall].
    { left. exists yy', xx'. split; [by right|by split]. }
    destruct (decide (get (shape b) yy xx = 0)) as [Hz|Hocc].
    { right. intros yy' xx' Hin. apply elem_of_cons in Hin as [Heq|Hin];
        [inversion Heq; subst; intros; contradiction|by apply Hall]. }
    destruct (reads_inside_dec (x + xx) (y + yy)) as [Hin|Hout].
    + right. intros yy' xx' Hin'. apply elem_of_cons in Hin' as [Heq|Hin'];
        [inversion Heq; subst; by intros|by apply Hall].
    + left. exists yy, xx. split; [by left|by split].
Qed.

(** the two ways a call of drawGhost goes *)
Lemma drawGhost_cases b x y st :
  (drawGhost b x y st = None ∧
     ∃ yy xx, in_block yy xx ∧ get (shape b) yy xx ≠ 0 ∧
              ¬ reads_inside (x + xx) (y + yy))
  ∨ (drawGhost b x y st =
       Some (st, foldl (ghost_mark (board st) b x y) [] (cells_by_column SIZE SIZE)) ∧
     ∀ yy xx, in_block yy xx → get (shape b) yy xx ≠ 0 →
              reads_inside (x + xx) (y + yy)).
Proof.
  assert (∀ yy xx, (yy, xx) ∈ cells_by_column SIZE SIZE ↔ in_block yy xx) as Hcells.
  { intros yy xx. apply elem_of_cells_by_column. }
  destruct (reads_outside_dec b x y (cells_by_column SIZE SIZE))
    as [(yy & xx & Hin & Hocc & Hout)|Hall].
  - left. split.
    + unfold drawGhost.
      by rewrite (drawGhost_scan_outside _ b x y _ [] yy xx Hin Hocc Hout).
    + exists yy, xx. split; [by apply Hcells|by split].
  - right. split.
    + unfold drawGhost. by rewrite drawGhost_scan_inside.
    + intros yy xx Hin. apply Hall. by apply Hcells.
Qed.

(** C8, as stated, fails: above an occupied cell the ghost row is not one
    whose cell immediately below is empty or off the board.  With the cell
    (19, 4) occupied, both cells of a vertical piece in column 4 get the ghost
    row 18, the cell below which, (19, 4), is on the board and occupied; row
    19 is lower and has the floor below it. *)
Lemma drawGhost_stops_on_occupied :
  let st := session (fill [(19, 4, 1)]) (domino_up 1 2) 3 0 in
  drawGhost (current st) (cx st) (cy st) st = Some (st, [(18, 4); (18, 4)]) ∧
  ¬ (HEIGHT ≤ 18 + 1 ∨ get (board st) (18 + 1) 4 = 0) ∧
  HEIGHT ≤ 19 + 1.
Proof.
  split; [reflexivity|]. split; [|discriminate].
  intros [H|H]; [apply H; reflexivity|discriminate].
Qed.

(** the call has no defined result when a cell of the piece is two rows
    above the board: the loop then reads [board[-1][gx]] *)
Lemma drawGhost_reads_above :
  let st := session (fill []) (domino_up 1 2) 6 (-2) in
  checkCollision (board st) (current st) (cx st) (cy st) = 0 ∧
  read (board st) (cy st + 0 + 1) (cx st + 1) = None ∧
  drawGhost (current st) (cx st) (cy st) st = None.
Proof. repeat split. Qed.

(** C8, as amended: the ghost projection computes, for each occupied local
    cell of the piece independently, the row at which that cell stops when it
    moves down from its own row while the cell immediately below is on the
    board and empty, that is the first row, from the cell's row downwards,
    whose cell immediately below is occupied or off the bottom of the board;
    a mark is drawn for the cell when that row and the column are on the
    board.  The row depends on the board, the cell's column and the cell's
    row only (it is not a placement of the whole piece), and neither the
    board nor the piece nor anything else of the state is modified.  The
    cell below the start is read without a test of its row against 0 or of
    its column: the call has this result exactly when every occupied cell of
    the piece is on a column of the board and on a row from -1 downwards
    (or on the bottom row or below, where nothing is read), and no defined
    result otherwise. *)
Theorem drawGhost_projection (b : Block) (x y : Z) (st : State) :
  (drawGhost b x y st = None ↔
     ∃ yy xx, in_block yy xx ∧ get (shape b) yy xx ≠ 0 ∧
              y + yy + 1 < HEIGHT ∧ ¬ in_board (y + yy + 1) (x + xx))
  ∧ ((∀ yy xx, in_block yy xx → get (shape b) yy xx ≠ 0 →
               HEIGHT ≤ y + yy + 1 ∨ in_board (y + yy + 1) (x + xx)) →
     ∃ marks, drawGhost b x y st = Some (st, marks))
  ∧ (∀ st' marks, drawGhost b x y st = Some (st', marks) →
       st' = st ∧
       ∀ gy gx,
         (gy, gx) ∈ marks ↔
         ∃ yy xx, in_block yy xx ∧ get (shape b) yy xx ≠ 0 ∧
                  gx = x + xx ∧ stops_at (board st) gx (y + yy) gy ∧
                  in_board gy gx)
  ∧ (∀ gx gy r, ghost_fall (board st) gx gy = Some r ↔ stops_at (board st) gx gy r)
  ∧ (∀ gx gy r1 r2,
       stops_at (board st) gx gy r1 → stops_at (board st) gx gy r2 → r1 = r2).
Proof.
  assert (∀ yy xx, (yy, xx) ∈ cells_by_column SIZE SIZE ↔ in_block yy xx) as Hcells.
  { intros yy xx. apply elem_of_cells_by_column. }
  split; [|split; [|split; [|split]]].
  - split.
    + intros Hnone.
      destruct (drawGhost_cases b x y st)
        as [[_ (yy & xx & Hin & Hocc & Hout)]|[Hsome _]]; [|congruence].
      exists yy, xx. split; [exact Hin|]. split; [exact Hocc|].
      unfold reads_inside in Hout. split; [lia|]. intros Hon. apply Hout. by right.
    + intros (yy & xx & Hin & Hocc & Hlow & Hout).
      destruct (drawGhost_cases b x y st) as [[Hnone _]|[_ Hall]]; [exact Hnone|].
      destruct (Hall yy xx Hin Hocc) as [Hfloor|Hon]; [lia|contradiction].
  - intros Hall.
    destruct (drawGhost_cases b x y st)
      as [[_ (yy & xx & Hin & Hocc & Hout)]|[Hsome _]]; [|by eexists].
    exfalso. apply Hout. by apply Hall.
  - intros st' marks Hrun.
    destruct (drawGhost_cases b x y st) as [[Hnone _]|[Hsome Hall]]; [congruence|].
    rewrite Hsome in Hrun.
    remember (foldl (ghost_mark (board st) b x y) [] (cells_by_column SIZE SIZE))
      as drawn eqn:Hdrawn.
    assert (st' = st ∧ marks = drawn) as [-> ->] by (split; congruence).
    subst drawn. clear Hrun.
    split; [reflexivity|]. intros gy gx. rewrite drawGhost_cell_marks. split.
    + intros [Hin|(yy & xx & Hin & Hocc & -> & Hfall & Hon)]; [inversion Hin|].
      apply Hcells in Hin. exists yy, xx. split; [exact Hin|]. split; [exact Hocc|].
      split; [reflexivity|]. split; [|exact Hon].
      apply stops_at_fall; [by apply Hall|exact Hfall].
    + intros (yy & xx & Hin & Hocc & -> & Hstop & Hon). right. exists yy, xx.
      split; [by apply Hcells|]. split; [exact Hocc|]. split; [reflexivity|].
      split; [|exact Hon]. apply stops_at_fall in Hstop; [exact Hstop|by apply Hall].
  - intros gx gy r. apply ghost_fall_stops.
  - intros gx gy r1 r2 H1 H2.
    apply ghost_fall_stops in H1, H2. rewrite H1 in H2. by inversion H2.
Qed.

(** * hardDrop *)

Lemma hardDrop_bounded (k : nat) (st : State) (y0 x0 : Z) :
  in_block y0 x0 → get (shape (current st)) y0 x0 ≠ 0 →
  HEIGHT - 1 - y0 - cy st ≤ Z.of_nat k →
  ∃ st', (∀ fuel, (S k ≤ fuel)%nat → hardDrop fuel st = Some st') ∧
         checkCollision (board st') (current st') (cx st') (cy st' + 1) = 1 ∧
         st' = with_pos st (cx st) (cy st') ∧ cy st ≤ cy st'.
Proof.
  revert st. induction k as [|k IH]; intros st Hin Hocc Hk.
  - exists st.
    destruct (checkCollision_cases (board st) (current st) (cx st) (cy st + 1))
      as [[Hc _]|[_ Hfree]].
    + split; [|split; [exact Hc|split; [by rewrite with_pos_same|lia]]].
      intros [|fuel] Hf; [lia|]. simpl. rewrite Hc. reflexivity.
    + exfalso. apply (Hfree y0 x0 Hin). split; [exact Hocc|].
      right; right; left. lia.
  - destruct (checkCollision_cases (board st) (current st) (cx st) (cy st + 1))
      as [[Hc _]|[Hc Hfree]].
    + exists st. split; [|split; [exact Hc|split; [by rewrite with_pos_same|lia]]].
      intros [|fuel] Hf; [lia|]. simpl. rewrite Hc. reflexivity.
    + destruct (IH (with_pos st (cx st) (cy st + 1))) as (st' & Hrun & Hstop & Heq & Hle);
        [exact Hin|exact Hocc|simpl; lia|].
      exists st'. split; [|split; [exact Hstop|split]].
      * intros [|fuel] Hf; [lia|]. simpl. rewrite Hc. simpl. apply Hrun. lia.
      * rewrite Heq. reflexivity.
      * simpl in Hle. lia.
Qed.

(** C10: for every piece with at least one occupied cell in its 3x3 shape
    matrix and from every position, hardDrop terminates (some occupied
    cell's row reaches HEIGHT at the latest after finitely many steps); at
    the position it ends on, checkCollision(piece, cx, cy + 1) holds, and
    only cy has changed: the board, its colours, the piece and the column
    cx are the ones hardDrop started with. *)
Theorem hardDrop_terminates (st : State) :
  (∃ y x, in_block y x ∧ get (shape (current st)) y x ≠ 0) →
  ∃ n st',
    (∀ fuel, (n ≤ fuel)%nat → hardDrop fuel st = Some st') ∧
    checkCollision (board st') (current st') (cx st') (cy st' + 1) = 1 ∧
    st' = with_pos st (cx st) (cy st') ∧
    board st' = board st ∧ board_color st' = board_color st ∧
    current st' = current st ∧ cx st' = cx st ∧ cy st ≤ cy st'.
Proof.
  intros (y0 & x0 & Hin & Hocc).
  destruct (hardDrop_bounded (Z.to_nat (HEIGHT - 1 - y0 - cy st)) st y0 x0)
    as (st' & Hrun & Hstop & Heq & Hle); [exact Hin|exact Hocc|lia|].
  exists (S (Z.to_nat (HEIGHT - 1 - y0 - cy st))), st'.
  split; [exact Hrun|]. split; [exact Hstop|]. split; [exact Heq|].
  rewrite Heq. repeat split; try reflexivity. simpl. exact Hle.
Qed.

Lemma hardDrop_terminates_witness :
  let st := session (fill [(19, 4, 1)]) (domino_up 1 2) 3 0 in
  ∃ n st',
    (∀ fuel, (n ≤ fuel)%nat → hardDrop fuel st = Some st') ∧
    checkCollision (board st') (current st') (cx st') (cy st' + 1) = 1 ∧
    st' = with_pos st (cx st) (cy st') ∧
    board st' = board st ∧ board_color st' = board_color st ∧
    current st' = current st ∧ cx st' = cx st ∧ cy st ≤ cy st'.
Proof.
  apply hardDrop_terminates. exists 0, 1. repeat split; try lia. discriminate.
Defined.

(** * Cells *)

Lemma rd_put_eq g c v : is_board g → on_board c → rd (put g c.1 c.2 v) c = v.
Proof. intros Hg [Hy Hx]. by apply (get_put_eq HEIGHT WIDTH). Qed.

Lemma rd_put_ne g c d v : c ≠ d → rd (put g c.1 c.2 v) d = rd g d.
Proof.
  intros Hne. apply get_put_ne. destruct c, d. simpl. exact Hne.
Qed.

Lemma rd_zeros h w c : rd (zeros h w) c = 0.
Proof. apply get_zeros. Qed.

Lemma adjacent_sym c d : adjacent c d → adjacent d c.
Proof.
  destruct c as [cy_ cx_], d as [dy dx]. unfold adjacent. simpl.
  intros [H|[H|[H|H]]]; inversion H; subst.
  - right; left. f_equal; lia.
  - left. f_equal; lia.
  - right; right; right. f_equal; lia.
  - right; right; left. f_equal; lia.
Qed.

Section Linked.
Context (bd bc : grid) (k : Z).

Lemma linked_stones c d : linked bd bc k c d → stone bd bc k c ∧ stone bd bc k d.
Proof. induction 1 as [c Hc|c d e _ [IH _] _ He]; by split. Qed.

Lemma linked_trans c d e :
  linked bd bc k c d → linked bd bc k d e → linked bd bc k c e.
Proof.
  intros Hcd Hde. induction Hde as [d _|d e f _ IH Hadj Hf]; [exact Hcd|].
  eapply linked_step; [by apply IH|exact Hadj|exact Hf].
Qed.

Lemma linked_sym c d : linked bd bc k c d → linked bd bc k d c.
Proof.
  induction 1 as [c Hc|c d e Hcd IH Hadj He]; [by apply linked_refl|].
  apply linked_trans with d; [|exact IH].
  eapply linked_step; [by apply linked_refl|by apply adjacent_sym|].
  by apply linked_stones in Hcd as [_ Hd].
Qed.

Lemma linked_first c d e :
  stone bd bc k c → adjacent c d → linked bd bc k d e → linked bd bc k c e.
Proof.
  intros Hc Hadj Hde. apply linked_trans with d; [|exact Hde].
  eapply linked_step; [by apply linked_refl|exact Hadj|].
  by apply linked_stones in Hde as [Hd _].
Qed.

End Linked.

(** two regions that share a cell have the same cells, and the same size *)
Lemma region_cells bd bc R c :
  region bd bc R → c ∈ R →
  ∀ d, d ∈ R ↔ linked bd bc (rd bc c) c d.
Proof.
  intros (Hnd & Hne & k & Hst & Hconn & Hmax) Hc d.
  assert (rd bc c = k) as -> by (by destruct (Hst c Hc) as (_ & _ & ?)).
  split; [by apply Hconn|].
  induction 1 as [c' Hc'|c' d e _ IH Hadj He]; [exact Hc|].
  apply (Hmax d e); [by apply IH|exact Hadj|exact He].
Qed.

Lemma region_same_size bd bc R1 R2 c :
  region bd bc R1 → region bd bc R2 → c ∈ R1 → c ∈ R2 → R1 ≡ₚ R2.
Proof.
  intros H1 H2 Hc1 Hc2. apply NoDup_Permutation.
  - by destruct H1.
  - by destruct H2.
  - intros d. rewrite (region_cells bd bc R1 c H1 Hc1 d).
    by rewrite (region_cells bd bc R2 c H2 Hc2 d).
Qed.

(** * The flood fill *)

Section Flood.
Context (bd bc : grid) (k : Z).

Lemma grown_nil vis : grown bd bc k vis vis [].
Proof.
  split; [constructor|]. split; [intros c Hc; inversion Hc|].
  intros c. split; [by left|]. intros [H|H]; [exact H|inversion H].
Qed.

Lemma grown_app v0 v1 v2 n1 n2 :
  grown bd bc k v0 v1 n1 → grown bd bc k v1 v2 n2 → grown bd bc k v0 v2 (n1 ++ n2).
Proof.
  intros (Hnd1 & Hnew1 & Hiff1) (Hnd2 & Hnew2 & Hiff2). split; [|split].
  - apply list.NoDup_app. split; [exact Hnd1|]. split; [|exact Hnd2].
    intros c Hc1 Hc2. destruct (Hnew2 c Hc2) as [Hz _].
    apply (proj2 (Hiff1 c)); [by right|exact Hz].
  - intros c Hc. apply elem_of_app in Hc as [Hc|Hc]; [by apply Hnew1|].
    destruct (Hnew2 c Hc) as [Hz Hst]. split; [|exact Hst].
    destruct (decide (rd v0 c = 0)) as [|Hne]; [assumption|].
    exfalso. apply (proj2 (Hiff1 c)); [by left|exact Hz].
  - intros c. rewrite Hiff2, Hiff1, elem_of_app. tauto.
Qed.

Lemma grown_put vis c :
  is_board vis → stone bd bc k c → rd vis c = 0 →
  grown bd bc k vis (put vis c.1 c.2 1) [c].
Proof.
  intros Hvis Hst Hz. split; [|split].
  - apply NoDup_singleton.
  - intros d Hd. apply list_elem_of_singleton in Hd as ->. by split.
  - intros d. rewrite list_elem_of_singleton.
    destruct (decide (c = d)) as [<-|Hne].
    + rewrite rd_put_eq; [|exact Hvis|by destruct Hst]. split; [by right|discriminate].
    + rewrite rd_put_ne by exact Hne. split; [by left|].
      intros [H|H]; [exact H|]. by subst.
Qed.

Lemma closed_grown v1 v2 n new : closed bd bc k v1 new → grown bd bc k v1 v2 n → closed bd bc k v2 new.
Proof.
  intros Hcl (_ & _ & Hiff) c d Hc Hadj Hd.
  apply Hiff. left. by apply (Hcl c d).
Qed.

Lemma closed_app vis n1 n2 : closed bd bc k vis n1 → closed bd bc k vis n2 → closed bd bc k vis (n1 ++ n2).
Proof.
  intros H1 H2 c d Hc. apply elem_of_app in Hc as [Hc|Hc]; [by apply H1|by apply H2].
Qed.

Lemma dfs_guard_stone y x vis :
  (y <? 0) || (y >=? HEIGHT) || (x <? 0) || (x >=? WIDTH) = false →
  negb (truthy (get bd y x)) || negb (get bc y x =? k) || truthy (get vis y x) = false →
  stone bd bc k (y, x) ∧ rd vis (y, x) = 0.
Proof.
  intros Hin Hok.
  rewrite !orb_false_iff in Hin. destruct Hin as [[[H1 H2] H3] H4].
  rewrite !orb_false_iff in Hok. destruct Hok as [[H5 H6] H7].
  apply negb_false_iff, truthy_true in H5. apply negb_false_iff, Z.eqb_eq in H6.
  apply truthy_false in H7.
  split; [|exact H7]. split; [|by split].
  split; simpl; lia.
Qed.

(** what a call of [dfs] that returns has done: it has marked and stored,
    once each, cells [new] that are linked to the start cell; every stone
    next to one of them is marked; the start cell, if a stone, is marked *)
Lemma dfs_spec fuel y x vis coords r vis' coords' :
  is_board vis →
  dfs fuel bd bc y x k (vis, coords) = Some (r, (vis', coords')) →
  is_board vis' ∧
  ∃ new, coords' = coords ++ new ∧ grown bd bc k vis vis' new ∧ closed bd bc k vis' new ∧
         (∀ c, c ∈ new → linked bd bc k (y, x) c) ∧
         (stone bd bc k (y, x) → rd vis' (y, x) ≠ 0).
Proof.
  revert y x vis coords r vis' coords'.
  induction fuel as [|fuel IH]; intros y x vis coords r vis' coords' Hvis Hrun;
    [discriminate|].
  simpl in Hrun.
  destruct ((y <? 0) || (y >=? HEIGHT) || (x <? 0) || (x >=? WIDTH)) eqn:Hout.
  { inversion Hrun; subst. split; [exact Hvis|]. exists [].
    split; [by rewrite app_nil_r|]. split; [apply grown_nil|].
    split; [intros c d Hc; inversion Hc|]. split; [intros c Hc; inversion Hc|].
    intros [[Hy Hx] _]. simpl in *. rewrite !orb_true_iff in Hout. lia. }
  destruct (negb (truthy (get bd y x)) || negb (get bc y x =? k)
            || truthy (get vis y x)) eqn:Hskip.
  { inversion Hrun; subst. split; [exact Hvis|]. exists [].
    split; [by rewrite app_nil_r|]. split; [apply grown_nil|].
    split; [intros c d Hc; inversion Hc|]. split; [intros c Hc; inversion Hc|].
    intros (_ & Hocc & Hcol). unfold rd in *. simpl in *.
    rewrite !orb_true_iff in Hskip. destruct Hskip as [[H|H]|H].
    - apply negb_true_iff, truthy_false in H. contradiction.
    - apply negb_true_iff, Z.eqb_neq in H. contradiction.
    - by apply truthy_true in H. }
  destruct (dfs_guard_stone y x vis Hout Hskip) as [Hst Hz].
  pose proof (grown_put vis (y, x) Hvis Hst Hz) as Hg0. simpl in Hg0.
  assert (is_board (put vis y x 1)) as Hvis0 by (by apply dims_put).
  destruct (dfs fuel bd bc (y + 1) x k (put vis y x 1, coords ++ [(y, x)]))
    as [[r1 [v1 c1]]|] eqn:E1; simpl in Hrun; [|discriminate].
  destruct (dfs fuel bd bc (y - 1) x k (v1, c1))
    as [[r2 [v2 c2]]|] eqn:E2; simpl in Hrun; [|discriminate].
  destruct (dfs fuel bd bc y (x + 1) k (v2, c2))
    as [[r3 [v3 c3]]|] eqn:E3; simpl in Hrun; [|discriminate].
  destruct (dfs fuel bd bc y (x - 1) k (v3, c3))
    as [[r4 [v4 c4]]|] eqn:E4; simpl in Hrun; [|discriminate].
  inversion Hrun; subst r vis' coords'. clear Hrun.
  apply IH in E1 as (Hvis1 & n1 & Hc1 & Hg1 & Hcl1 & Hl1 & Hs1); [|exact Hvis0].
  apply IH in E2 as (Hvis2 & n2 & Hc2 & Hg2 & Hcl2 & Hl2 & Hs2); [|exact Hvis1].
  apply IH in E3 as (Hvis3 & n3 & Hc3 & Hg3 & Hcl3 & Hl3 & Hs3); [|exact Hvis2].
  apply IH in E4 as (Hvis4 & n4 & Hc4 & Hg4 & Hcl4 & Hl4 & Hs4); [|exact Hvis3].
  split; [exact Hvis4|].
  exists ([(y, x)] ++ n1 ++ n2 ++ n3 ++ n4).
  pose proof (grown_app _ _ _ _ _ Hg3 Hg4) as Hg34.
  pose proof (grown_app _ _ _ _ _ Hg2 Hg34) as Hg24.
  pose proof (grown_app _ _ _ _ _ Hg1 Hg24) as Hg14.
  pose proof (grown_app _ _ _ _ _ Hg0 Hg14) as Hg04.
  split; [subst; by rewrite <- !app_assoc|]. split; [exact Hg04|].
  assert (rd v4 (y, x) ≠ 0) as Hstart.
  { apply (proj2 (proj2 Hg04)). right. apply elem_of_app. left. by left. }
  split; [|split; [|intros _; exact Hstart]].
  - (* closed *)
    apply closed_app; [|apply closed_app; [|apply closed_app; [|apply closed_app]]].
    + intros c d Hc Hadj Hd. apply list_elem_of_singleton in Hc as ->.
      destruct Hadj as [-> | [-> | [-> | ->]]]; simpl in *.
      * apply (proj2 (proj2 Hg24)). left. by apply Hs1.
      * apply (proj2 (proj2 Hg34)). left. by apply Hs2.
      * apply (proj2 (proj2 Hg4)). left. by apply Hs3.
      * by apply Hs4.
    + eapply closed_grown; [exact Hcl1|exact Hg24].
    + eapply closed_grown; [exact Hcl2|exact Hg34].
    + eapply closed_grown; [exact Hcl3|exact Hg4].
    + exact Hcl4.
  - (* linked *)
    intros c Hc. rewrite !elem_of_app in Hc.
    destruct Hc as [Hc|[Hc|[Hc|[Hc|Hc]]]].
    + apply list_elem_of_singleton in Hc as ->. by apply linked_refl.
    + apply linked_first with (y + 1, x); [exact Hst|by left|by apply Hl1].
    + apply linked_first with (y - 1, x); [exact Hst|by right; left|by apply Hl2].
    + apply linked_first with (y, x + 1); [exact Hst|by right; right; left|by apply Hl3].
    + apply linked_first with (y, x - 1); [exact Hst|by right; right; right|by apply Hl4].
Qed.

End Flood.

(** * The flood fill returns *)

Lemma filter_length_le {A} (P Q : A → Prop)
    `{!∀ x, Decision (P x)} `{!∀ x, Decision (Q x)} (l : list A) :
  (∀ x, x ∈ l → Q x → P x) →
  (length (filter Q l) ≤ length (filter P l))%nat.
Proof.
  induction l as [|a l IH]; intros Himp; [reflexivity|].
  rewrite !filter_cons.
  assert (length (filter Q l) ≤ length (filter P l))%nat as Hle.
  { apply IH. intros x Hx. apply Himp. by right. }
  destruct (decide (Q a)) as [Hq|Hq]; destruct (decide (P a)) as [Hp|Hp]; simpl; try lia.
  exfalso. apply Hp, Himp; [by left|exact Hq].
Qed.

Lemma filter_length_lt {A} (P Q : A → Prop)
    `{!∀ x, Decision (P x)} `{!∀ x, Decision (Q x)} (l : list A) (a : A) :
  (∀ x, x ∈ l → Q x → P x) → a ∈ l → P a → ¬ Q a →
  (length (filter Q l) < length (filter P l))%nat.
Proof.
  induction l as [|b l IH]; intros Himp Hin Hp Hq; [inversion Hin|].
  rewrite !filter_cons.
  assert (length (filter Q l) ≤ length (filter P l))%nat as Hle.
  { apply filter_length_le. intros x Hx. apply Himp. by right. }
  apply elem_of_cons in Hin as [<-|Hin].
  - destruct (decide (Q a)) as [?|_]; [contradiction|].
    destruct (decide (P a)) as [_|?]; [|contradiction]. simpl. lia.
  - assert (length (filter Q l) < length (filter P l))%nat as Hlt.
    { apply IH; try assumption. intros x Hx. apply Himp. by right. }
    destruct (decide (Q b)) as [Hqb|Hqb]; destruct (decide (P b)) as [Hpb|Hpb];
      simpl; try lia.
    exfalso. apply Hpb, Himp; [by left|exact Hqb].
Qed.

Lemma unmarked_bound vis : (length (unmarked vis) ≤ Z.to_nat (HEIGHT * WIDTH))%nat.
Proof.
  unfold unmarked. etransitivity; [apply length_filter|]. reflexivity.
Qed.

Section Termination.
Context (bd bc : grid) (k : Z).

Lemma grown_unmarked vis vis' new :
  grown bd bc k vis vis' new → (length (unmarked vis') ≤ length (unmarked vis))%nat.
Proof.
  intros (_ & _ & Hiff). apply filter_length_le. intros c _ Hz.
  destruct (decide (rd vis c = 0)) as [|Hne]; [assumption|].
  exfalso. apply (proj2 (Hiff c)); [by left|exact Hz].
Qed.

Lemma put_unmarked vis c :
  is_board vis → on_board c → rd vis c = 0 →
  (length (unmarked (put vis c.1 c.2 1)) < length (unmarked vis))%nat.
Proof.
  intros Hvis Hin Hz. apply filter_length_lt with c.
  - intros d _ Hd. destruct (decide (c = d)) as [<-|Hne].
    + exact Hz.
    + by rewrite rd_put_ne in Hd.
  - destruct c as [y x]. by apply elem_of_cells.
  - exact Hz.
  - rewrite rd_put_eq by assumption. discriminate.
Qed.

(** a call of [dfs] returns when its fuel exceeds the number of unmarked cells *)
Lemma dfs_returns fuel y x vis coords :
  is_board vis → (length (unmarked vis) < fuel)%nat →
  ∃ r vis' coords', dfs fuel bd bc y x k (vis, coords) = Some (r, (vis', coords')).
Proof.
  revert y x vis coords.
  induction fuel as [|fuel IH]; intros y x vis coords Hvis Hfuel; [lia|].
  simpl.
  destruct ((y <? 0) || (y >=? HEIGHT) || (x <? 0) || (x >=? WIDTH)) eqn:Hout;
    [by eauto|].
  destruct (negb (truthy (get bd y x)) || negb (get bc y x =? k)
            || truthy (get vis y x)) eqn:Hskip; [by eauto|].
  destruct (dfs_guard_stone bd bc k y x vis Hout Hskip) as [Hst Hz].
  assert (is_board (put vis y x 1)) as Hvis0 by (by apply dims_put).
  pose proof (put_unmarked vis (y, x) Hvis (proj1 Hst) Hz) as Hlt. simpl in Hlt.
  destruct (IH (y + 1) x (put vis y x 1) (coords ++ [(y, x)])) as (r1 & v1 & c1 & E1);
    [exact Hvis0|lia|].
  rewrite E1. simpl.
  apply dfs_spec in E1 as (Hvis1 & n1 & _ & Hg1 & _); [|exact Hvis0].
  apply grown_unmarked in Hg1.
  destruct (IH (y - 1) x v1 c1) as (r2 & v2 & c2 & E2); [exact Hvis1|lia|].
  rewrite E2. simpl.
  apply dfs_spec in E2 as (Hvis2 & n2 & _ & Hg2 & _); [|exact Hvis1].
  apply grown_unmarked in Hg2.
  destruct (IH y (x + 1) v2 c2) as (r3 & v3 & c3 & E3); [exact Hvis2|lia|].
  rewrite E3. simpl.
  apply dfs_spec in E3 as (Hvis3 & n3 & _ & Hg3 & _); [|exact Hvis2].
  apply grown_unmarked in Hg3.
  destruct (IH y (x - 1) v3 c3) as (r4 & v4 & c4 & E4); [exact Hvis3|lia|].
  rewrite E4. simpl. eauto.
Qed.

Lemma dfs_fuel_enough y x vis coords :
  is_board vis →
  ∃ r vis' coords', dfs dfs_fuel bd bc y x k (vis, coords) = Some (r, (vis', coords')).
Proof.
  intros Hvis. apply dfs_returns; [exact Hvis|].
  pose proof (unmarked_bound vis). unfold dfs_fuel. lia.
Qed.

End Termination.

(* the proofs below never unfold the concrete amount of fuel *)
Opaque dfs_fuel.

(** * The clear pass: what it leaves alone *)

Lemma remove_cells_spec coords bd bc :
  is_board bd → is_board bc → (∀ c, c ∈ coords → on_board c) →
  is_board (remove_cells coords bd bc).1 ∧ is_board (remove_cells coords bd bc).2 ∧
  ∀ c, (c ∈ coords → rd (remove_cells coords bd bc).1 c = 0 ∧
                     rd (remove_cells coords bd bc).2 c = 0) ∧
       (c ∉ coords → rd (remove_cells coords bd bc).1 c = rd bd c ∧
                     rd (remove_cells coords bd bc).2 c = rd bc c).
Proof.
  revert bd bc. induction coords as [|[y x] rest IH]; intros bd bc Hbd Hbc Hin.
  - split; [exact Hbd|]. split; [exact Hbc|]. intros c. split; [inversion 1|done].
  - unfold remove_cells. simpl. fold (remove_cells rest (put bd y x 0) (put bc y x 0)).
    destruct (IH (put bd y x 0) (put bc y x 0)) as (Hbd' & Hbc' & Hrd).
    { by apply dims_put. } { by apply dims_put. }
    { intros c Hc. apply Hin. by right. }
    split; [exact Hbd'|]. split; [exact Hbc'|].
    intros c. destruct (Hrd c) as [Hyes Hno]. split.
    + intros Hc. destruct (decide (c ∈ rest)) as [Hr|Hr]; [by apply Hyes|].
      apply elem_of_cons in Hc as [->|Hc]; [|contradiction].
      destruct (Hno Hr) as [-> ->].
      assert (on_board (y, x)) as Hon by (apply Hin; by left).
      split; by apply (rd_put_eq _ (y, x)).
    + intros Hc. apply not_elem_of_cons in Hc as [Hne Hr].
      destruct (Hno Hr) as [-> ->].
      split; by apply (rd_put_ne _ (y, x)).
Qed.

(** one step of the scan returns, and writes nothing but the boards, the
    marks and the score *)
Lemma clearGroups_cell_returns m st total groups c :
  is_board (visited st) →
  ∃ st' total' groups',
    clearGroups_cell m (st, total, groups) c = Some (st', total', groups') ∧
    is_board (visited st') ∧ untouched st' = untouched st ∧
    total ≤ total' ∧ groups ≤ groups' ≤ groups + 1.
Proof.
  intros Hvis. destruct c as [y x]. unfold clearGroups_cell.
  destruct (truthy (get (board st) y x) && negb (truthy (get (visited st) y x))).
  - destruct (dfs_fuel_enough (board st) (board_color st) (get (board_color st) y x)
                y x (visited st) [] Hvis) as (r & vis' & coords' & Hrun).
    rewrite Hrun. simpl.
    apply dfs_spec in Hrun as [Hvis' _]; [|exact Hvis].
    destruct (Z.of_nat (length coords') >=? 4) eqn:Hcnt.
    + destruct (remove_cells coords' (board st) (board_color st)) as [bd' bc'].
      do 3 eexists. split; [reflexivity|]. simpl.
      split; [exact Hvis'|]. split; [reflexivity|]. lia.
    + do 3 eexists. split; [reflexivity|]. simpl.
      split; [exact Hvis'|]. split; [reflexivity|]. lia.
  - do 3 eexists. split; [reflexivity|].
    split; [exact Hvis|]. split; [reflexivity|]. lia.
Qed.

Lemma clearGroups_scan_returns m todo st total groups :
  is_board (visited st) →
  ∃ st' total' groups',
    clearGroups_scan m todo (st, total, groups) = Some (st', total', groups') ∧
    is_board (visited st') ∧ untouched st' = untouched st ∧
    total ≤ total' ∧ groups ≤ groups'.
Proof.
  revert st total groups.
  induction todo as [|c rest IH]; intros st total groups Hvis.
  - do 3 eexists. split; [reflexivity|]. split; [exact Hvis|].
    split; [reflexivity|]. lia.
  - destruct (clearGroups_cell_returns m st total groups c Hvis)
      as (st1 & t1 & g1 & Hrun1 & Hvis1 & Hsame1 & Ht1 & Hg1).
    destruct (IH st1 t1 g1 Hvis1) as (st2 & t2 & g2 & Hrun2 & Hvis2 & Hsame2 & Ht2 & Hg2).
    exists st2, t2, g2. split.
    + change (clearGroups_scan m (c :: rest) (st, total, groups))
        with (clearGroups_cell m (st, total, groups) c ≫= clearGroups_scan m rest).
      rewrite Hrun1. exact Hrun2.
    + split; [exact Hvis2|]. split; [by rewrite Hsame2|]. lia.
Qed.

(** * Levelling *)

(** the level after a pass, against the counter clears before and after it *)
Lemma clearGroups_finish_level (m : Z) (st : State) :
  0 ≤ clears st →
  ∃ total st',
    clearGroups m st = Some (total, st') ∧
    clears st ≤ clears st' ∧
    (level st' = level st ∨ level st' = level st + 1) ∧
    (level st' = level st + 1 ↔
       clears st < clears st' ∧ 5 * level st ≤ clears st') ∧
    (clears st < 5 * level st ≤ clears st' → level st' = level st + 1) ∧
    (clears st' < 5 * level st → level st' = level st).
Proof.
  intros Hclears. unfold clearGroups.
  destruct (clearGroups_scan_returns m (cells HEIGHT WIDTH)
              (with_visited st (zeros HEIGHT WIDTH)) 0 0)
    as (st1 & total & groups & Hrun & _ & Hsame & _ & Hgroups).
  { apply dims_zeros. }
  rewrite Hrun. simpl. exists total, (clearGroups_finish st1 groups).
  split; [reflexivity|].
  assert (level st1 = level st ∧ clears st1 = clears st) as [Hl Hc].
  { unfold untouched in Hsame. simpl in Hsame. by inversion Hsame. }
  unfold clearGroups_finish.
  destruct (groups >? 0) eqn:Hg.
  - apply Z.gtb_lt in Hg.
    assert ((Z.quot (clears st1 + groups) 5 >=? level st1) = true ↔
            5 * level st ≤ clears st + groups) as Hq.
    { rewrite Hl, Hc, Z.geb_le.
      rewrite Z.quot_div_nonneg by lia.
      split; intros H.
      - pose proof (Z.mul_div_le (clears st + groups) 5 ltac:(lia)). lia.
      - apply Z.div_le_lower_bound; lia. }
    destruct (Z.quot (clears st1 + groups) 5 >=? level st1) eqn:Hq'; simpl.
    + assert (5 * level st ≤ clears st + groups) by (by apply Hq).
      rewrite Hl, Hc. repeat split; try lia.
    + assert (¬ 5 * level st ≤ clears st + groups) as Hn.
      { intros H. apply Hq in H. discriminate. }
      rewrite Hl, Hc. repeat split; try lia.
  - rewrite Z.gtb_ltb in Hg. apply Z.ltb_ge in Hg.
    assert (groups = 0) as -> by lia.
    rewrite Hl, Hc. repeat split; try lia.
Qed.

(** ten groups removed in one pass take clears from 0 to 10, twice the
    threshold of level 1, and the level from 1 to 2 only *)
Lemma clearGroups_ten_groups :
  ∃ st', clearGroups 2 ten_groups = Some (40, st') ∧
         clears ten_groups = 0 ∧ level ten_groups = 1 ∧
         clears st' = 10 ∧ level st' = 2 ∧ score st' = 4000.
Proof. eexists. split; [vm_compute; reflexivity|]. vm_compute. done. Qed.

(** * The clear pass: the groups it removes *)

Lemma sum_with_snoc f gs g : sum_with f (gs ++ [g]) = sum_with f gs + f g.
Proof.
  unfold sum_with. induction gs as [|h gs IH]; simpl; [lia|]. rewrite IH. lia.
Qed.

Lemma scan_inv_start st m :
  is_board (board st) → is_board (board_color st) →
  scan_inv (board st) (board_color st) (score st) m []
           (with_visited st (zeros HEIGHT WIDTH)) 0 0.
Proof.
  intros Hbd Hbc. split; simpl; try done.
  - apply dims_zeros.
  - intros c. by left.
  - intros c Hc. by rewrite rd_zeros in Hc.
  - intros c d Hc. by rewrite rd_zeros in Hc.
  - intros R c _ _ Hc. by rewrite rd_zeros in Hc.
  - intros g Hg. inversion Hg.
  - intros R c _ _ _ Hc. by rewrite rd_zeros in Hc.
  - constructor.
Qed.

(** the flood fill started on an unmarked occupied cell stores exactly the
    cells of that cell's region on the board the pass started with *)
Lemma flood_region bd0 bc0 s0 m gs st total groups c0 r vis' coords' :
  scan_inv bd0 bc0 s0 m gs st total groups →
  on_board c0 → rd (board st) c0 ≠ 0 → rd (visited st) c0 = 0 →
  dfs dfs_fuel (board st) (board_color st) c0.1 c0.2 (rd (board_color st) c0)
      (visited st, []) = Some (r, (vis', coords')) →
  is_board vis' ∧ NoDup coords' ∧
  (∀ c, c ∈ coords' → rd (visited st) c = 0) ∧
  (∀ c, rd vis' c ≠ 0 ↔ rd (visited st) c ≠ 0 ∨ c ∈ coords') ∧
  c0 ∈ coords' ∧
  (∀ c, c ∈ coords' → stone bd0 bc0 (rd bc0 c0) c) ∧
  (∀ c d, c ∈ coords' → d ∈ coords' → linked bd0 bc0 (rd bc0 c0) c d) ∧
  (∀ c d, c ∈ coords' → adjacent c d → stone bd0 bc0 (rd bc0 c0) d → d ∈ coords').
Proof.
  intros Hinv Hon Hocc Hz Hrun.
  destruct (inv_fresh _ _ _ _ _ _ _ _ Hinv c0 Hz) as [Hb0 Hc0].
  set (k := rd (board_color st) c0) in *.
  assert (k = rd bc0 c0) as Hk by exact Hc0. rewrite <- Hk.
  apply dfs_spec in Hrun as (Hvis' & new & Hcoords & (Hnd & Hnew & Hiff) & Hcl & Hl & Hs);
    [|by destruct Hinv].
  simpl in Hcoords. subst coords'.
  assert (stone (board st) (board_color st) k c0) as Hst0 by (by split).
  assert (∀ d, stone (board st) (board_color st) k d → stone bd0 bc0 k d) as Hto0.
  { intros d (Hd1 & Hd2 & Hd3). split; [exact Hd1|].
    destruct (inv_cells _ _ _ _ _ _ _ _ Hinv d) as [[<- <-]|[Hzero _]]; [by split|].
    contradiction. }
  assert (∀ c d, linked (board st) (board_color st) k c d → linked bd0 bc0 k c d)
    as Hlto0.
  { intros c d. induction 1 as [c Hc|c d e _ IH Hadj He].
    - apply linked_refl. by apply Hto0.
    - eapply linked_step; [exact IH|exact Hadj|by apply Hto0]. }
  assert (c0 ∈ new) as Hc0new.
  { destruct c0 as [y x]. simpl in *.
    destruct (proj1 (Hiff (y, x)) (Hs Hst0)) as [H|H]; [contradiction|exact H]. }
  split; [exact Hvis'|]. split; [exact Hnd|].
  split; [intros c Hc; by destruct (Hnew c Hc)|]. split; [exact Hiff|].
  split; [exact Hc0new|].
  split; [intros c Hc; apply Hto0; by destruct (Hnew c Hc)|].
  assert (∀ c, c ∈ new → linked bd0 bc0 k c0 c) as Hl0.
  { intros c Hc. apply Hlto0. destruct c0. by apply Hl. }
  split.
  - intros c d Hc Hd. apply linked_trans with c0; [|by apply Hl0].
    apply linked_sym. by apply Hl0.
  - intros c d Hc Hadj Hd.
    destruct (decide (rd (visited st) d = 0)) as [Hdz|Hdn].
    + assert (stone (board st) (board_color st) k d) as Hdcur.
      { destruct Hd as (Hd1 & Hd2 & Hd3).
        destruct (inv_fresh _ _ _ _ _ _ _ _ Hinv d Hdz) as [Hdb Hdc].
        split; [exact Hd1|]. split; congruence. }
      destruct (proj1 (Hiff d) (Hcl c d Hc Hadj Hdcur)) as [H|H]; [contradiction|exact H].
    + exfalso. destruct (Hnew c Hc) as [Hcz Hcst]. apply Hto0 in Hcst.
      apply (inv_closed _ _ _ _ _ _ _ _ Hinv d c Hdn); [by apply adjacent_sym| |exact Hcz].
      destruct Hd as (_ & _ & ->). exact Hcst.
Qed.

Lemma scan_inv_step bd0 bc0 s0 m gs st total groups c st' total' groups' :
  on_board c →
  scan_inv bd0 bc0 s0 m gs st total groups →
  clearGroups_cell m (st, total, groups) c = Some (st', total', groups') →
  ∃ gs', scan_inv bd0 bc0 s0 m gs' st' total' groups' ∧
         (rd bd0 c ≠ 0 → rd (visited st') c ≠ 0) ∧
         (∀ d, rd (visited st) d ≠ 0 → rd (visited st') d ≠ 0).
Proof.
  intros Hon Hinv Hrun. destruct c as [y x]. unfold clearGroups_cell in Hrun.
  destruct (truthy (get (board st) y x) && negb (truthy (get (visited st) y x)))
    eqn:Hguard.
  2:{ inversion Hrun; subst. exists gs. split; [exact Hinv|]. split; [|done].
      intros Hocc. apply andb_false_iff in Hguard as [Hg|Hg].
      - apply truthy_false in Hg.
        destruct (decide (rd (visited st') (y, x) = 0)) as [Hz|Hn]; [|exact Hn].
        destruct (inv_fresh _ _ _ _ _ _ _ _ Hinv (y, x) Hz) as [Hb _].
        exfalso. apply Hocc. rewrite <- Hb. exact Hg.
      - apply negb_false_iff, truthy_true in Hg. exact Hg. }
  apply andb_true_iff in Hguard as [Hocc Hz].
  apply truthy_true in Hocc. apply negb_true_iff, truthy_false in Hz.
  destruct (dfs dfs_fuel (board st) (board_color st) y x (get (board_color st) y x)
              (visited st, [])) as [[r [vis' coords']]|] eqn:Hdfs; [|discriminate].
  cbn [mbind option_bind] in Hrun.
  destruct (flood_region bd0 bc0 s0 m gs st total groups (y, x) r vis' coords'
              Hinv Hon Hocc Hz Hdfs)
    as (Hvis' & Hnd & Hnewz & Hiff & Hc0 & Hstones & Hlinked & Hmax).
  set (k := rd bc0 (y, x)) in *.
  assert (region bd0 bc0 coords') as Hregion.
  { split; [exact Hnd|]. split; [intros ->; inversion Hc0|]. by exists k. }
  assert (∀ d, rd (visited st) d ≠ 0 → rd vis' d ≠ 0) as Hmono.
  { intros d Hd. apply Hiff. by left. }
  assert (∀ d, rd vis' d ≠ 0 → on_board d ∧ rd bd0 d ≠ 0) as Hmarked.
  { intros d Hd. apply Hiff in Hd as [Hd|Hd].
    - by apply (inv_marked _ _ _ _ _ _ _ _ Hinv).
    - destruct (Hstones d Hd) as (H1 & H2 & _). by split. }
  assert (∀ c d, rd vis' c ≠ 0 → adjacent c d → stone bd0 bc0 (rd bc0 c) d →
                 rd vis' d ≠ 0) as Hclosed.
  { intros c d Hc Hadj Hd. apply Hiff in Hc as [Hc|Hc].
    - apply Hmono. by apply (inv_closed _ _ _ _ _ _ _ _ Hinv c d).
    - apply Hiff. right. apply (Hmax c d Hc Hadj).
      destruct (Hstones c Hc) as (_ & _ & <-). exact Hd. }
  assert (∀ R c, region bd0 bc0 R → c ∈ R → c ∈ coords' → size R = size coords')
    as Hsize.
  { intros R c HR HcR Hc. unfold size. f_equal. apply Permutation_length.
    by apply (region_same_size bd0 bc0 R coords' c). }
  assert (∀ c, c ∈ mjoin gs → c ∉ coords') as Hapart.
  { intros c Hc Hc'. apply list_elem_of_join in Hc as (g & Hcg & Hg).
    destruct (inv_groups _ _ _ _ _ _ _ _ Hinv g Hg) as (_ & _ & Hm).
    apply (Hm c Hcg). by apply Hnewz. }
  change (board (with_visited st vis')) with (board st) in Hrun.
  change (board_color (with_visited st vis')) with (board_color st) in Hrun.
  destruct (Z.of_nat (length coords') >=? 4) eqn:Hcnt.
  - apply Z.geb_le in Hcnt.
    destruct (remove_cells_spec coords' (board st) (board_color st))
      as (Hbd' & Hbc' & Hrd);
      [by destruct Hinv|by destruct Hinv|intros d Hd; by destruct (Hstones d Hd)|].
    destruct (remove_cells coords' (board st) (board_color st)) as [bd' bc'].
    simpl in Hbd', Hbc', Hrd.
    inversion Hrun; subst st' total' groups'. clear Hrun.
    exists (gs ++ [coords']). split; [|split; [|exact Hmono]].
    2:{ intros _. apply Hiff. by right. }
    split; simpl.
    + exact Hbd'.
    + exact Hbc'.
    + exact Hvis'.
    + intros c Hc.
      assert (rd (visited st) c = 0) as Hcz.
      { destruct (decide (rd (visited st) c = 0)) as [|Hn]; [assumption|].
        by apply Hmono in Hn. }
      assert (c ∉ coords') as Hcn.
      { intros Hin. apply (proj2 (Hiff c)); [by right|exact Hc]. }
      destruct (proj2 (Hrd c) Hcn) as [-> ->].
      by apply (inv_fresh _ _ _ _ _ _ _ _ Hinv).
    + intros c. destruct (decide (c ∈ coords')) as [Hin|Hout].
      * right. by apply Hrd.
      * destruct (proj2 (Hrd c) Hout) as [-> ->].
        by apply (inv_cells _ _ _ _ _ _ _ _ Hinv).
    + exact Hmarked.
    + exact Hclosed.
    + intros R c HR HcR Hc. apply Hiff in Hc as [Hc|Hc].
      * assert (c ∉ coords') as Hcn.
        { intros Hin. by apply Hnewz in Hin. }
        destruct (proj2 (Hrd c) Hcn) as [-> ->].
        by apply (inv_fate _ _ _ _ _ _ _ _ Hinv R c).
      * rewrite (Hsize R c HR HcR Hc). unfold size. split; [|lia].
        intros _. by apply Hrd.
    + intros g Hg. apply elem_of_app in Hg as [Hg|Hg].
      * destruct (inv_groups _ _ _ _ _ _ _ _ Hinv g Hg) as (H1 & H2 & H3).
        split; [exact H1|]. split; [exact H2|]. intros c Hc. apply Hmono. by apply H3.
      * apply list_elem_of_singleton in Hg as ->.
        split; [exact Hregion|]. split; [unfold size; lia|].
        intros c Hc. apply Hiff. by right.
    + intros R c HR H4 HcR Hc. apply Hiff in Hc as [Hc|Hc].
      * destruct (inv_found _ _ _ _ _ _ _ _ Hinv R c HR H4 HcR Hc) as (g & Hg & Hp).
        exists g. split; [|exact Hp]. apply elem_of_app. by left.
      * exists coords'. split; [apply elem_of_app; right; by left|].
        by apply (region_same_size bd0 bc0 coords' R c).
    + rewrite join_app. simpl. rewrite app_nil_r. apply list.NoDup_app.
      split; [by destruct Hinv|]. split; [exact Hapart|exact Hnd].
    + unfold score_after. rewrite foldl_app. simpl.
      by rewrite (inv_score _ _ _ _ _ _ _ _ Hinv).
    + rewrite sum_with_snoc. rewrite (inv_total _ _ _ _ _ _ _ _ Hinv).
      unfold size. lia.
    + rewrite length_app. simpl. rewrite (inv_count _ _ _ _ _ _ _ _ Hinv). lia.
  - rewrite Z.geb_leb in Hcnt. apply Z.leb_gt in Hcnt.
    inversion Hrun; subst st' total' groups'. clear Hrun.
    exists gs. split; [|split; [|exact Hmono]].
    2:{ intros _. apply Hiff. by right. }
    split; simpl.
    + by destruct Hinv.
    + by destruct Hinv.
    + exact Hvis'.
    + intros c Hc. apply (inv_fresh _ _ _ _ _ _ _ _ Hinv).
      destruct (decide (rd (visited st) c = 0)) as [|Hn]; [assumption|].
      by apply Hmono in Hn.
    + by destruct Hinv.
    + exact Hmarked.
    + exact Hclosed.
    + intros R c HR HcR Hc. apply Hiff in Hc as [Hc|Hc].
      * by apply (inv_fate _ _ _ _ _ _ _ _ Hinv R c).
      * rewrite (Hsize R c HR HcR Hc). unfold size. split; [lia|].
        intros _. apply (inv_fresh _ _ _ _ _ _ _ _ Hinv). by apply Hnewz.
    + intros g Hg.
      destruct (inv_groups _ _ _ _ _ _ _ _ Hinv g Hg) as (H1 & H2 & H3).
      split; [exact H1|]. split; [exact H2|]. intros c Hc. apply Hmono. by apply H3.
    + intros R c HR H4 HcR Hc. apply Hiff in Hc as [Hc|Hc].
      * by apply (inv_found _ _ _ _ _ _ _ _ Hinv R c).
      * exfalso. rewrite (Hsize R c HR HcR Hc) in H4. unfold size in H4. lia.
    + by destruct Hinv.
    + by destruct Hinv.
    + by destruct Hinv.
    + by destruct Hinv.
Qed.

Lemma scan_inv_scan bd0 bc0 s0 m todo gs st total groups :
  (∀ c, c ∈ todo → on_board c) →
  scan_inv bd0 bc0 s0 m gs st total groups →
  ∃ gs' st' total' groups',
    clearGroups_scan m todo (st, total, groups) = Some (st', total', groups') ∧
    scan_inv bd0 bc0 s0 m gs' st' total' groups' ∧
    (∀ c, c ∈ todo → rd bd0 c ≠ 0 → rd (visited st') c ≠ 0) ∧
    (∀ d, rd (visited st) d ≠ 0 → rd (visited st') d ≠ 0) ∧
    untouched st' = untouched st.
Proof.
  revert gs st total groups.
  induction todo as [|c rest IH]; intros gs st total groups Hon Hinv.
  - exists gs, st, total, groups. split; [reflexivity|]. split; [exact Hinv|].
    split; [intros c Hc; inversion Hc|]. by split.
  - destruct (clearGroups_cell_returns m st total groups c)
      as (st1 & t1 & g1 & Hrun1 & _ & Hsame1 & _); [by destruct Hinv|].
    destruct (scan_inv_step bd0 bc0 s0 m gs st total groups c st1 t1 g1)
      as (gs1 & Hinv1 & Hhere & Hmono1); [apply Hon; by left|exact Hinv|exact Hrun1|].
    destruct (IH gs1 st1 t1 g1) as (gs2 & st2 & t2 & g2 & Hrun2 & Hinv2 & Hrest & Hmono2 & Hsame2);
      [intros d Hd; apply Hon; by right|exact Hinv1|].
    exists gs2, st2, t2, g2. split; [|split; [exact Hinv2|split; [|split]]].
    + change (clearGroups_scan m (c :: rest) (st, total, groups))
        with (clearGroups_cell m (st, total, groups) c ≫= clearGroups_scan m rest).
      rewrite Hrun1. exact Hrun2.
    + intros d Hd Hocc. apply elem_of_cons in Hd as [->|Hd].
      * apply Hmono2. by apply Hhere.
      * by apply Hrest.
    + intros d Hd. by apply Hmono2, Hmono1.
    + by rewrite Hsame2.
Qed.

Lemma clearGroups_finish_frame st groups :
  board (clearGroups_finish st groups) = board st ∧
  board_color (clearGroups_finish st groups) = board_color st ∧
  score (clearGroups_finish st groups) = score st.
Proof.
  unfold clearGroups_finish. destruct (groups >? 0); [|done].
  by destruct (Z.quot (clears st + groups) 5 >=? level st).
Qed.

(** What a clear pass does to the board and to the score: it removes the
    groups [gs], which are the regions of at least four cells of the board,
    each once, and adds the score of each of them. *)
Lemma clearGroups_pass (m : Z) (st : State) :
  is_board (board st) → is_board (board_color st) →
  ∃ gs total st',
    clearGroups m st = Some (total, st') ∧
    is_board (board st') ∧ is_board (board_color st') ∧
    (∀ g, g ∈ gs → region (board st) (board_color st) g ∧ 4 ≤ size g) ∧
    NoDup (mjoin gs) ∧
    (∀ R, region (board st) (board_color st) R → 4 ≤ size R →
          ∃ g, g ∈ gs ∧ g ≡ₚ R) ∧
    (∀ R c, region (board st) (board_color st) R → c ∈ R →
       (4 ≤ size R → rd (board st') c = 0 ∧ rd (board_color st') c = 0) ∧
       (size R < 4 → rd (board st') c = rd (board st) c ∧
                      rd (board_color st') c = rd (board_color st) c)) ∧
    (∀ c, (rd (board st') c = rd (board st) c ∧
           rd (board_color st') c = rd (board_color st) c) ∨
          (rd (board st') c = 0 ∧ rd (board_color st') c = 0)) ∧
    score st' = score_after m (score st) gs ∧
    total = sum_with size gs.
Proof.
  intros Hbd Hbc. unfold clearGroups.
  destruct (scan_inv_scan (board st) (board_color st) (score st) m
              (cells HEIGHT WIDTH) [] (with_visited st (zeros HEIGHT WIDTH)) 0 0)
    as (gs & st1 & total & groups & Hrun & Hinv & Hall & _ & _).
  { intros [y x] Hc. by apply elem_of_cells in Hc. }
  { by apply scan_inv_start. }
  rewrite Hrun. cbn [mbind option_bind].
  destruct (clearGroups_finish_frame st1 groups) as (Hfb & Hfc & Hfs).
  exists gs, total, (clearGroups_finish st1 groups).
  split; [reflexivity|]. rewrite Hfb, Hfc, Hfs.
  assert (∀ R c, region (board st) (board_color st) R → c ∈ R →
                 rd (visited st1) c ≠ 0) as Hmarked.
  { intros R c (_ & _ & k & Hst & _) Hc. destruct (Hst c Hc) as (Hon & Hocc & _).
    apply Hall; [|exact Hocc]. destruct c as [y x]. by apply elem_of_cells. }
  split; [by destruct Hinv|]. split; [by destruct Hinv|].
  split; [|split; [by destruct Hinv|split; [|split; [|split; [by destruct Hinv|split]]]]].
  - intros g Hg. destruct (inv_groups _ _ _ _ _ _ _ _ Hinv g Hg) as (H1 & H2 & _).
    by split.
  - intros R HR H4.
    destruct R as [|c R'] eqn:HeqR; [by destruct HR as (_ & Hne & _)|].
    apply (inv_found _ _ _ _ _ _ _ _ Hinv (c :: R') c HR H4); [by left|].
    apply (Hmarked (c :: R')); [exact HR|by left].
  - intros R c HR Hc.
    apply (inv_fate _ _ _ _ _ _ _ _ Hinv R c HR Hc). by apply (Hmarked R).
  - by destruct Hinv.
  - by destruct Hinv.
Qed.

(** * Concrete regions *)

Lemma region_from_paths bd bc k c0 R :
  NoDup R → c0 ∈ R →
  (∀ c, c ∈ R → linked bd bc k c0 c) →
  (∀ c d, c ∈ R → adjacent c d → stone bd bc k d → d ∈ R) →
  region bd bc R.
Proof.
  intros Hnd Hc0 Hpaths Hmax. split; [exact Hnd|].
  split; [intros ->; inversion Hc0|]. exists k.
  split; [intros c Hc; by destruct (linked_stones _ _ _ _ _ (Hpaths c Hc))|].
  split; [|exact Hmax].
  intros c d Hc Hd. apply linked_trans with c0; [|by apply Hpaths].
  apply linked_sym. by apply Hpaths.
Qed.

Ltac stone_tac :=
  split; [split; unfold HEIGHT, WIDTH; simpl; lia|split; [discriminate|reflexivity]].

Ltac adjacent_tac := unfold adjacent; simpl; auto.

Ltac maximal_tac :=
  let c := fresh "c" in let d := fresh "d" in
  let Hc := fresh "Hc" in let Hadj := fresh "Hadj" in let Hst := fresh "Hst" in
  let Hocc := fresh "Hocc" in let Hcol := fresh "Hcol" in
  intros c d Hc Hadj Hst;
  repeat (apply elem_of_cons in Hc as [->|Hc]); [..|by inversion Hc];
  destruct Hadj as [-> | [-> | [-> | ->]]]; simpl;
  first [ solve [repeat first [left; reflexivity | right]]
        | exfalso; destruct Hst as (_ & Hocc & Hcol);
          first [ apply Hocc; reflexivity | vm_compute in Hcol; discriminate ] ].

Lemma fill_is_board l : is_board (fill l).1 ∧ is_board (fill l).2.
Proof.
  unfold fill.
  assert (∀ acc : grid * grid, is_board acc.1 ∧ is_board acc.2 →
            is_board (foldl (λ acc c, let '(bd, bc) := acc in let '(y, x, k) := c in
                                      (put bd y x 1, put bc y x k)) acc l).1 ∧
            is_board (foldl (λ acc c, let '(bd, bc) := acc in let '(y, x, k) := c in
                                      (put bd y x 1, put bc y x k)) acc l).2) as H.
  { induction l as [|[[y x] k] l IH]; intros [bd bc] [Hbd Hbc]; [by split|].
    simpl. apply IH. split; by apply dims_put. }
  apply H. split; apply dims_zeros.
Qed.

Lemma ell_region : region (board ell_and_bar) (board_color ell_and_bar) ell.
Proof.
  apply (region_from_paths _ _ 2 (19, 3)); unfold ell.
  - apply (bool_decide_eq_true_1 _). vm_compute. reflexivity.
  - by left.
  - intros c Hc. repeat (apply elem_of_cons in Hc as [->|Hc]); [..|by inversion Hc].
    + apply linked_refl. stone_tac.
    + eapply linked_step; [apply linked_refl; stone_tac|adjacent_tac|stone_tac].
    + eapply linked_step;
        [eapply (linked_step _ _ _ _ _ (19, 4));
           [apply linked_refl; stone_tac|adjacent_tac|stone_tac]
        |adjacent_tac|stone_tac].
    + eapply linked_step; [apply linked_refl; stone_tac|adjacent_tac|stone_tac].
  - maximal_tac.
Qed.

Lemma bar_region : region (board ell_and_bar) (board_color ell_and_bar) bar.
Proof.
  apply (region_from_paths _ _ 1 (19, 7)); unfold bar.
  - apply (bool_decide_eq_true_1 _). vm_compute. reflexivity.
  - by left.
  - intros c Hc. repeat (apply elem_of_cons in Hc as [->|Hc]); [..|by inversion Hc].
    + apply linked_refl. stone_tac.
    + eapply linked_step; [apply linked_refl; stone_tac|adjacent_tac|stone_tac].
    + eapply linked_step;
        [eapply (linked_step _ _ _ _ _ (18, 7));
           [apply linked_refl; stone_tac|adjacent_tac|stone_tac]
        |adjacent_tac|stone_tac].
  - maximal_tac.
Qed.

(** * The threshold of four *)

(** C3: on every board, a clear pass returns, and for every maximal
    4-directionally connected region of occupied cells of one colour: if the
    region has exactly 3 cells, all its cells are still occupied with their
    colours after the pass; if it has exactly 4 cells, every one of them is
    unoccupied with colour 0 after the pass.  The same holds for fewer than
    4 and for 4 or more cells. *)
Theorem clearGroups_threshold (m : Z) (st : State) (R : list (Z * Z)) :
  is_board (board st) → is_board (board_color st) →
  region (board st) (board_color st) R →
  ∃ total st',
    clearGroups m st = Some (total, st') ∧
    (length R = 3%nat → ∀ c, c ∈ R →
       rd (board st') c = rd (board st) c ∧ rd (board st') c ≠ 0 ∧
       rd (board_color st') c = rd (board_color st) c) ∧
    (length R = 4%nat → ∀ c, c ∈ R →
       rd (board st') c = 0 ∧ rd (board_color st') c = 0) ∧
    ((length R < 4)%nat → ∀ c, c ∈ R →
       rd (board st') c = rd (board st) c ∧ rd (board st') c ≠ 0 ∧
       rd (board_color st') c = rd (board_color st) c) ∧
    ((4 ≤ length R)%nat → ∀ c, c ∈ R →
       rd (board st') c = 0 ∧ rd (board_color st') c = 0).
Proof.
  intros Hbd Hbc HR.
  destruct (clearGroups_pass m st Hbd Hbc)
    as (gs & total & st' & Hrun & _ & _ & _ & _ & _ & Hfate & _).
  exists total, st'. split; [exact Hrun|].
  assert (∀ c, c ∈ R → rd (board st) c ≠ 0) as Hocc.
  { intros c Hc. destruct HR as (_ & _ & k & Hst & _). by destruct (Hst c Hc) as (_ & ? & _). }
  assert ((length R < 4)%nat → ∀ c, c ∈ R →
            rd (board st') c = rd (board st) c ∧ rd (board st') c ≠ 0 ∧
            rd (board_color st') c = rd (board_color st) c) as Hkeep.
  { intros Hlen c Hc. destruct (Hfate R c HR Hc) as [_ Hsame].
    destruct Hsame as [Hb Hk]; [unfold size; lia|].
    split; [exact Hb|]. split; [rewrite Hb; by apply Hocc|exact Hk]. }
  assert ((4 ≤ length R)%nat → ∀ c, c ∈ R →
            rd (board st') c = 0 ∧ rd (board_color st') c = 0) as Hgone.
  { intros Hlen c Hc. destruct (Hfate R c HR Hc) as [Hzero _].
    apply Hzero. unfold size. lia. }
  split; [intros Hlen; apply Hkeep; lia|].
  split; [intros Hlen; apply Hgone; lia|].
  by split.
Qed.

Lemma clearGroups_threshold_witness :
  ∃ total st',
    clearGroups 2 ell_and_bar = Some (total, st') ∧
    (length ell = 3%nat → ∀ c, c ∈ ell →
       rd (board st') c = rd (board ell_and_bar) c ∧ rd (board st') c ≠ 0 ∧
       rd (board_color st') c = rd (board_color ell_and_bar) c) ∧
    (length ell = 4%nat → ∀ c, c ∈ ell →
       rd (board st') c = 0 ∧ rd (board_color st') c = 0) ∧
    ((length ell < 4)%nat → ∀ c, c ∈ ell →
       rd (board st') c = rd (board ell_and_bar) c ∧ rd (board st') c ≠ 0 ∧
       rd (board_color st') c = rd (board_color ell_and_bar) c) ∧
    ((4 ≤ length ell)%nat → ∀ c, c ∈ ell →
       rd (board st') c = 0 ∧ rd (board_color st') c = 0).
Proof.
  apply (clearGroups_threshold 2 ell_and_bar ell).
  - apply fill_is_board.
  - apply fill_is_board.
  - apply ell_region.
Defined.

(** the pass on the example board: the L of four cells is removed for 400
    points and counted as one group, the column of three cells stays *)
Lemma clearGroups_ell_and_bar :
  ∃ st', clearGroups 2 ell_and_bar = Some (4, st') ∧
         (board st', board_color st') =
           fill [(19, 7, 1); (18, 7, 1); (17, 7, 1)] ∧
         score st' = score ell_and_bar + 400 ∧
         clears st' = clears ell_and_bar + 1 ∧
         level st' = level ell_and_bar.
Proof. eexists. split; [vm_compute; reflexivity|]. vm_compute. done. Qed.

(** * Score accounting *)

Lemma floor_score_eq n d : floor_score n d = n * 50 * (2 + d).
Proof.
  unfold floor_score.
  assert ((inject_Z n * 100 * (1 + (1 # 2) * inject_Z d)
           == inject_Z (n * 50 * (2 + d)))%Q) as ->.
  { unfold Qeq, Qmult, Qplus, inject_Z. simpl. lia. }
  apply Qfloor_Z.
Qed.

Lemma group_score_eq n d : group_score n (2 + d) = n * 50 * (2 + d).
Proof.
  unfold group_score.
  replace (n * 100 * (2 + d)) with (n * 50 * (2 + d) * 2) by lia.
  apply Z.quot_mul. discriminate.
Qed.

Lemma sum_with_ext f g gs : (∀ x, f x = g x) → sum_with f gs = sum_with g gs.
Proof.
  intros Hfg. unfold sum_with. induction gs as [|h gs IH]; simpl; [reflexivity|].
  by rewrite IH, Hfg.
Qed.

(** the occupied cells of a board *)
Lemma elem_of_stones bd c : c ∈ stones bd ↔ on_board c ∧ rd bd c ≠ 0.
Proof.
  unfold stones. rewrite list_elem_of_filter. destruct c as [y x].
  rewrite elem_of_cells. unfold on_board, in_board. simpl. tauto.
Qed.

Lemma stones_bound bd : (length (stones bd) ≤ 200)%nat.
Proof. unfold stones. etransitivity; [apply length_filter|]. reflexivity. Qed.

(** the arithmetic of int *)
Lemma wrap_int_id z : INT_MIN ≤ z ≤ INT_MAX → wrap_int z = z.
Proof.
  unfold INT_MIN, INT_MAX, wrap_int. intros Hz.
  rewrite Z.mod_small by lia. lia.
Qed.

Lemma wrap_int_range z : INT_MIN ≤ wrap_int z ≤ INT_MAX.
Proof.
  unfold INT_MIN, INT_MAX, wrap_int.
  pose proof (Z.mod_pos_bound (z + 2147483648) 4294967296 ltac:(lia)). lia.
Qed.

Lemma wrap_int_add a b : wrap_int (wrap_int a + b) = wrap_int (a + b).
Proof.
  unfold wrap_int. f_equal.
  replace ((a + 2147483648) mod 4294967296 - 2147483648 + b + 2147483648)
    with ((a + 2147483648) mod 4294967296 + b) by lia.
  rewrite Z.add_mod_idemp_l by lia. f_equal. lia.
Qed.

(** the score after a pass is the exact sum brought into the range of int *)
Lemma score_after_wrap m s0 gs :
  INT_MIN ≤ s0 ≤ INT_MAX →
  score_after m s0 gs = wrap_int (s0 + sum_with (λ g, group_score (size g) m) gs).
Proof.
  unfold score_after, sum_with. revert s0.
  induction gs as [|g gs IH]; intros s0 Hs0; simpl.
  - rewrite Z.add_0_r. symmetry. by apply wrap_int_id.
  - rewrite IH by apply wrap_int_range. rewrite wrap_int_add. f_equal. lia.
Qed.

Lemma sum_with_nonneg f gs : (∀ g, 0 ≤ f g) → 0 ≤ sum_with f gs.
Proof.
  intros Hf. unfold sum_with. induction gs as [|g gs IH]; simpl; [lia|].
  specialize (Hf g). lia.
Qed.

(** C1: a clear pass called with the multiplier 1 + 0.5 * d (that is 2 + d
    halves, d the chain depth, not negative) removes the groups [gs], which
    are, each once, the maximal regions of at least four cells of the board;
    every removed group of n cells adds floor (n * 100 * (1 + 0.5 * d)) to
    the score, by an addition on int, and nothing else changes the score in
    the pass: the score after the pass is the score before it plus the sum of
    these amounts, brought into the range of int, and it is exactly that sum
    whenever the sum does not exceed INT_MAX.  So, without overflow, a pass
    that removes a single group of n cells adds exactly
    floor (n * 100 * (1 + 0.5 * d)), and a pass that removes none leaves the
    score alone; the value returned is the number of cells removed.  The
    depth is taken small enough for the amount of a group of up to 200 cells
    to be an int, so that the cast of the code is defined.
    lock_and_cascade calls the pass of its wave number [chain] (counted from
    0) with the multiplier 2 + chain halves and increments [chain] after
    each wave that removed cells. *)
Theorem clearGroups_score (d : Z) (st : State) :
  is_board (board st) → is_board (board_color st) →
  0 ≤ d → 10000 * (2 + d) ≤ INT_MAX → INT_MIN ≤ score st ≤ INT_MAX →
  (∃ gs total st',
     clearGroups (2 + d) st = Some (total, st') ∧
     (∀ g, g ∈ gs → region (board st) (board_color st) g ∧ 4 ≤ size g ∧
                    ∀ c, c ∈ g → rd (board st') c = 0) ∧
     NoDup (mjoin gs) ∧
     (∀ R, region (board st) (board_color st) R → 4 ≤ size R →
           ∃ g, g ∈ gs ∧ g ≡ₚ R) ∧
     (∀ g, g ∈ gs → 0 ≤ floor_score (size g) d ≤ INT_MAX) ∧
     score st' =
       wrap_int (score st + sum_with (λ g, floor_score (size g) d) gs) ∧
     (score st + sum_with (λ g, floor_score (size g) d) gs ≤ INT_MAX →
      score st' = score st + sum_with (λ g, floor_score (size g) d) gs) ∧
     total = sum_with size gs ∧
     (∀ g, gs = [g] → score st + floor_score (size g) d ≤ INT_MAX →
           score st' = score st + floor_score (size g) d) ∧
     (gs = [] → score st' = score st))
  ∧ (∀ fuel chain any,
       cascade_waves (S fuel) chain any st =
         '(cleared, st1) ← clearGroups (2 + chain) st;
         if cleared =? 0 then Some (chain, any, st1)
         else st3 ← animateGravity fuel (with_last_chain st1 (chain + 1));
              cascade_waves fuel (chain + 1) 1 st3).
Proof.
  intros Hbd Hbc Hd Hcast Hrange. split; [|reflexivity].
  destruct (clearGroups_pass (2 + d) st Hbd Hbc)
    as (gs & total & st' & Hrun & _ & _ & Hgs & Hnd & Hall & Hfate & _ & Hscore & Htotal).
  exists gs, total, st'. split; [exact Hrun|].
  assert (∀ g, g ∈ gs → 0 ≤ floor_score (size g) d ≤ INT_MAX) as Hamount.
  { intros g Hg. rewrite floor_score_eq.
    assert (size g ≤ 200) as Hsize.
    { destruct (Hgs g Hg) as [(Hndg & _ & k & Hst & _) _].
      assert (g ⊆+ stones (board st)) as Hsub.
      { apply NoDup_submseteq; [exact Hndg|]. intros c Hc.
        destruct (Hst c Hc) as (Hon & Hocc & _). by apply elem_of_stones. }
      apply submseteq_length in Hsub. pose proof (stones_bound (board st)).
      unfold size. lia. }
    unfold size in *. nia. }
  assert (score st' =
          wrap_int (score st + sum_with (λ g, floor_score (size g) d) gs)) as Hsc.
  { rewrite Hscore, score_after_wrap by exact Hrange. do 2 f_equal.
    apply sum_with_ext. intros g. by rewrite group_score_eq, floor_score_eq. }
  assert (0 ≤ sum_with (λ g, floor_score (size g) d) gs) as Hpos.
  { apply sum_with_nonneg. intros g. rewrite floor_score_eq. unfold size. nia. }
  assert (score st + sum_with (λ g, floor_score (size g) d) gs ≤ INT_MAX →
          score st' = score st + sum_with (λ g, floor_score (size g) d) gs) as Hexact.
  { intros Hmax. rewrite Hsc. apply wrap_int_id. lia. }
  split; [|split; [exact Hnd|split; [exact Hall|split; [exact Hamount|split; [exact Hsc|
    split; [exact Hexact|split; [exact Htotal|split]]]]]]].
  - intros g Hg. destruct (Hgs g Hg) as [Hreg H4]. split; [exact Hreg|].
    split; [exact H4|]. intros c Hc.
    destruct (Hfate g c Hreg Hc) as [Hzero _]. by apply Hzero.
  - intros g -> Hmax. unfold sum_with in Hexact. simpl in Hexact.
    rewrite Z.add_0_r in Hexact. by apply Hexact.
  - intros ->. rewrite Hscore. reflexivity.
Qed.

Lemma clearGroups_score_witness :
  (∃ gs total st',
     clearGroups (2 + 1) ell_and_bar = Some (total, st') ∧
     (∀ g, g ∈ gs → region (board ell_and_bar) (board_color ell_and_bar) g ∧ 4 ≤ size g ∧
                    ∀ c, c ∈ g → rd (board st') c = 0) ∧
     NoDup (mjoin gs) ∧
     (∀ R, region (board ell_and_bar) (board_color ell_and_bar) R → 4 ≤ size R →
           ∃ g, g ∈ gs ∧ g ≡ₚ R) ∧
     (∀ g, g ∈ gs → 0 ≤ floor_score (size g) 1 ≤ INT_MAX) ∧
     score st' =
       wrap_int (score ell_and_bar + sum_with (λ g, floor_score (size g) 1) gs) ∧
     (score ell_and_bar + sum_with (λ g, floor_score (size g) 1) gs ≤ INT_MAX →
      score st' = score ell_and_bar + sum_with (λ g, floor_score (size g) 1) gs) ∧
     total = sum_with size gs ∧
     (∀ g, gs = [g] → score ell_and_bar + floor_score (size g) 1 ≤ INT_MAX →
           score st' = score ell_and_bar + floor_score (size g) 1) ∧
     (gs = [] → score st' = score ell_and_bar))
  ∧ (∀ fuel chain any,
       cascade_waves (S fuel) chain any ell_and_bar =
         '(cleared, st1) ← clearGroups (2 + chain) ell_and_bar;
         if cleared =? 0 then Some (chain, any, st1)
         else st3 ← animateGravity fuel (with_last_chain st1 (chain + 1));
              cascade_waves fuel (chain + 1) 1 st3).
Proof.
  apply (clearGroups_score 1 ell_and_bar);
    [apply fill_is_board|apply fill_is_board|lia|vm_compute; discriminate
    |vm_compute; split; discriminate].
Defined.

(** at the end of the range the addition of the code overflows: from the
    score 2147483600 a group of four cells at depth 0 leaves -2147483296 *)
Lemma clearGroups_score_overflow :
  ∃ st', clearGroups 2 (with_score ell_and_bar 2147483600) = Some (4, st') ∧
         score st' = -2147483296.
Proof. eexists. split; [vm_compute; reflexivity|]. reflexivity. Qed.

(** the same pass at chain depth 1: the four cells are worth
    floor (4 * 100 * 1.5) = 600 *)
Lemma clearGroups_ell_depth_1 :
  floor_score 4 1 = 600 ∧
  ∃ st', clearGroups (2 + 1) ell_and_bar = Some (4, st') ∧
         score st' = score ell_and_bar + 600.
Proof.
  split; [reflexivity|]. eexists. split; [vm_compute; reflexivity|]. reflexivity.
Qed.

(** * Colour 0 means unoccupied *)

Lemma elem_of_cells_bottom_up h w y x :
  (y, x) ∈ cells_bottom_up h w ↔ 0 ≤ y < h ∧ 0 ≤ x < w.
Proof.
  unfold cells_bottom_up. rewrite list_elem_of_bind. split.
  - intros (y' & Hin & Hy'). apply list_elem_of_fmap in Hin as (x' & Heq & Hx').
    inversion Heq; subst. apply elem_of_reverse, elem_of_seqZ in Hy'.
    apply elem_of_seqZ in Hx'. lia.
  - intros [Hy Hx]. exists y. split.
    + apply list_elem_of_fmap. exists x. split; [reflexivity|].
      apply elem_of_seqZ. lia.
    + apply elem_of_reverse, elem_of_seqZ. lia.
Qed.

(** writing an occupied cell with a colour other than 0 keeps the invariant *)
Lemma color_inv_put bd bc c v k :
  is_board bd → is_board bc → on_board c → v ≠ 0 → k ≠ 0 →
  color_inv bd bc → color_inv (put bd c.1 c.2 v) (put bc c.1 c.2 k).
Proof.
  intros Hbd Hbc Hon Hv Hk Hinv d Hd.
  destruct (decide (c = d)) as [<-|Hne].
  - rewrite !rd_put_eq by assumption. split; intros; contradiction.
  - rewrite !rd_put_ne by assumption. by apply Hinv.
Qed.

Lemma placeBlock_color_inv K b bx by_ st :
  1 ≤ K → colored K b →
  is_board (board st) → is_board (board_color st) →
  color_inv (board st) (board_color st) →
  is_board (board (placeBlock b bx by_ st)) ∧
  is_board (board_color (placeBlock b bx by_ st)) ∧
  color_inv (board (placeBlock b bx by_ st)) (board_color (placeBlock b bx by_ st)).
Proof.
  intros HK Hcol Hbd Hbc Hinv. unfold placeBlock.
  assert (∀ todo (acc : grid * grid),
            (∀ c, c ∈ todo → in_block c.1 c.2) →
            is_board acc.1 ∧ is_board acc.2 ∧ color_inv acc.1 acc.2 →
            is_board (foldl (placeBlock_cell b bx by_) acc todo).1 ∧
            is_board (foldl (placeBlock_cell b bx by_) acc todo).2 ∧
            color_inv (foldl (placeBlock_cell b bx by_) acc todo).1
                      (foldl (placeBlock_cell b bx by_) acc todo).2) as Hfold.
  { induction todo as [|[y x] rest IH]; intros [bd bc] Hin Hacc; [exact Hacc|].
    simpl. apply IH; [intros c Hc; apply Hin; by right|].
    destruct Hacc as (Hb1 & Hb2 & Hi). simpl in Hb1, Hb2, Hi.
    destruct (truthy (get (shape b) y x)) eqn:Hocc; [|simpl; split; [|split]; assumption].
    apply truthy_true in Hocc.
    destruct ((by_ + y >=? 0) && (by_ + y <? HEIGHT) && (bx + x >=? 0)
              && (bx + x <? WIDTH)) eqn:Hrange; [|simpl; split; [|split]; assumption].
    rewrite !andb_true_iff in Hrange. destruct Hrange as [[[H1 H2] H3] H4].
    simpl. split; [by apply dims_put|]. split; [by apply dims_put|].
    apply (color_inv_put bd bc (by_ + y, bx + x)); try assumption.
    - split; simpl; lia.
    - discriminate.
    - assert (in_block y x) as Hyx by (apply (Hin (y, x)); by left).
      pose proof (Hcol y x Hyx Hocc). lia. }
  destruct (foldl (placeBlock_cell b bx by_) (board st, board_color st) (cells SIZE SIZE))
    as [bd' bc'] eqn:Hres.
  specialize (Hfold (cells SIZE SIZE) (board st, board_color st)).
  rewrite Hres in Hfold. simpl in *. apply Hfold; [|simpl; split; [|split]; assumption].
  intros [y x] Hc. by apply elem_of_cells in Hc.
Qed.

Lemma fall_on_board bd x y : on_board (y, x) → on_board (fall bd x y, x).
Proof.
  intros [Hy Hx]. simpl in *. destruct (fall_rests bd x y) as (Hle & Hpath & _).
  split; simpl; [|exact Hx]. split; [lia|].
  destruct (decide (fall bd x y = y)) as [->|Hne]; [lia|].
  destruct (Hpath (fall bd x y)); lia.
Qed.

Lemma gravityFailSafe_color_inv st :
  is_board (board st) → is_board (board_color st) →
  color_inv (board st) (board_color st) →
  is_board (board (gravityFailSafe st).2) ∧
  is_board (board_color (gravityFailSafe st).2) ∧
  color_inv (board (gravityFailSafe st).2) (board_color (gravityFailSafe st).2).
Proof.
  intros Hbd Hbc Hinv. unfold gravityFailSafe.
  assert (∀ todo (acc : Z * grid * grid),
            (∀ c, c ∈ todo → on_board c) →
            is_board acc.1.2 ∧ is_board acc.2 ∧ color_inv acc.1.2 acc.2 →
            is_board (foldl (gravity_cell (board st) (board_color st)) acc todo).1.2 ∧
            is_board (foldl (gravity_cell (board st) (board_color st)) acc todo).2 ∧
            color_inv (foldl (gravity_cell (board st) (board_color st)) acc todo).1.2
                      (foldl (gravity_cell (board st) (board_color st)) acc todo).2)
    as Hfold.
  { induction todo as [|[y x] rest IH]; intros [[moved tmp] tmpc] Hin Hacc; [exact Hacc|].
    simpl. apply IH; [intros c Hc; apply Hin; by right|].
    destruct Hacc as (Hb1 & Hb2 & Hi). simpl in Hb1, Hb2, Hi.
    destruct (truthy (get (board st) y x)) eqn:Hocc; [|simpl; split; [|split]; assumption].
    apply truthy_true in Hocc.
    assert (on_board (y, x)) as Hyx by (apply Hin; by left).
    simpl. split; [by apply dims_put|]. split; [by apply dims_put|].
    apply (color_inv_put tmp tmpc (fall (board st) x y, x)); try assumption.
    - by apply fall_on_board.
    - discriminate.
    - intros Hzero. apply Hocc. by apply (Hinv (y, x)). }
  destruct (foldl (gravity_cell (board st) (board_color st))
              (0, zeros HEIGHT WIDTH, zeros HEIGHT WIDTH) (cells_bottom_up HEIGHT WIDTH))
    as [[moved tmp] tmpc] eqn:Hres.
  specialize (Hfold (cells_bottom_up HEIGHT WIDTH)
                (0, zeros HEIGHT WIDTH, zeros HEIGHT WIDTH)).
  rewrite Hres in Hfold. cbn [fst snd] in Hfold. simpl. apply Hfold.
  - intros [y x] Hc. by apply elem_of_cells_bottom_up in Hc.
  - split; [apply dims_zeros|]. split; [apply dims_zeros|].
    intros c _. by rewrite !rd_zeros.
Qed.

Lemma clearGroups_color_inv m st :
  is_board (board st) → is_board (board_color st) →
  color_inv (board st) (board_color st) →
  ∃ total st', clearGroups m st = Some (total, st') ∧
    is_board (board st') ∧ is_board (board_color st') ∧
    color_inv (board st') (board_color st').
Proof.
  intros Hbd Hbc Hinv.
  destruct (clearGroups_pass m st Hbd Hbc)
    as (gs & total & st' & Hrun & Hbd' & Hbc' & _ & _ & _ & _ & Hcells & _).
  exists total, st'. split; [exact Hrun|]. split; [exact Hbd'|]. split; [exact Hbc'|].
  intros c Hc. destruct (Hcells c) as [[-> ->]|[-> ->]]; [by apply Hinv|done].
Qed.

(** the pieces of the program are coloured in [1, max_colors]: makeBlock
    draws such colours, rand being non-negative, and the rotations move them *)
Lemma makeBlock_colored st :
  1 ≤ max_colors st → (∀ n, 0 ≤ rand_stream st n) →
  colored (max_colors st) (makeBlock st).1.
Proof.
  intros HK Hrand y x [Hy Hx] Hocc. unfold SIZE in *.
  pose proof (Z.rem_bound_pos (rand_stream st (rand_calls st)) (max_colors st)
                (Hrand _) ltac:(lia)) as H0.
  pose proof (Z.rem_bound_pos (rand_stream st (S (rand_calls st))) (max_colors st)
                (Hrand _) ltac:(lia)) as H1.
  assert (y = 0 ∨ y = 1 ∨ y = 2) as [-> | [-> | ->]] by lia;
    assert (x = 0 ∨ x = 1 ∨ x = 2) as [-> | [-> | ->]] by lia;
    cbv in Hocc; try congruence.
  - change (get (color (makeBlock st).1) 0 1)
      with (1 + Z.rem (rand_stream st (rand_calls st)) (max_colors st)). lia.
  - change (get (color (makeBlock st).1) 1 1)
      with (1 + Z.rem (rand_stream st (S (rand_calls st))) (max_colors st)). lia.
Qed.

Lemma rotate_colored K b :
  is_block b → colored K b → colored K (rotateRight b) ∧ colored K (rotateLeft b).
Proof.
  destruct b as [s c]. intros [Hs Hc] Hcol. simpl in *.
  apply grid_of_nine in Hs as (s1 & s2 & s3 & s4 & s5 & s6 & s7 & s8 & s9 & ->).
  apply grid_of_nine in Hc as (c1 & c2 & c3 & c4 & c5 & c6 & c7 & c8 & c9 & ->).
  assert (∀ y x, in_block y x → ∀ v k,
            get [[s1; s2; s3]; [s4; s5; s6]; [s7; s8; s9]] y x = v →
            get [[c1; c2; c3]; [c4; c5; c6]; [c7; c8; c9]] y x = k →
            v ≠ 0 → 1 ≤ k ≤ K) as Hcell.
  { intros y x Hyx v k <- <-. apply Hcol. exact Hyx. }
  assert (in_block 0 1 ∧ in_block 1 0 ∧ in_block 1 1 ∧ in_block 1 2 ∧ in_block 2 1)
    as (H01 & H10 & H11 & H12 & H21) by (unfold in_block, SIZE; lia).
  split; intros y x [Hy Hx] Hocc; unfold SIZE in *;
    (assert (y = 0 ∨ y = 1 ∨ y = 2) as [-> | [-> | ->]] by lia);
    (assert (x = 0 ∨ x = 1 ∨ x = 2) as [-> | [-> | ->]] by lia);
    cbv in Hocc; try congruence; cbv;
    first [ by apply (Hcell 0 1 H01 _ _ eq_refl eq_refl)
          | by apply (Hcell 1 0 H10 _ _ eq_refl eq_refl)
          | by apply (Hcell 1 1 H11 _ _ eq_refl eq_refl)
          | by apply (Hcell 1 2 H12 _ _ eq_refl eq_refl)
          | by apply (Hcell 2 1 H21 _ _ eq_refl eq_refl) ].
Qed.

(** C9: on every board the program reaches, a cell has colour 0 if and only
    if it is unoccupied.  The arrays start zeroed, and each of the three
    operations that write them keeps the property: placeBlock, for a piece
    whose occupied cells carry a colour in [1, K] with K >= 1, the clear
    pass (which returns), and a gravityFailSafe step. *)
Theorem color_zero_iff_unoccupied (K : Z) :
  1 ≤ K →
  (∀ b bx by_ st,
     colored K b → is_board (board st) → is_board (board_color st) →
     color_inv (board st) (board_color st) →
     color_inv (board (placeBlock b bx by_ st)) (board_color (placeBlock b bx by_ st)))
  ∧ (∀ m st,
       is_board (board st) → is_board (board_color st) →
       color_inv (board st) (board_color st) →
       ∃ total st', clearGroups m st = Some (total, st') ∧
                    color_inv (board st') (board_color st'))
  ∧ (∀ st,
       is_board (board st) → is_board (board_color st) →
       color_inv (board st) (board_color st) →
       color_inv (board (gravityFailSafe st).2) (board_color (gravityFailSafe st).2))
  ∧ (∀ bd bc,
       reachable_boards K bd bc →
       is_board bd ∧ is_board bc ∧
       ∀ y x, in_board y x → (get bc y x = 0 ↔ get bd y x = 0)).
Proof.
  intros HK. split; [|split; [|split]].
  - intros b bx by_ st Hcol Hbd Hbc Hinv.
    by apply (placeBlock_color_inv K).
  - intros m st Hbd Hbc Hinv.
    destruct (clearGroups_color_inv m st Hbd Hbc Hinv) as (total & st' & Hrun & _ & _ & Hinv').
    by exists total, st'.
  - intros st Hbd Hbc Hinv. by apply gravityFailSafe_color_inv.
  - intros bd bc Hreach.
    assert (is_board bd ∧ is_board bc ∧ color_inv bd bc) as (Hbd & Hbc & Hinv).
    { induction Hreach as [|st b bx by_ _ (Hbd & Hbc & Hinv) Hcol
                           |st m total st' _ (Hbd & Hbc & Hinv) Hrun
                           |st _ (Hbd & Hbc & Hinv)].
      - split; [apply dims_zeros|]. split; [apply dims_zeros|].
        intros c _. by rewrite !rd_zeros.
      - by apply (placeBlock_color_inv K).
      - destruct (clearGroups_color_inv m st Hbd Hbc Hinv)
          as (total' & st'' & Hrun' & Hres).
        rewrite Hrun in Hrun'. inversion Hrun'; subst. exact Hres.
      - by apply gravityFailSafe_color_inv. }
    split; [exact Hbd|]. split; [exact Hbc|].
    intros y x Hyx. apply (Hinv (y, x)). exact Hyx.
Qed.

Lemma color_zero_iff_unoccupied_witness :
  let st := placeBlock (domino_up 1 2) 3 18 (session (fill []) (domino_up 1 2) 3 18) in
  (get (board_color st) 19 4 = 0 ↔ get (board st) 19 4 = 0) ∧
  (get (board_color st) 17 4 = 0 ↔ get (board st) 17 4 = 0).
Proof.
  assert (1 ≤ 4) as HK by lia.
  destruct (color_zero_iff_unoccupied 4 HK) as (_ & _ & _ & Hreach).
  destruct (Hreach _ _
              (reach_placeBlock 4 (session (fill []) (domino_up 1 2) 3 18)
                 (domino_up 1 2) 3 18 (reach_start 4)
                 ltac:(intros y x [Hy Hx] Hocc; unfold SIZE in *;
                       assert (y = 0 ∨ y = 1 ∨ y = 2) as [-> | [-> | ->]] by lia;
                       assert (x = 0 ∨ x = 1 ∨ x = 2) as [-> | [-> | ->]] by lia;
                       vm_compute in Hocc; try congruence;
                       vm_compute; split; discriminate)))
    as (_ & _ & Hinv).
  split; apply Hinv; split; unfold HEIGHT, WIDTH; lia.
Defined.

(** * Fuel *)

Lemma gravity_S n st :
  gravity (S n) st =
    if truthy (gravityFailSafe st).1 then gravity n (gravityFailSafe st).2
    else Some (gravityFailSafe st).2.
Proof.
  change (gravity (S n) st) with
    (let '(moved, st') := gravityFailSafe st in
     if truthy moved then gravity n st' else Some st').
  by destruct (gravityFailSafe st).
Qed.

Lemma animateGravity_S n st :
  animateGravity (S n) st =
    if truthy (gravityFailSafe st).1 then animateGravity n (gravityFailSafe st).2
    else Some (gravityFailSafe st).2.
Proof.
  change (animateGravity (S n) st) with
    (let '(moved, st') := gravityFailSafe st in
     if truthy moved then animateGravity n st' else Some st').
  by destruct (gravityFailSafe st).
Qed.

Lemma hardDrop_S n st :
  hardDrop (S n) st =
    if negb (truthy (checkCollision (board st) (current st) (cx st) (cy st + 1)))
    then hardDrop n (with_pos st (cx st) (cy st + 1))
    else Some st.
Proof. reflexivity. Qed.

Lemma gravity_fuel n m st st' :
  gravity n st = Some st' → (n ≤ m)%nat → gravity m st = Some st'.
Proof.
  revert m st. induction n as [|n IH]; intros m st Hrun Hle; [discriminate|].
  destruct m as [|m]; [lia|]. rewrite gravity_S in *.
  destruct (truthy (gravityFailSafe st).1); [|exact Hrun]. apply IH; [exact Hrun|lia].
Qed.

Lemma animateGravity_fuel n m st st' :
  animateGravity n st = Some st' → (n ≤ m)%nat → animateGravity m st = Some st'.
Proof.
  revert m st. induction n as [|n IH]; intros m st Hrun Hle; [discriminate|].
  destruct m as [|m]; [lia|]. rewrite animateGravity_S in *.
  destruct (truthy (gravityFailSafe st).1); [|exact Hrun]. apply IH; [exact Hrun|lia].
Qed.

Lemma hardDrop_fuel n m st st' :
  hardDrop n st = Some st' → (n ≤ m)%nat → hardDrop m st = Some st'.
Proof.
  revert m st. induction n as [|n IH]; intros m st Hrun Hle; [discriminate|].
  destruct m as [|m]; [lia|]. rewrite hardDrop_S in *.
  destruct (negb (truthy (checkCollision (board st) (current st) (cx st) (cy st + 1))));
    [|exact Hrun].
  apply IH; [exact Hrun|lia].
Qed.

Lemma cascade_waves_fuel n m chain any st r :
  cascade_waves n chain any st = Some r → (n ≤ m)%nat →
  cascade_waves m chain any st = Some r.
Proof.
  revert m chain any st. induction n as [|n IH]; intros m chain any st Hrun Hle;
    [discriminate|].
  destruct m as [|m]; [lia|].
  change (cascade_waves (S m) chain any st) with
    ('(cleared, st1) ← clearGroups (2 + chain) st;
     if cleared =? 0 then Some (chain, any, st1)
     else st3 ← animateGravity m (with_last_chain st1 (chain + 1));
          cascade_waves m (chain + 1) 1 st3).
  change (cascade_waves (S n) chain any st) with
    ('(cleared, st1) ← clearGroups (2 + chain) st;
     if cleared =? 0 then Some (chain, any, st1)
     else st3 ← animateGravity n (with_last_chain st1 (chain + 1));
          cascade_waves n (chain + 1) 1 st3) in Hrun.
  destruct (clearGroups (2 + chain) st) as [[cleared st1]|]; [|discriminate].
  cbn [mbind option_bind] in *.
  destruct (cleared =? 0); [exact Hrun|].
  destruct (animateGravity n (with_last_chain st1 (chain + 1))) as [st3|] eqn:Hanim;
    [|discriminate].
  rewrite (animateGravity_fuel n m _ _ Hanim) by lia.
  cbn [mbind option_bind] in *. apply IH; [exact Hrun|lia].
Qed.

Lemma cascade_fuel n m chain st r :
  cascade n chain st = Some r → (n ≤ m)%nat → cascade m chain st = Some r.
Proof.
  revert m chain st. induction n as [|n IH]; intros m chain st Hrun Hle; [discriminate|].
  destruct m as [|m]; [lia|].
  change (cascade (S m) chain st) with
    ('(chain', any_wave_cleared, st1) ← cascade_waves m chain 0 st;
     st2 ← gravity m st1;
     if negb (truthy any_wave_cleared) then Some (chain', st2)
     else cascade m chain' st2).
  change (cascade (S n) chain st) with
    ('(chain', any_wave_cleared, st1) ← cascade_waves n chain 0 st;
     st2 ← gravity n st1;
     if negb (truthy any_wave_cleared) then Some (chain', st2)
     else cascade n chain' st2) in Hrun.
  destruct (cascade_waves n chain 0 st) as [[[chain' any] st1]|] eqn:Hwaves;
    [|discriminate].
  rewrite (cascade_waves_fuel n m _ _ _ _ Hwaves) by lia.
  cbn [mbind option_bind] in *.
  destruct (gravity n st1) as [st2|] eqn:Hgrav; [|discriminate].
  rewrite (gravity_fuel n m _ _ Hgrav) by lia.
  cbn [mbind option_bind] in *.
  destruct (negb (truthy any)); [exact Hrun|]. apply IH; [exact Hrun|lia].
Qed.

Lemma lock_and_cascade_fuel n m st o :
  lock_and_cascade n st = Some o → (n ≤ m)%nat → lock_and_cascade m st = Some o.
Proof.
  unfold lock_and_cascade. intros Hrun Hle.
  destruct (makeBlock _) as [nb st3'].
  destruct (cascade n 0 _) as [[chain st6]|] eqn:Hcasc; [|discriminate].
  rewrite (cascade_fuel n m _ _ _ Hcasc) by lia. exact Hrun.
Qed.

(** * The board after lock_and_cascade *)

Lemma lock_then_settle_returns fuel st st1 st2 total st3 :
  lock_and_cascade fuel st = Some (Returned st1) →
  gravity fuel st1 = Some st2 →
  clearGroups 2 st2 = Some (total, st3) →
  lock_then_settle fuel st = Some (Returned st3).
Proof.
  intros Hlock Hgrav Hclear. unfold lock_then_settle.
  rewrite Hlock. cbn [mbind option_bind].
  rewrite Hgrav. cbn [mbind option_bind].
  rewrite Hclear. reflexivity.
Qed.

Lemma late_group_region :
  region (board after_lock) (board_color after_lock) late_group.
Proof.
  apply (region_from_paths _ _ 1 (18, 6)); unfold late_group.
  - apply (bool_decide_eq_true_1 _). vm_compute. reflexivity.
  - right. by left.
  - intros c Hc. repeat (apply elem_of_cons in Hc as [->|Hc]); [..|by inversion Hc].
    + eapply linked_step; [apply linked_refl; stone_tac|adjacent_tac|stone_tac].
    + apply linked_refl. stone_tac.
    + eapply linked_step; [apply linked_refl; stone_tac|adjacent_tac|stone_tac].
    + eapply linked_step; [apply linked_refl; stone_tac|adjacent_tac|stone_tac].
  - maximal_tac.
Qed.

(** C2 fails on the code.  In a game of four colours in which rand returns
    2, 1, 2, 1, 0, 0, 0, 3, 0, 1, 0, ..., the keys Up, Up, Right, Up, Right,
    Right, Up, X lead to the state [overhang]; at the next Up the piece
    drops to row 15 and is locked with its right cell hanging over two empty
    cells.  lock_and_cascade clears nothing in its first pass, lets that
    cell fall onto the column of colour 1 in its final gravity() and returns
    without another pass: the board it returns holds a connected group of
    four cells of colour 1, score and clears still being 0.  The follow-up
    gravity() of main moves nothing, but the follow-up clearGroups(1)
    removes those four cells and changes score to 400 and clears to 1. *)
Theorem lock_and_cascade_leaves_group :
  main_loop 30 overhang_keys (main_start overhang_stream 4) = Some (Returned overhang)
  ∧ (∀ fuel, (30 ≤ fuel)%nat →
       hardDrop fuel overhang = Some (with_pos overhang 4 14) ∧
       lock_and_cascade fuel (with_pos overhang 4 14) = Some (Returned after_lock) ∧
       gravity fuel after_lock = Some after_lock ∧
       lock_then_settle fuel (with_pos overhang 4 14) = Some (Returned after_settle))
  ∧ clearGroups 2 after_lock = Some (4, after_settle)
  ∧ region (board after_lock) (board_color after_lock) late_group
  ∧ score after_lock = 0 ∧ clears after_lock = 0
  ∧ score after_settle = 400 ∧ clears after_settle = 1
  ∧ (∀ c, c ∈ late_group →
       rd (board after_lock) c = 1 ∧ rd (board after_settle) c = 0).
Proof.
  split; [vm_compute; reflexivity|].
  split.
  { intros fuel Hfuel.
    assert (hardDrop fuel overhang = Some (with_pos overhang 4 14)) as Hdrop.
    { apply (hardDrop_fuel 30); [vm_compute; reflexivity|exact Hfuel]. }
    assert (lock_and_cascade fuel (with_pos overhang 4 14) = Some (Returned after_lock))
      as Hlock.
    { apply (lock_and_cascade_fuel 30); [vm_compute; reflexivity|exact Hfuel]. }
    assert (gravity fuel after_lock = Some after_lock) as Hgrav.
    { apply (gravity_fuel 30); [vm_compute; reflexivity|exact Hfuel]. }
    split; [exact Hdrop|]. split; [exact Hlock|]. split; [exact Hgrav|].
    apply (lock_then_settle_returns fuel _ after_lock after_lock 4);
      [exact Hlock|exact Hgrav|vm_compute; reflexivity]. }
  split; [vm_compute; reflexivity|].
  split; [exact late_group_region|].
  split; [reflexivity|]. split; [reflexivity|]. split; [reflexivity|].
  split; [reflexivity|].
  intros c Hc. unfold late_group in Hc.
  repeat (apply elem_of_cons in Hc as [->|Hc]); [..|by inversion Hc];
    split; vm_compute; reflexivity.
Qed.

(** * Gravity at rest

    The half of C2 that holds: once gravity() has returned, a further
    gravityFailSafe step moves no cell. *)

Lemma gravity_fold bd bc todo moved tmp tmpc :
  is_board tmp → (∀ c, c ∈ todo → on_board c) →
  is_board (foldl (gravity_cell bd bc) (moved, tmp, tmpc) todo).1.2 ∧
  (∀ d, rd (foldl (gravity_cell bd bc) (moved, tmp, tmpc) todo).1.2 d ≠ 0 ↔
        rd tmp d ≠ 0 ∨ ∃ c, c ∈ todo ∧ rd bd c ≠ 0 ∧ d = (fall bd c.2 c.1, c.2)) ∧
  ((foldl (gravity_cell bd bc) (moved, tmp, tmpc) todo).1.1 = 0 ↔
     moved = 0 ∧ ∀ c, c ∈ todo → rd bd c ≠ 0 → fall bd c.2 c.1 = c.1).
Proof.
  revert moved tmp tmpc.
  induction todo as [|[y x] rest IH]; intros moved tmp tmpc Htmp Hon.
  - simpl. split; [exact Htmp|]. split.
    + intros d. split; [by left|]. intros [H|(c & Hc & _)]; [exact H|inversion Hc].
    + split; [intros H; split; [exact H|intros c Hc; inversion Hc]|by intros [H _]].
  - assert (on_board (y, x)) as Hyx by (apply Hon; by left).
    assert (∀ c, c ∈ rest → on_board c) as Hrest by (intros c Hc; apply Hon; by right).
    change (foldl (gravity_cell bd bc) (moved, tmp, tmpc) ((y, x) :: rest))
      with (foldl (gravity_cell bd bc) (gravity_cell bd bc (moved, tmp, tmpc) (y, x)) rest).
    unfold gravity_cell at 2 4 6.
    destruct (truthy (get bd y x)) eqn:Hocc.
    + apply truthy_true in Hocc.
      set (ny := fall bd x y).
      assert (on_board (ny, x)) as Hny by (by apply fall_on_board).
      destruct (IH (if negb (ny =? y) then 1 else moved) (put tmp ny x 1)
                  (put tmpc ny x (get bc y x)))
        as (Hb & Hcells & Hmoved); [by apply dims_put|exact Hrest|].
      split; [exact Hb|]. split.
      * intros d. rewrite Hcells. split.
        -- intros [Hd|(c & Hc & Hcocc & ->)].
           ++ destruct (decide ((ny, x) = d)) as [<-|Hne].
              ** right. exists (y, x). split; [by left|]. by split.
              ** left. by rewrite (rd_put_ne tmp (ny, x)) in Hd.
           ++ right. exists c. split; [by right|]. by split.
        -- intros [Hd|(c & Hc & Hcocc & ->)].
           ++ left. destruct (decide ((ny, x) = d)) as [<-|Hne].
              ** rewrite (rd_put_eq tmp (ny, x)) by assumption. discriminate.
              ** by rewrite (rd_put_ne tmp (ny, x)).
           ++ apply elem_of_cons in Hc as [->|Hc].
              ** left. simpl. fold ny.
                 rewrite (rd_put_eq tmp (ny, x)) by assumption. discriminate.
              ** right. exists c. by split.
      * rewrite Hmoved. split.
        -- intros [Hm Hall]. destruct (ny =? y) eqn:Heq; [|discriminate].
           apply Z.eqb_eq in Heq. simpl in Hm. split; [exact Hm|].
           intros c Hc Hcocc. apply elem_of_cons in Hc as [->|Hc]; [exact Heq|].
           by apply Hall.
        -- intros [Hm Hall]. split.
           ++ assert (ny = y) as -> by (apply (Hall (y, x)); [by left|exact Hocc]).
              rewrite Z.eqb_refl. exact Hm.
           ++ intros c Hc. apply Hall. by right.
    + apply truthy_false in Hocc.
      destruct (IH moved tmp tmpc Htmp Hrest) as (Hb & Hcells & Hmoved).
      split; [exact Hb|]. split.
      * intros d. rewrite Hcells. split.
        -- intros [Hd|(c & Hc & Hcocc & ->)]; [by left|].
           right. exists c. split; [by right|]. by split.
        -- intros [Hd|(c & Hc & Hcocc & ->)]; [by left|].
           apply elem_of_cons in Hc as [->|Hc]; [contradiction|].
           right. exists c. by split.
      * rewrite Hmoved. split.
        -- intros [Hm Hall]. split; [exact Hm|]. intros c Hc Hcocc.
           apply elem_of_cons in Hc as [->|Hc]; [contradiction|]. by apply Hall.
        -- intros [Hm Hall]. split; [exact Hm|]. intros c Hc. apply Hall. by right.
Qed.

(** what a gravityFailSafe step computes: the occupied cells of the new
    board are the landing cells of the occupied cells of the old one, and 0
    is returned exactly when every occupied cell lands where it is *)
Lemma gravityFailSafe_spec st :
  is_board (board (gravityFailSafe st).2) ∧
  (∀ d, rd (board (gravityFailSafe st).2) d ≠ 0 ↔
        ∃ c, on_board c ∧ rd (board st) c ≠ 0 ∧ d = (fall (board st) c.2 c.1, c.2)) ∧
  ((gravityFailSafe st).1 = 0 ↔
     ∀ c, on_board c → rd (board st) c ≠ 0 → fall (board st) c.2 c.1 = c.1).
Proof.
  unfold gravityFailSafe.
  destruct (gravity_fold (board st) (board_color st) (cells_bottom_up HEIGHT WIDTH)
              0 (zeros HEIGHT WIDTH) (zeros HEIGHT WIDTH))
    as (Hb & Hcells & Hmoved).
  { apply dims_zeros. }
  { intros [y x] Hc. by apply elem_of_cells_bottom_up in Hc. }
  destruct (foldl (gravity_cell (board st) (board_color st))
              (0, zeros HEIGHT WIDTH, zeros HEIGHT WIDTH) (cells_bottom_up HEIGHT WIDTH))
    as [[moved tmp] tmpc].
  cbn [fst snd] in *. simpl.
  split; [exact Hb|]. split.
  - intros d. rewrite Hcells, rd_zeros. split.
    + intros [H|(c & Hc & Hocc & ->)]; [contradiction|].
      exists c. split; [|by split]. destruct c as [y x].
      by apply elem_of_cells_bottom_up in Hc.
    + intros (c & Hc & Hocc & ->). right. exists c. split; [|by split].
      destruct c as [y x]. by apply elem_of_cells_bottom_up.
  - rewrite Hmoved. split.
    + intros [_ Hall] c Hc. apply Hall. destruct c as [y x].
      by apply elem_of_cells_bottom_up.
    + intros Hall. split; [reflexivity|]. intros c Hc. apply Hall.
      destruct c as [y x]. by apply elem_of_cells_bottom_up in Hc.
Qed.

(** the falling loop only looks at which cells are occupied *)
Lemma fall_loop_same_cells bd bd' x n y :
  (∀ k, y < k < HEIGHT → (get bd k x = 0 ↔ get bd' k x = 0)) →
  fall_loop bd x n y = fall_loop bd' x n y.
Proof.
  revert y. induction n as [|n IH]; intros y Hsame; [reflexivity|].
  simpl. fold (fall_test bd x y). fold (fall_test bd' x y).
  assert (fall_test bd x y = fall_test bd' x y) as ->.
  { destruct (fall_test bd' x y) eqn:Ht'.
    - apply fall_test_true in Ht' as [Hlt Hz]. apply fall_test_true.
      split; [exact Hlt|]. apply Hsame; [lia|exact Hz].
    - apply fall_test_false in Ht'. apply fall_test_false.
      destruct Ht' as [Hge|Hocc]; [by left|].
      destruct (decide (HEIGHT ≤ y + 1)) as [Hge|Hlt]; [by left|].
      right. intros Hz. apply Hocc. apply Hsame; [lia|exact Hz]. }
  destruct (fall_test bd' x y); [|reflexivity].
  apply IH. intros k Hk. apply Hsame. lia.
Qed.

Lemma gravityFailSafe_reads_boards st st' :
  board st = board st' → board_color st = board_color st' →
  (gravityFailSafe st).1 = (gravityFailSafe st').1.
Proof.
  intros Hb Hc. unfold gravityFailSafe. rewrite Hb, Hc.
  by destruct (foldl (gravity_cell (board st') (board_color st'))
                 (0, zeros HEIGHT WIDTH, zeros HEIGHT WIDTH)
                 (cells_bottom_up HEIGHT WIDTH)) as [[moved tmp] tmpc].
Qed.

(** a cell above an occupied cell of its column lands above that cell *)
Lemma fall_above bd x y y' :
  y < y' → get bd y' x ≠ 0 → fall bd x y < y'.
Proof.
  intros Hlt Hocc. destruct (fall_rests bd x y) as (Hle & Hpath & _).
  destruct (decide (fall bd x y < y')) as [|Hge]; [assumption|].
  destruct (Hpath y') as [_ Hz]; [lia|contradiction].
Qed.

(** two occupied cells never land on the same cell *)
Lemma landing_injective bd c c' :
  rd bd c ≠ 0 → rd bd c' ≠ 0 → landing bd c = landing bd c' → c = c'.
Proof.
  destruct c as [y x], c' as [y' x']. unfold landing, rd. simpl.
  intros Hc Hc' Heq. inversion Heq as [[Hrow Hcol]]. subst x'.
  destruct (Z.lt_trichotomy y y') as [Hlt|[->|Hgt]]; [|reflexivity|].
  - pose proof (fall_above bd x y y' Hlt Hc').
    destruct (fall_rests bd x y') as (Hle & _). lia.
  - pose proof (fall_above bd x y' y Hgt Hc).
    destruct (fall_rests bd x y) as (Hle & _). lia.
Qed.

Lemma gravity_fold_cells bd bc todo moved tmp tmpc :
  is_board tmp → is_board tmpc → (∀ c, c ∈ todo → on_board c) →
  (moved = 0 ∨ moved = 1) →
  is_board (foldl (gravity_cell bd bc) (moved, tmp, tmpc) todo).1.2 ∧
  is_board (foldl (gravity_cell bd bc) (moved, tmp, tmpc) todo).2 ∧
  ((foldl (gravity_cell bd bc) (moved, tmp, tmpc) todo).1.1 = 0 ∨
   (foldl (gravity_cell bd bc) (moved, tmp, tmpc) todo).1.1 = 1) ∧
  (∀ c, c ∈ todo → rd bd c ≠ 0 →
     rd (foldl (gravity_cell bd bc) (moved, tmp, tmpc) todo).1.2 (landing bd c) = 1 ∧
     rd (foldl (gravity_cell bd bc) (moved, tmp, tmpc) todo).2 (landing bd c) = rd bc c) ∧
  (∀ d, (∀ c, c ∈ todo → rd bd c ≠ 0 → landing bd c ≠ d) →
     rd (foldl (gravity_cell bd bc) (moved, tmp, tmpc) todo).1.2 d = rd tmp d ∧
     rd (foldl (gravity_cell bd bc) (moved, tmp, tmpc) todo).2 d = rd tmpc d).
Proof.
  revert moved tmp tmpc.
  induction todo as [|[y x] rest IH]; intros moved tmp tmpc Htmp Htmpc Hon Hm.
  - simpl. split; [exact Htmp|]. split; [exact Htmpc|]. split; [exact Hm|].
    split; [intros c Hc; inversion Hc|by intros d _].
  - assert (on_board (y, x)) as Hyx by (apply Hon; by left).
    assert (∀ c, c ∈ rest → on_board c) as Hrest by (intros c Hc; apply Hon; by right).
    change (foldl (gravity_cell bd bc) (moved, tmp, tmpc) ((y, x) :: rest))
      with (foldl (gravity_cell bd bc) (gravity_cell bd bc (moved, tmp, tmpc) (y, x)) rest).
    unfold gravity_cell at 2 4 6 8 10 12 14 16.
    destruct (truthy (get bd y x)) eqn:Hocc.
    + apply truthy_true in Hocc.
      assert (on_board (landing bd (y, x))) as Hny by (by apply fall_on_board).
      change (fall bd x y, x) with (landing bd (y, x)) in *.
      destruct (IH (if negb (fall bd x y =? y) then 1 else moved)
                  (put tmp (fall bd x y) x 1)
                  (put tmpc (fall bd x y) x (get bc y x)))
        as (Hb & Hbc & Hmv & Hland & Hfree);
        [by apply dims_put|by apply dims_put|exact Hrest
        |destruct (negb (fall bd x y =? y)); [by right|exact Hm]|].
      split; [exact Hb|]. split; [exact Hbc|]. split; [exact Hmv|]. split.
      * intros c Hc Hcocc.
        destruct (decide (c ∈ rest)) as [Hin|Hnot]; [by apply Hland|].
        apply elem_of_cons in Hc as [->|Hc]; [|contradiction].
        destruct (Hfree (landing bd (y, x))) as [-> ->].
        { intros c Hc Hcocc' Heq. apply Hnot.
          by rewrite <- (landing_injective bd c (y, x) Hcocc' Hcocc Heq). }
        split.
        -- by apply (rd_put_eq tmp (landing bd (y, x))).
        -- by apply (rd_put_eq tmpc (landing bd (y, x))).
      * intros d Hd. destruct (Hfree d) as [-> ->].
        { intros c Hc. apply Hd. by right. }
        assert (landing bd (y, x) ≠ d) as Hne by (apply Hd; [by left|exact Hocc]).
        split.
        -- by apply (rd_put_ne tmp (landing bd (y, x))).
        -- by apply (rd_put_ne tmpc (landing bd (y, x))).
    + apply truthy_false in Hocc.
      destruct (IH moved tmp tmpc Htmp Htmpc Hrest Hm) as (Hb & Hbc & Hmv & Hland & Hfree).
      split; [exact Hb|]. split; [exact Hbc|]. split; [exact Hmv|]. split.
      * intros c Hc Hcocc. apply elem_of_cons in Hc as [->|Hc]; [contradiction|].
        by apply Hland.
      * intros d Hd. apply Hfree. intros c Hc. apply Hd. by right.
Qed.

(** what a gravityFailSafe step writes: 1 and the colour of the cell on the
    landing cell of every occupied cell, 0 everywhere else *)
Lemma gravityFailSafe_cells st :
  (gravityFailSafe st).2 =
    with_board st (board (gravityFailSafe st).2) (board_color (gravityFailSafe st).2) ∧
  is_board (board (gravityFailSafe st).2) ∧
  is_board (board_color (gravityFailSafe st).2) ∧
  ((gravityFailSafe st).1 = 0 ∨ (gravityFailSafe st).1 = 1) ∧
  (∀ c, on_board c → rd (board st) c ≠ 0 →
     rd (board (gravityFailSafe st).2) (landing (board st) c) = 1 ∧
     rd (board_color (gravityFailSafe st).2) (landing (board st) c) =
       rd (board_color st) c) ∧
  (∀ d, (∀ c, on_board c → rd (board st) c ≠ 0 → landing (board st) c ≠ d) →
     rd (board (gravityFailSafe st).2) d = 0 ∧
     rd (board_color (gravityFailSafe st).2) d = 0).
Proof.
  unfold gravityFailSafe.
  destruct (gravity_fold_cells (board st) (board_color st) (cells_bottom_up HEIGHT WIDTH)
              0 (zeros HEIGHT WIDTH) (zeros HEIGHT WIDTH))
    as (Hb & Hbc & Hmv & Hland & Hfree).
  { apply dims_zeros. }
  { apply dims_zeros. }
  { intros [y x] Hc. by apply elem_of_cells_bottom_up in Hc. }
  { by left. }
  destruct (foldl (gravity_cell (board st) (board_color st))
              (0, zeros HEIGHT WIDTH, zeros HEIGHT WIDTH) (cells_bottom_up HEIGHT WIDTH))
    as [[moved tmp] tmpc].
  cbn [fst snd] in *. cbn [board board_color with_board].
  split; [by destruct st|]. split; [exact Hb|]. split; [exact Hbc|].
  split; [exact Hmv|]. split.
  - intros [y x] Hc Hocc. apply Hland; [|exact Hocc].
    by apply elem_of_cells_bottom_up.
  - intros d Hd. destruct (Hfree d) as [-> ->]; [|by rewrite !rd_zeros].
    intros [y x] Hc. apply Hd. by apply elem_of_cells_bottom_up in Hc.
Qed.

(* from here on a gravityFailSafe step is used through its specification *)
Opaque gravityFailSafe.

Lemma gravityFailSafe_at_rest st :
  (gravityFailSafe st).1 = 0 →
  (gravityFailSafe (gravityFailSafe st).2).1 = 0 ∧
  ∀ c, on_board c →
       (rd (board (gravityFailSafe st).2) c = 0 ↔ rd (board st) c = 0).
Proof.
  intros Hrest.
  destruct (gravityFailSafe_spec st) as (Hb & Hcells & Hmoved).
  pose proof (proj1 Hmoved Hrest) as Hstay.
  assert (∀ c, on_board c →
            (rd (board (gravityFailSafe st).2) c = 0 ↔ rd (board st) c = 0)) as Hsame.
  { intros c Hc. split.
    - intros Hz. destruct (decide (rd (board st) c = 0)) as [|Hocc]; [assumption|].
      exfalso. apply (proj2 (Hcells c)); [|exact Hz].
      exists c. split; [exact Hc|]. split; [exact Hocc|].
      rewrite (Hstay c Hc Hocc). by destruct c.
    - intros Hz. destruct (decide (rd (board (gravityFailSafe st).2) c = 0))
        as [|Hocc]; [assumption|].
      exfalso. apply Hcells in Hocc as (c' & Hc' & Hocc' & ->).
      rewrite (Hstay c' Hc' Hocc') in Hz. destruct c'. contradiction. }
  split; [|exact Hsame].
  apply (gravityFailSafe_spec (gravityFailSafe st).2).
  intros [y x] Hc Hocc. simpl.
  assert (rd (board st) (y, x) ≠ 0) as Hocc0.
  { intros Hz. apply Hocc. by apply Hsame. }
  rewrite <- (Hstay (y, x) Hc Hocc0) at 2. simpl.
  unfold fall. apply fall_loop_same_cells.
  intros k Hk. apply (Hsame (k, x)). destruct Hc as [Hy Hx]. simpl in *.
  split; simpl; lia.
Qed.

(** after gravity() has returned, a gravityFailSafe step moves nothing *)
Lemma gravity_at_rest fuel st st' :
  gravity fuel st = Some st' → (gravityFailSafe st').1 = 0.
Proof.
  revert st. induction fuel as [|fuel IH]; intros st Hrun; [discriminate|].
  rewrite gravity_S in Hrun.
  destruct (truthy (gravityFailSafe st).1) eqn:Hmoved; [by apply (IH _ Hrun)|].
  apply truthy_false in Hmoved. inversion Hrun; subst st'.
  by apply gravityFailSafe_at_rest.
Qed.

Lemma cascade_at_rest fuel chain st chain' st' :
  cascade fuel chain st = Some (chain', st') → (gravityFailSafe st').1 = 0.
Proof.
  revert chain st. induction fuel as [|fuel IH]; intros chain st Hrun; [discriminate|].
  change (cascade (S fuel) chain st) with
    ('(c, any_wave_cleared, st1) ← cascade_waves fuel chain 0 st;
     st2 ← gravity fuel st1;
     if negb (truthy any_wave_cleared) then Some (c, st2)
     else cascade fuel c st2) in Hrun.
  destruct (cascade_waves fuel chain 0 st) as [[[c any] st1]|]; [|discriminate].
  cbn [mbind option_bind] in Hrun.
  destruct (gravity fuel st1) as [st2|] eqn:Hgrav; [|discriminate].
  cbn [mbind option_bind] in Hrun.
  destruct (negb (truthy any)); [|by apply (IH _ _ Hrun)].
  inversion Hrun; subst. by apply (gravity_at_rest fuel st1).
Qed.

(** when lock_and_cascade returns, a further gravityFailSafe step, hence a
    further call of gravity(), moves no cell *)
Lemma lock_and_cascade_at_rest fuel st st' :
  lock_and_cascade fuel st = Some (Returned st') → (gravityFailSafe st').1 = 0.
Proof.
  unfold lock_and_cascade. intros Hrun.
  destruct (makeBlock _) as [nb st3'].
  destruct (cascade fuel 0 _) as [[chain st6]|] eqn:Hcasc; [|discriminate].
  cbn [mbind option_bind] in Hrun.
  apply cascade_at_rest in Hcasc.
  destruct (truthy (checkCollision _ _ _ _)); [discriminate|].
  inversion Hrun; subst st'. etransitivity; [|exact Hcasc].
  apply gravityFailSafe_reads_boards; by destruct (chain =? 0).
Qed.

(** * Pieces: what makeBlock and the rotations keep *)

(** X1: on a piece with empty corners the two rotations are inverse to each
    other, in both orders: the key Z undoes the key X and conversely. *)
Theorem rotate_inverse (b : Block) :
  is_block b → corners_empty (shape b) → corners_empty (color b) →
  rotateLeft (rotateRight b) = b ∧ rotateRight (rotateLeft b) = b.
Proof.
  destruct b as [s c]. intros [Hs Hc] Hcs Hcc. simpl in *.
  apply grid_of_nine in Hs as (s1 & s2 & s3 & s4 & s5 & s6 & s7 & s8 & s9 & ->).
  apply grid_of_nine in Hc as (c1 & c2 & c3 & c4 & c5 & c6 & c7 & c8 & c9 & ->).
  destruct Hcs as (Hs1 & Hs3 & Hs7 & Hs9). destruct Hcc as (Hc1 & Hc3 & Hc7 & Hc9).
  cbv in Hs1, Hs3, Hs7, Hs9, Hc1, Hc3, Hc7, Hc9. subst.
  split; reflexivity.
Qed.

Lemma rotate_inverse_witness :
  rotateLeft (rotateRight (domino_up 1 2)) = domino_up 1 2 ∧
  rotateRight (rotateLeft (domino_up 1 2)) = domino_up 1 2.
Proof.
  apply rotate_inverse; repeat split; repeat constructor.
Defined.

Lemma block_cells_nine s1 s2 s3 s4 s5 s6 s7 s8 s9 c :
  length (block_cells {| shape := [[s1; s2; s3]; [s4; s5; s6]; [s7; s8; s9]];
                         color := c |}) =
  (one_if s1 + one_if s2 + one_if s3 + one_if s4 + one_if s5 + one_if s6 +
   one_if s7 + one_if s8 + one_if s9)%nat.
Proof.
  unfold block_cells.
  change (cells SIZE SIZE) with
    [(0, 0); (0, 1); (0, 2); (1, 0); (1, 1); (1, 2); (2, 0); (2, 1); (2, 2)].
  rewrite !filter_cons, filter_nil.
  change (rd (shape {| shape := [[s1; s2; s3]; [s4; s5; s6]; [s7; s8; s9]];
                       color := c |}) (0, 0)) with s1.
  change (rd (shape {| shape := [[s1; s2; s3]; [s4; s5; s6]; [s7; s8; s9]];
                       color := c |}) (0, 1)) with s2.
  change (rd (shape {| shape := [[s1; s2; s3]; [s4; s5; s6]; [s7; s8; s9]];
                       color := c |}) (0, 2)) with s3.
  change (rd (shape {| shape := [[s1; s2; s3]; [s4; s5; s6]; [s7; s8; s9]];
                       color := c |}) (1, 0)) with s4.
  change (rd (shape {| shape := [[s1; s2; s3]; [s4; s5; s6]; [s7; s8; s9]];
                       color := c |}) (1, 1)) with s5.
  change (rd (shape {| shape := [[s1; s2; s3]; [s4; s5; s6]; [s7; s8; s9]];
                       color := c |}) (1, 2)) with s6.
  change (rd (shape {| shape := [[s1; s2; s3]; [s4; s5; s6]; [s7; s8; s9]];
                       color := c |}) (2, 0)) with s7.
  change (rd (shape {| shape := [[s1; s2; s3]; [s4; s5; s6]; [s7; s8; s9]];
                       color := c |}) (2, 1)) with s8.
  change (rd (shape {| shape := [[s1; s2; s3]; [s4; s5; s6]; [s7; s8; s9]];
                       color := c |}) (2, 2)) with s9.
  unfold one_if. repeat case_decide; reflexivity.
Qed.

(** X2: a rotation of a piece is again a piece: a 3x3 block with empty
    corners whose occupied cells are coloured in [1, K]; it has as many
    occupied cells as the piece it was made from, and the same centre cell. *)
Theorem rotate_keeps_piece (K : Z) (b : Block) :
  is_piece K b →
  is_piece K (rotateRight b) ∧ is_piece K (rotateLeft b) ∧
  length (block_cells (rotateRight b)) = length (block_cells b) ∧
  length (block_cells (rotateLeft b)) = length (block_cells b) ∧
  get (shape (rotateRight b)) 1 1 = get (shape b) 1 1 ∧
  get (shape (rotateLeft b)) 1 1 = get (shape b) 1 1 ∧
  get (color (rotateRight b)) 1 1 = get (color b) 1 1 ∧
  get (color (rotateLeft b)) 1 1 = get (color b) 1 1.
Proof.
  intros (Hb & Hcs & Hcc & Hcol).
  destruct (rotate_colored K b Hb Hcol) as [HcolR HcolL].
  destruct (rotate_preserves_block b) as [HbR HbL].
  destruct (rotate_corners b) as (H1 & H2 & H3 & H4).
  split; [exact (conj HbR (conj H1 (conj H2 HcolR)))|].
  split; [exact (conj HbL (conj H3 (conj H4 HcolL)))|].
  destruct b as [s c]. destruct Hb as [Hs Hc]. simpl in Hs, Hc, Hcs.
  apply grid_of_nine in Hs as (s1 & s2 & s3 & s4 & s5 & s6 & s7 & s8 & s9 & ->).
  apply grid_of_nine in Hc as (c1 & c2 & c3 & c4 & c5 & c6 & c7 & c8 & c9 & ->).
  destruct Hcs as (Hs1 & Hs3 & Hs7 & Hs9). cbv in Hs1, Hs3, Hs7, Hs9. subst.
  split; [|split; [|repeat split; reflexivity]].
  - change (rotateRight {| shape := [[0; s2; 0]; [s4; s5; s6]; [0; s8; 0]];
                           color := [[c1; c2; c3]; [c4; c5; c6]; [c7; c8; c9]] |})
      with {| shape := [[0; s4; 0]; [s8; s5; s2]; [0; s6; 0]];
              color := [[0; c4; 0]; [c8; c5; c2]; [0; c6; 0]] |}.
    rewrite !block_cells_nine. unfold one_if. repeat case_decide; try reflexivity; congruence.
  - change (rotateLeft {| shape := [[0; s2; 0]; [s4; s5; s6]; [0; s8; 0]];
                          color := [[c1; c2; c3]; [c4; c5; c6]; [c7; c8; c9]] |})
      with {| shape := [[0; s6; 0]; [s2; s5; s8]; [0; s4; 0]];
              color := [[0; c6; 0]; [c2; c5; c8]; [0; c4; 0]] |}.
    rewrite !block_cells_nine. unfold one_if. repeat case_decide; try reflexivity; congruence.
Qed.

Lemma domino_piece c0 c1 K :
  1 ≤ c0 ≤ K → 1 ≤ c1 ≤ K → is_piece K (domino_up c0 c1).
Proof.
  intros H0 H1. split; [repeat split; repeat constructor|].
  split; [repeat split|]. split; [repeat split|].
  intros y x [Hy Hx] Hocc. unfold SIZE in *.
  assert (y = 0 ∨ y = 1 ∨ y = 2) as [-> | [-> | ->]] by lia;
    assert (x = 0 ∨ x = 1 ∨ x = 2) as [-> | [-> | ->]] by lia;
    cbv in Hocc; try congruence.
  - change (get (color (domino_up c0 c1)) 0 1) with c0. lia.
  - change (get (color (domino_up c0 c1)) 1 1) with c1. lia.
Qed.

Lemma rotate_keeps_piece_witness :
  is_piece 4 (rotateRight (domino_up 1 2)) ∧ is_piece 4 (rotateLeft (domino_up 1 2)) ∧
  length (block_cells (rotateRight (domino_up 1 2))) = length (block_cells (domino_up 1 2)) ∧
  length (block_cells (rotateLeft (domino_up 1 2))) = length (block_cells (domino_up 1 2)) ∧
  get (shape (rotateRight (domino_up 1 2))) 1 1 = get (shape (domino_up 1 2)) 1 1 ∧
  get (shape (rotateLeft (domino_up 1 2))) 1 1 = get (shape (domino_up 1 2)) 1 1 ∧
  get (color (rotateRight (domino_up 1 2))) 1 1 = get (color (domino_up 1 2)) 1 1 ∧
  get (color (rotateLeft (domino_up 1 2))) 1 1 = get (color (domino_up 1 2)) 1 1.
Proof.
  apply (rotate_keeps_piece 4 (domino_up 1 2)). apply domino_piece; lia.
Defined.

Lemma makeBlock_eq st :
  makeBlock st =
    (domino_up (1 + Z.rem (rand_stream st (rand_calls st)) (max_colors st))
               (1 + Z.rem (rand_stream st (S (rand_calls st))) (max_colors st)),
     with_rand_calls st (S (S (rand_calls st)))).
Proof. reflexivity. Qed.

(** X3: makeBlock consumes exactly two values of rand and nothing else of the
    state; when max_colors >= 1 (rand never being negative) the block it
    writes is a piece: the vertical domino of the cells (0,1) and (1,1),
    corners empty, its two colours in [1, max_colors]. *)
Theorem makeBlock_piece (st : State) :
  1 ≤ max_colors st → (∀ n, 0 ≤ rand_stream st n) →
  is_piece (max_colors st) (makeBlock st).1 ∧
  block_cells (makeBlock st).1 = [(0, 1); (1, 1)] ∧
  (makeBlock st).2 = with_rand_calls st (S (S (rand_calls st))) ∧
  get (color (makeBlock st).1) 0 1 =
    1 + Z.rem (rand_stream st (rand_calls st)) (max_colors st) ∧
  get (color (makeBlock st).1) 1 1 =
    1 + Z.rem (rand_stream st (S (rand_calls st))) (max_colors st).
Proof.
  intros HK Hrand. rewrite makeBlock_eq. cbn [fst snd].
  pose proof (Z.rem_bound_pos (rand_stream st (rand_calls st)) (max_colors st)
                (Hrand _) ltac:(lia)) as H0.
  pose proof (Z.rem_bound_pos (rand_stream st (S (rand_calls st))) (max_colors st)
                (Hrand _) ltac:(lia)) as H1.
  split; [apply domino_piece; lia|]. by repeat split.
Qed.

Lemma makeBlock_piece_witness :
  let st := session (fill []) (domino_up 1 2) 4 0 in
  is_piece (max_colors st) (makeBlock st).1 ∧
  block_cells (makeBlock st).1 = [(0, 1); (1, 1)] ∧
  (makeBlock st).2 = with_rand_calls st (S (S (rand_calls st))) ∧
  get (color (makeBlock st).1) 0 1 =
    1 + Z.rem (rand_stream st (rand_calls st)) (max_colors st) ∧
  get (color (makeBlock st).1) 1 1 =
    1 + Z.rem (rand_stream st (S (rand_calls st))) (max_colors st).
Proof.
  apply makeBlock_piece; [simpl; lia|intros n; simpl; lia].
Defined.

Lemma colored_mono K K' b : K ≤ K' → colored K b → colored K' b.
Proof. intros HK Hcol y x Hyx Hocc. pose proof (Hcol y x Hyx Hocc). lia. Qed.

(** X4: whatever key is pressed in the menu, chooseDifficulty sets
    max_colors to a value from 4 to 7 and base_speed to the fall interval
    that goes with it (4 colours and 1.0 for the key 1, 5 and 0.8 for the
    key 2, 6 and 0.6 for the key 3, 7 and 0.45 for any other key), and it
    writes no other global of the state, so that (rand never being negative)
    the pieces made afterwards are coloured in [1, 7], the colour pairs main
    initialises. *)
Theorem chooseDifficulty_colors (choice : Z) (st : State) :
  (∀ n, 0 ≤ rand_stream st n) →
  4 ≤ max_colors (chooseDifficulty choice st) ≤ 7 ∧
  chooseDifficulty choice st =
    with_difficulty st (max_colors (chooseDifficulty choice st))
                    (base_speed (chooseDifficulty choice st)) ∧
  (max_colors (chooseDifficulty choice st) = 4 ↔ choice = 49) ∧
  (max_colors (chooseDifficulty choice st) = 5 ↔ choice = 50) ∧
  (max_colors (chooseDifficulty choice st) = 6 ↔ choice = 51) ∧
  (choice = 49 → base_speed (chooseDifficulty choice st) = 1%Q) ∧
  (choice = 50 → base_speed (chooseDifficulty choice st) = (8 # 10)%Q) ∧
  (choice = 51 → base_speed (chooseDifficulty choice st) = (6 # 10)%Q) ∧
  (choice ≠ 49 → choice ≠ 50 → choice ≠ 51 →
     base_speed (chooseDifficulty choice st) = (45 # 100)%Q) ∧
  base_speed (chooseDifficulty choice st) =
    difficulty_speed (max_colors (chooseDifficulty choice st)) ∧
  colored 7 (makeBlock (chooseDifficulty choice st)).1 ∧
  colored 7 (makeBlock (makeBlock (chooseDifficulty choice st)).2).1.
Proof.
  intros Hrand.
  assert (4 ≤ max_colors (chooseDifficulty choice st) ≤ 7 ∧
          chooseDifficulty choice st =
            with_difficulty st (max_colors (chooseDifficulty choice st))
                            (base_speed (chooseDifficulty choice st)) ∧
          (max_colors (chooseDifficulty choice st) = 4 ↔ choice = 49) ∧
          (max_colors (chooseDifficulty choice st) = 5 ↔ choice = 50) ∧
          (max_colors (chooseDifficulty choice st) = 6 ↔ choice = 51) ∧
          (choice = 49 → base_speed (chooseDifficulty choice st) = 1%Q) ∧
          (choice = 50 → base_speed (chooseDifficulty choice st) = (8 # 10)%Q) ∧
          (choice = 51 → base_speed (chooseDifficulty choice st) = (6 # 10)%Q) ∧
          (choice ≠ 49 → choice ≠ 50 → choice ≠ 51 →
             base_speed (chooseDifficulty choice st) = (45 # 100)%Q) ∧
          base_speed (chooseDifficulty choice st) =
            difficulty_speed (max_colors (chooseDifficulty choice st)))
    as (Hrange & Heq & H4 & H5 & H6 & S1 & S2 & S3 & S4 & S5).
  { unfold chooseDifficulty.
    destruct (choice =? 49) eqn:E1;
      [apply Z.eqb_eq in E1; simpl; repeat split; (lia || done)|].
    destruct (choice =? 50) eqn:E2;
      [apply Z.eqb_eq in E2; simpl; repeat split; (lia || done)|].
    destruct (choice =? 51) eqn:E3;
      [apply Z.eqb_eq in E3; simpl; repeat split; (lia || done)|].
    apply Z.eqb_neq in E1, E2, E3. simpl. repeat split; (lia || done). }
  split; [exact Hrange|]. split; [exact Heq|]. split; [exact H4|].
  split; [exact H5|]. split; [exact H6|]. split; [exact S1|]. split; [exact S2|].
  split; [exact S3|]. split; [exact S4|]. split; [exact S5|].
  set (st1 := chooseDifficulty choice st) in *.
  assert (∀ n, 0 ≤ rand_stream st1 n) as Hrand1.
  { rewrite Heq. exact Hrand. }
  split.
  - apply (colored_mono (max_colors st1)); [lia|].
    apply makeBlock_colored; [lia|exact Hrand1].
  - apply (colored_mono (max_colors st1)); [lia|].
    rewrite makeBlock_eq. cbn [snd].
    change (max_colors st1) with
      (max_colors (with_rand_calls st1 (S (S (rand_calls st1))))).
    apply makeBlock_colored; [simpl; lia|exact Hrand1].
Qed.

Lemma chooseDifficulty_colors_witness :
  let st := session (fill []) (domino_up 1 2) 4 0 in
  4 ≤ max_colors (chooseDifficulty 50 st) ≤ 7 ∧
  chooseDifficulty 50 st =
    with_difficulty st (max_colors (chooseDifficulty 50 st))
                    (base_speed (chooseDifficulty 50 st)) ∧
  (max_colors (chooseDifficulty 50 st) = 4 ↔ 50 = 49) ∧
  (max_colors (chooseDifficulty 50 st) = 5 ↔ 50 = 50) ∧
  (max_colors (chooseDifficulty 50 st) = 6 ↔ 50 = 51) ∧
  (50 = 49 → base_speed (chooseDifficulty 50 st) = 1%Q) ∧
  (50 = 50 → base_speed (chooseDifficulty 50 st) = (8 # 10)%Q) ∧
  (50 = 51 → base_speed (chooseDifficulty 50 st) = (6 # 10)%Q) ∧
  (50 ≠ 49 → 50 ≠ 50 → 50 ≠ 51 →
     base_speed (chooseDifficulty 50 st) = (45 # 100)%Q) ∧
  base_speed (chooseDifficulty 50 st) =
    difficulty_speed (max_colors (chooseDifficulty 50 st)) ∧
  colored 7 (makeBlock (chooseDifficulty 50 st)).1 ∧
  colored 7 (makeBlock (makeBlock (chooseDifficulty 50 st)).2).1.
Proof.
  apply (chooseDifficulty_colors 50 (session (fill []) (domino_up 1 2) 4 0)).
  intros n. simpl. lia.
Defined.

(** * placeBlock: the cells it writes *)

Lemma placeBlock_fold b bx by_ todo bd bc :
  is_board bd → is_board bc →
  is_board (foldl (placeBlock_cell b bx by_) (bd, bc) todo).1 ∧
  is_board (foldl (placeBlock_cell b bx by_) (bd, bc) todo).2 ∧
  ∀ d, on_board d →
    ((d.1 - by_, d.2 - bx) ∈ todo → get (shape b) (d.1 - by_) (d.2 - bx) ≠ 0 →
       rd (foldl (placeBlock_cell b bx by_) (bd, bc) todo).1 d = 1 ∧
       rd (foldl (placeBlock_cell b bx by_) (bd, bc) todo).2 d =
         get (color b) (d.1 - by_) (d.2 - bx)) ∧
    (¬ ((d.1 - by_, d.2 - bx) ∈ todo ∧ get (shape b) (d.1 - by_) (d.2 - bx) ≠ 0) →
       rd (foldl (placeBlock_cell b bx by_) (bd, bc) todo).1 d = rd bd d ∧
       rd (foldl (placeBlock_cell b bx by_) (bd, bc) todo).2 d = rd bc d).
Proof.
  revert bd bc. induction todo as [|[y0 x0] rest IH]; intros bd bc Hbd Hbc.
  - simpl. split; [exact Hbd|]. split; [exact Hbc|]. intros d Hd.
    split; [intros Hin; inversion Hin|done].
  - change (foldl (placeBlock_cell b bx by_) (bd, bc) ((y0, x0) :: rest))
      with (foldl (placeBlock_cell b bx by_) (placeBlock_cell b bx by_ (bd, bc) (y0, x0)) rest).
    assert (∃ bd1 bc1, placeBlock_cell b bx by_ (bd, bc) (y0, x0) = (bd1, bc1) ∧
              is_board bd1 ∧ is_board bc1 ∧
              ∀ d, on_board d →
                ((d.1 - by_, d.2 - bx) = (y0, x0) → get (shape b) y0 x0 ≠ 0 →
                   rd bd1 d = 1 ∧ rd bc1 d = get (color b) y0 x0) ∧
                (¬ ((d.1 - by_, d.2 - bx) = (y0, x0) ∧ get (shape b) y0 x0 ≠ 0) →
                   rd bd1 d = rd bd d ∧ rd bc1 d = rd bc d))
      as (bd1 & bc1 & -> & Hbd1 & Hbc1 & Hstep).
    { unfold placeBlock_cell.
      destruct (truthy (get (shape b) y0 x0)) eqn:Hocc.
      - apply truthy_true in Hocc.
        destruct ((by_ + y0 >=? 0) && (by_ + y0 <? HEIGHT) && (bx + x0 >=? 0)
                  && (bx + x0 <? WIDTH)) eqn:Hrange.
        + rewrite !andb_true_iff in Hrange. destruct Hrange as [[[H1 H2] H3] H4].
          assert (on_board (by_ + y0, bx + x0)) as Hon by (split; simpl; lia).
          do 2 eexists. split; [reflexivity|].
          split; [by apply dims_put|]. split; [by apply dims_put|].
          intros [dy dx] Hd. simpl. split.
          * intros Heq _. inversion Heq as [[Hy0 Hx0]].
            replace (by_ + (dy - by_)) with dy by lia.
            replace (bx + (dx - bx)) with dx by lia.
            split; by apply (rd_put_eq _ (dy, dx)).
          * intros Hne.
            assert ((by_ + y0, bx + x0) ≠ (dy, dx)) as Hne'.
            { intros Heq. inversion Heq; subst. apply Hne.
              split; [f_equal; lia|exact Hocc]. }
            split; by apply (rd_put_ne _ (by_ + y0, bx + x0)).
        + do 2 eexists. split; [reflexivity|]. split; [exact Hbd|]. split; [exact Hbc|].
          intros [dy dx] Hd. simpl. split; [|done].
          intros Heq _. exfalso. inversion Heq; subst.
          destruct Hd as [Hy Hx]. simpl in *.
          rewrite !andb_false_iff in Hrange. lia.
      - apply truthy_false in Hocc.
        do 2 eexists. split; [reflexivity|]. split; [exact Hbd|]. split; [exact Hbc|].
        intros d Hd. split; [intros _ Hne; contradiction|done]. }
    destruct (IH bd1 bc1 Hbd1 Hbc1) as (Hb' & Hc' & Hrest).
    split; [exact Hb'|]. split; [exact Hc'|].
    intros d Hd. destruct (Hrest d Hd) as [Hin Hout]. destruct (Hstep d Hd) as [Hhere Haway].
    split.
    + intros Hmem Hocc.
      destruct (decide ((d.1 - by_, d.2 - bx) ∈ rest)) as [Hr|Hr]; [by apply Hin|].
      apply elem_of_cons in Hmem as [Heq|Hmem]; [|contradiction].
      destruct Hout as [-> ->]; [by intros [? _]|].
      inversion Heq as [[Hy0 Hx0]]. rewrite Hy0, Hx0 in Hocc |- *.
      apply Hhere; [by rewrite Hy0, Hx0|exact Hocc].
    + intros Hno.
      destruct Hout as [-> ->].
      { intros [Hr Hocc]. apply Hno. split; [by right|exact Hocc]. }
      apply Haway. intros [Heq Hocc]. apply Hno. split; [rewrite Heq; by left|].
      inversion Heq as [[Hy0 Hx0]]. by rewrite Hy0, Hx0.
Qed.

(** X5: placeBlock writes exactly the occupied cells of the piece that lie
    on the board: the board cell under an occupied local cell becomes
    occupied (1) with that cell's colour; local cells above the top or
    beside the board are skipped; every other board cell and everything
    else in the state are left as they were. *)
Theorem placeBlock_writes (b : Block) (bx by_ : Z) (st : State) :
  is_board (board st) → is_board (board_color st) →
  is_board (board (placeBlock b bx by_ st)) ∧
  is_board (board_color (placeBlock b bx by_ st)) ∧
  placeBlock b bx by_ st =
    with_board st (board (placeBlock b bx by_ st))
               (board_color (placeBlock b bx by_ st)) ∧
  ∀ d, on_board d →
    (in_block (d.1 - by_) (d.2 - bx) → get (shape b) (d.1 - by_) (d.2 - bx) ≠ 0 →
       rd (board (placeBlock b bx by_ st)) d = 1 ∧
       rd (board_color (placeBlock b bx by_ st)) d =
         get (color b) (d.1 - by_) (d.2 - bx)) ∧
    (¬ (in_block (d.1 - by_) (d.2 - bx) ∧ get (shape b) (d.1 - by_) (d.2 - bx) ≠ 0) →
       rd (board (placeBlock b bx by_ st)) d = rd (board st) d ∧
       rd (board_color (placeBlock b bx by_ st)) d = rd (board_color st) d).
Proof.
  intros Hbd Hbc. unfold placeBlock.
  destruct (placeBlock_fold b bx by_ (cells SIZE SIZE) (board st) (board_color st) Hbd Hbc)
    as (Hb' & Hc' & Hcells).
  destruct (foldl (placeBlock_cell b bx by_) (board st, board_color st) (cells SIZE SIZE))
    as [bd' bc'].
  cbn [fst snd] in *. simpl.
  split; [exact Hb'|]. split; [exact Hc'|]. split; [reflexivity|].
  intros d Hd. destruct (Hcells d Hd) as [Hin Hout]. split.
  - intros Hblock. apply Hin. by apply elem_of_cells.
  - intros Hno. apply Hout. intros [Hmem Hocc]. apply Hno.
    split; [by apply elem_of_cells in Hmem|exact Hocc].
Qed.

Lemma placeBlock_writes_witness :
  let st := session (fill [(19, 4, 1)]) (domino_up 1 2) 3 17 in
  is_board (board (placeBlock (current st) 3 17 st)) ∧
  is_board (board_color (placeBlock (current st) 3 17 st)) ∧
  placeBlock (current st) 3 17 st =
    with_board st (board (placeBlock (current st) 3 17 st))
               (board_color (placeBlock (current st) 3 17 st)) ∧
  rd (board (placeBlock (current st) 3 17 st)) (18, 4) = 1 ∧
  rd (board_color (placeBlock (current st) 3 17 st)) (18, 4) = 2.
Proof.
  intros st.
  destruct (placeBlock_writes (current st) 3 17 st) as (H1 & H2 & H3 & H4);
    [apply fill_is_board|apply fill_is_board|].
  split; [exact H1|]. split; [exact H2|]. split; [exact H3|].
  apply (H4 (18, 4)).
  - split; simpl; unfold HEIGHT, WIDTH; lia.
  - split; simpl; unfold SIZE; lia.
  - discriminate.
Defined.

(** the cells of the boards after placeBlock, read through the piece *)
Lemma placeBlock_cells b bx by_ st :
  is_board (board st) → is_board (board_color st) →
  ∀ d, on_board d →
    (in_block (d.1 - by_) (d.2 - bx) → get (shape b) (d.1 - by_) (d.2 - bx) ≠ 0 →
       rd (board (placeBlock b bx by_ st)) d = 1 ∧
       rd (board_color (placeBlock b bx by_ st)) d =
         get (color b) (d.1 - by_) (d.2 - bx)) ∧
    (¬ (in_block (d.1 - by_) (d.2 - bx) ∧ get (shape b) (d.1 - by_) (d.2 - bx) ≠ 0) →
       rd (board (placeBlock b bx by_ st)) d = rd (board st) d ∧
       rd (board_color (placeBlock b bx by_ st)) d = rd (board_color st) d).
Proof.
  intros Hbd Hbc. unfold placeBlock.
  destruct (placeBlock_fold b bx by_ (cells SIZE SIZE) (board st) (board_color st) Hbd Hbc)
    as (_ & _ & Hcells).
  destruct (foldl (placeBlock_cell b bx by_) (board st, board_color st) (cells SIZE SIZE))
    as [bd' bc'].
  cbn [fst snd] in *. simpl.
  intros d Hd. destruct (Hcells d Hd) as [Hin Hout]. split.
  - intros Hblock. apply Hin. by apply elem_of_cells.
  - intros Hno. apply Hout. intros [Hmem Hocc]. apply Hno.
    split; [by apply elem_of_cells in Hmem|exact Hocc].
Qed.

(** X6: a piece placed where checkCollision reports no collision is written
    on free cells only: no occupied cell of the board is overwritten, the
    stack and its colours are the same after placeBlock, and every cell
    placeBlock writes was empty before. *)
Theorem placeBlock_on_free_cells (b : Block) (bx by_ : Z) (st : State) :
  is_board (board st) → is_board (board_color st) →
  checkCollision (board st) b bx by_ = 0 →
  (∀ d, on_board d → rd (board st) d ≠ 0 →
     rd (board (placeBlock b bx by_ st)) d = rd (board st) d ∧
     rd (board_color (placeBlock b bx by_ st)) d = rd (board_color st) d) ∧
  (∀ d, on_board d →
     rd (board (placeBlock b bx by_ st)) d ≠ rd (board st) d → rd (board st) d = 0).
Proof.
  intros Hbd Hbc Hfree.
  pose proof (placeBlock_cells b bx by_ st Hbd Hbc) as Hcells.
  destruct (checkCollision_cases (board st) b bx by_) as [[Hc _]|[_ Hnone]];
    [rewrite Hfree in Hc; discriminate|].
  assert (∀ d, on_board d → in_block (d.1 - by_) (d.2 - bx) →
               get (shape b) (d.1 - by_) (d.2 - bx) ≠ 0 → rd (board st) d = 0) as Hempty.
  { intros [dy dx] [Hy Hx] Hblock Hocc. simpl in *.
    destruct (decide (get (board st) dy dx = 0)) as [|Hne]; [assumption|].
    exfalso. apply (Hnone _ _ Hblock). split; [exact Hocc|].
    right; right; right.
    replace (by_ + (dy - by_)) with dy by lia.
    replace (bx + (dx - bx)) with dx by lia. split; [lia|exact Hne]. }
  split.
  - intros d Hd Hocc. apply (Hcells d Hd). intros [Hblock Hs].
    apply Hocc. by apply Hempty.
  - intros d Hd Hchanged.
    destruct (decide (in_block (d.1 - by_) (d.2 - bx) ∧
                      get (shape b) (d.1 - by_) (d.2 - bx) ≠ 0)) as [[H1 H2]|Hno].
    + by apply Hempty.
    + exfalso. apply Hchanged. by apply (Hcells d Hd).
Qed.

Lemma placeBlock_on_free_cells_witness :
  let st := session (fill [(19, 4, 1)]) (domino_up 1 2) 3 17 in
  rd (board (placeBlock (current st) 3 17 st)) (19, 4) = rd (board st) (19, 4) ∧
  rd (board_color (placeBlock (current st) 3 17 st)) (19, 4) = rd (board_color st) (19, 4).
Proof.
  intros st.
  destruct (placeBlock_on_free_cells (current st) 3 17 st) as [Hkeep _];
    [apply fill_is_board|apply fill_is_board|reflexivity|].
  apply Hkeep; [split; simpl; unfold HEIGHT, WIDTH; lia|discriminate].
Defined.

(** * hardDrop: the way down *)

(** X7: when hardDrop returns, only cy has changed and the piece has moved
    straight down through collision-free positions to the first position
    from which it cannot move down: every position passed, the final one
    included, is collision-free, the next row collides, and a second
    hardDrop leaves the piece where it is. *)
Theorem hardDrop_lands (fuel : nat) (st st' : State) :
  hardDrop fuel st = Some st' →
  st' = with_pos st (cx st) (cy st') ∧ cy st ≤ cy st' ∧
  checkCollision (board st) (current st) (cx st) (cy st' + 1) ≠ 0 ∧
  (∀ y, cy st < y ≤ cy st' →
        checkCollision (board st) (current st) (cx st) y = 0) ∧
  (piece_free st → piece_free st') ∧
  hardDrop fuel st' = Some st'.
Proof.
  revert st. induction fuel as [|fuel IH]; intros st Hrun; [discriminate|].
  rewrite hardDrop_S in Hrun.
  destruct (truthy (checkCollision (board st) (current st) (cx st) (cy st + 1))) eqn:Hc.
  - simpl in Hrun. inversion Hrun; subst st'.
    split; [by rewrite with_pos_same|]. split; [lia|].
    split; [by apply truthy_true|]. split; [intros y Hy; lia|].
    split; [done|]. rewrite hardDrop_S, Hc. reflexivity.
  - simpl in Hrun. apply truthy_false in Hc.
    destruct (IH _ Hrun) as (Heq & Hle & Hstop & Hpath & _ & Hagain).
    cbn [board current cx cy with_pos] in Heq, Hle, Hstop, Hpath.
    split; [exact Heq|]. split; [lia|]. split; [exact Hstop|].
    assert (∀ y, cy st < y ≤ cy st' →
                 checkCollision (board st) (current st) (cx st) y = 0) as Hall.
    { intros y Hy. destruct (decide (y = cy st + 1)) as [->|Hne]; [exact Hc|].
      apply Hpath. lia. }
    split; [exact Hall|]. split.
    + intros _. unfold piece_free. rewrite Heq. cbn [board current cx cy with_pos].
      apply Hall. lia.
    + destruct fuel as [|fuel']; [discriminate|].
      rewrite hardDrop_S in Hagain |- *.
      destruct (negb (truthy (checkCollision (board st') (current st') (cx st')
                                (cy st' + 1)))) eqn:Hneg; [|reflexivity].
      exfalso. apply negb_true_iff, truthy_false in Hneg.
      apply Hstop. rewrite Heq in Hneg. exact Hneg.
Qed.

Lemma hardDrop_lands_witness :
  let st := session (fill [(19, 4, 1)]) (domino_up 1 2) 3 0 in
  let st' := with_pos st 3 17 in
  st' = with_pos st (cx st) (cy st') ∧ cy st ≤ cy st' ∧
  checkCollision (board st) (current st) (cx st) (cy st' + 1) ≠ 0 ∧
  (piece_free st → piece_free st') ∧
  hardDrop 30 st' = Some st'.
Proof.
  intros st st'.
  destruct (hardDrop_lands 30 st st') as (H1 & H2 & H3 & _ & H5 & H6);
    [vm_compute; reflexivity|].
  by repeat split.
Defined.

(** * The keys that move the piece *)

Lemma attemptRotation_from_cases rotated nx ny st todo :
  attemptRotation_from rotated nx ny st todo = (0, nx, ny, st) ∨
  ∃ ox oy, (ox, oy) ∈ todo ∧
    checkCollision (board st) rotated (nx + ox) (ny + oy) = 0 ∧
    attemptRotation_from rotated nx ny st todo =
      (1, nx + ox, ny + oy, with_current st rotated).
Proof.
  induction todo as [|[ox0 oy0] rest IH]; [by left|].
  simpl.
  destruct (truthy (checkCollision (board st) rotated (nx + ox0) (ny + oy0))) eqn:Hc.
  - simpl. destruct IH as [IH|(ox & oy & Hin & Hfree & Heq)]; [by left|].
    right. exists ox, oy. split; [by right|]. by split.
  - simpl. apply truthy_false in Hc. right. exists ox0, oy0.
    split; [by left|]. by split.
Qed.

Lemma key_rotate_cases rot st :
  key_rotate rot st = st ∨
  ∃ ox oy, (ox, oy) ∈ offsets ∧
    checkCollision (board st) (rot (current st)) (cx st + ox) (cy st + oy) = 0 ∧
    key_rotate rot st =
      with_pos (with_current st (rot (current st))) (cx st + ox) (cy st + oy).
Proof.
  unfold key_rotate, attemptRotation.
  destruct (attemptRotation_from_cases (rot (current st)) (cx st) (cy st) st offsets)
    as [->|(ox & oy & Hin & Hfree & ->)].
  - left. apply with_pos_same.
  - right. exists ox, oy. by repeat split.
Qed.

Lemma offsets_small ox oy : (ox, oy) ∈ offsets → -1 ≤ ox ≤ 1 ∧ -1 ≤ oy ≤ 0.
Proof.
  unfold offsets. intros Hin.
  repeat (apply elem_of_cons in Hin as [Heq|Hin]; [inversion Heq; lia|]).
  inversion Hin.
Qed.

(** a position is accepted by checkCollision exactly when no occupied cell
    of the piece is beside the board, below it or on an occupied cell; rows
    above the board are accepted *)
Lemma piece_free_clear st : piece_free st ↔ piece_clear st.
Proof.
  unfold piece_free, piece_clear. split.
  - intros Hfree yy xx Hin Hocc.
    destruct (checkCollision_cases (board st) (current st) (cx st) (cy st))
      as [[Hc _]|[_ Hnone]]; [congruence|].
    assert (¬ cell_blocked (board st) (current st) (cx st) (cy st) yy xx) as Hnot
      by (by apply Hnone).
    unfold cell_blocked in Hnot.
    split; [split|split].
    + destruct (decide (0 ≤ cx st + xx)) as [|Hn]; [assumption|].
      exfalso. apply Hnot. split; [exact Hocc|]. left. lia.
    + destruct (decide (cx st + xx < WIDTH)) as [|Hn]; [assumption|].
      exfalso. apply Hnot. split; [exact Hocc|]. right; left. lia.
    + destruct (decide (cy st + yy < HEIGHT)) as [|Hn]; [assumption|].
      exfalso. apply Hnot. split; [exact Hocc|]. right; right; left. lia.
    + intros Hrow.
      destruct (decide (get (board st) (cy st + yy) (cx st + xx) = 0)) as [|Hn];
        [assumption|].
      exfalso. apply Hnot. split; [exact Hocc|]. right; right; right. by split.
  - intros Hclear.
    destruct (checkCollision_cases (board st) (current st) (cx st) (cy st))
      as [[_ (yy & xx & Hin & Hocc & Hbl)]|[Hc _]]; [|exact Hc].
    destruct (Hclear yy xx Hin Hocc) as (Hcol & Hrow & Hempty).
    destruct Hbl as [?|[?|[?|[Hrow' Hhit]]]]; [lia|lia|lia|].
    exfalso. apply Hhit. by apply Hempty.
Qed.



(** * Gravity: where the cells go *)

Lemma NoDup_cells : NoDup (cells HEIGHT WIDTH).
Proof. apply (bool_decide_eq_true_1 _). vm_compute. reflexivity. Qed.

Lemma NoDup_stones bd : NoDup (stones bd).
Proof. apply list.NoDup_filter, NoDup_cells. Qed.

(** a property of the cells of the board can be checked cell by cell *)
Lemma on_board_all (P : Z * Z → Prop) `{!∀ c, Decision (P c)} :
  bool_decide (Forall P (cells HEIGHT WIDTH)) = true → ∀ c, on_board c → P c.
Proof.
  intros Hall [y x] Hc. apply bool_decide_eq_true_1 in Hall.
  rewrite list.Forall_forall in Hall. apply Hall. by apply elem_of_cells.
Qed.

Lemma landing_below bd c : c.1 ≤ (landing bd c).1 ∧ (landing bd c).2 = c.2.
Proof.
  split; [|reflexivity]. simpl. by destruct (fall_rests bd c.2 c.1) as (Hle & _).
Qed.

Lemma landing_same bd c : landing bd c = c ↔ fall bd c.2 c.1 = c.1.
Proof.
  destruct c as [y x]. unfold landing. simpl. split.
  - intros Heq. by apply (f_equal fst) in Heq.
  - intros Heq. by rewrite Heq.
Qed.

Lemma gravityFailSafe_stones st :
  stones (board (gravityFailSafe st).2) ≡ₚ landing (board st) <$> stones (board st).
Proof.
  destruct (gravityFailSafe_spec st) as (_ & Hcells & _).
  apply NoDup_Permutation.
  - apply NoDup_stones.
  - apply NoDup_fmap_2_strong; [|apply NoDup_stones].
    intros c c' Hc Hc' Heq. apply elem_of_stones in Hc as [_ Hc], Hc' as [_ Hc'].
    by apply (landing_injective (board st)).
  - intros d. rewrite elem_of_stones, list_elem_of_fmap. split.
    + intros [Hd Hocc]. apply Hcells in Hocc as (c & Hc & Hocc & ->).
      exists c. split; [reflexivity|]. by apply elem_of_stones.
    + intros (c & -> & Hc). apply elem_of_stones in Hc as [Hc Hocc].
      split; [destruct c; by apply fall_on_board|].
      apply Hcells. by exists c.
Qed.

Lemma rows_sum_perm l l' : l ≡ₚ l' → rows_sum l = rows_sum l'.
Proof.
  induction 1 as [|c l l' _ IH|c d l|l l' l'' _ IH1 _ IH2]; simpl; lia.
Qed.

Lemma rows_sum_landing bd l :
  rows_sum l ≤ rows_sum (landing bd <$> l) ∧
  (rows_sum (landing bd <$> l) = rows_sum l → ∀ c, c ∈ l → landing bd c = c).
Proof.
  induction l as [|c l [IHle IHeq]].
  - split; [simpl; lia|]. intros _ c Hc. inversion Hc.
  - rewrite fmap_cons.
    change (rows_sum (landing bd c :: (landing bd <$> l)))
      with (fall bd c.2 c.1 + rows_sum (landing bd <$> l)).
    change (rows_sum (c :: l)) with (c.1 + rows_sum l).
    destruct (fall_rests bd c.2 c.1) as (Hle & _). split; [lia|].
    intros Heq d Hd. apply elem_of_cons in Hd as [->|Hd].
    + apply landing_same. lia.
    + apply IHeq; [lia|exact Hd].
Qed.

Lemma rows_sum_stones bd : 0 ≤ rows_sum (stones bd) ≤ 1900.
Proof.
  unfold stones.
  assert (∀ l : list (Z * Z), (∀ c, c ∈ l → 0 ≤ c.1) →
            0 ≤ rows_sum (filter (λ c, rd bd c ≠ 0) l) ≤ rows_sum l) as Hsub.
  { induction l as [|c l IH]; intros Hpos; [simpl; lia|].
    assert (0 ≤ c.1) by (apply Hpos; by left).
    assert (0 ≤ rows_sum (filter (λ c, rd bd c ≠ 0) l) ≤ rows_sum l)
      by (apply IH; intros d Hd; apply Hpos; by right).
    rewrite filter_cons. destruct (decide (rd bd c ≠ 0)); simpl; lia. }
  assert (rows_sum (cells HEIGHT WIDTH) = 1900) as <- by (vm_compute; reflexivity).
  apply Hsub. intros [y x] Hc. apply elem_of_cells in Hc. simpl. lia.
Qed.

(** X9: one gravityFailSafe step carries every occupied cell, with its
    colour, down its own column to the cell on which it lands; two occupied
    cells never land on the same cell, so no cell is lost or merged: the
    occupied cells after the step are, up to order, the landing cells of the
    occupied cells before it.  The new occupancy board holds only 0 and 1,
    nothing but the two boards changes, and the step returns 0 exactly when
    every occupied cell lands where it is, 1 otherwise. *)
Theorem gravityFailSafe_carries_cells (st : State) :
  (gravityFailSafe st).2 =
    with_board st (board (gravityFailSafe st).2) (board_color (gravityFailSafe st).2) ∧
  (∀ c c', rd (board st) c ≠ 0 → rd (board st) c' ≠ 0 →
     landing (board st) c = landing (board st) c' → c = c') ∧
  (∀ c, on_board c → rd (board st) c ≠ 0 →
     on_board (landing (board st) c) ∧
     c.1 ≤ (landing (board st) c).1 ∧ (landing (board st) c).2 = c.2 ∧
     rd (board (gravityFailSafe st).2) (landing (board st) c) = 1 ∧
     rd (board_color (gravityFailSafe st).2) (landing (board st) c) =
       rd (board_color st) c) ∧
  stones (board (gravityFailSafe st).2) ≡ₚ landing (board st) <$> stones (board st) ∧
  (∀ d, d ∉ stones (board (gravityFailSafe st).2) →
     rd (board (gravityFailSafe st).2) d = 0 ∧
     rd (board_color (gravityFailSafe st).2) d = 0) ∧
  binary (board (gravityFailSafe st).2) ∧
  ((gravityFailSafe st).1 = 0 ∨ (gravityFailSafe st).1 = 1) ∧
  ((gravityFailSafe st).1 = 0 ↔
     ∀ c, c ∈ stones (board st) → landing (board st) c = c).
Proof.
  destruct (gravityFailSafe_cells st) as (Hframe & Hb & Hbc & Hmv & Hland & Hfree).
  destruct (gravityFailSafe_spec st) as (_ & Hcells & Hmoved).
  pose proof (gravityFailSafe_stones st) as Hperm.
  assert (∀ d, d ∉ stones (board (gravityFailSafe st).2) →
            rd (board (gravityFailSafe st).2) d = 0 ∧
            rd (board_color (gravityFailSafe st).2) d = 0) as Hempty.
  { intros d Hd. apply Hfree. intros c Hc Hocc <-. apply Hd.
    rewrite Hperm. apply list_elem_of_fmap. exists c. split; [reflexivity|].
    by apply elem_of_stones. }
  split; [exact Hframe|]. split; [apply landing_injective|]. split.
  { intros c Hc Hocc. split; [destruct c; by apply fall_on_board|].
    split; [apply landing_below|]. split; [reflexivity|]. by apply Hland. }
  split; [exact Hperm|]. split; [exact Hempty|]. split.
  { intros d Hd. destruct (decide (d ∈ stones (board (gravityFailSafe st).2))) as [Hin|Hout].
    - right. rewrite Hperm in Hin. apply list_elem_of_fmap in Hin as (c & -> & Hc).
      apply elem_of_stones in Hc as [Hc Hocc]. by apply Hland.
    - left. by apply Hempty. }
  split; [exact Hmv|]. rewrite Hmoved. split.
  - intros Hall c Hc. apply elem_of_stones in Hc as [Hc Hocc].
    apply landing_same. by apply Hall.
  - intros Hall c Hc Hocc. apply landing_same. apply Hall. by apply elem_of_stones.
Qed.

(** a step that moves nothing leaves the state as it is, on boards that
    hold 0 or 1 and colour 0 on the empty cells *)
Lemma gravityFailSafe_same st :
  is_board (board st) → is_board (board_color st) →
  binary (board st) → color_inv (board st) (board_color st) →
  (gravityFailSafe st).1 = 0 → (gravityFailSafe st).2 = st.
Proof.
  intros Hbd Hbc Hbin Hinv Hrest.
  destruct (gravityFailSafe_cells st) as (Hframe & Hb & Hbc' & _ & Hland & Hfree).
  destruct (gravityFailSafe_spec st) as (_ & _ & Hmoved).
  pose proof (proj1 Hmoved Hrest) as Hstay.
  assert (∀ c, on_board c →
            rd (board (gravityFailSafe st).2) c = rd (board st) c ∧
            rd (board_color (gravityFailSafe st).2) c = rd (board_color st) c) as Hsame.
  { intros c Hc. destruct (decide (rd (board st) c = 0)) as [Hz|Hocc].
    - destruct (Hfree c) as [-> ->].
      + intros c' Hc' Hocc' Heq. apply Hocc'.
        assert (landing (board st) c' = c') as Hl by (apply landing_same; by apply Hstay).
        by rewrite <- Hl, Heq.
      + split; [by rewrite Hz|]. symmetry. by apply Hinv.
    - assert (landing (board st) c = c) as Hl by (apply landing_same; by apply Hstay).
      destruct (Hland c Hc Hocc) as [H1 H2]. rewrite Hl in H1, H2.
      split; [|exact H2]. rewrite H1. destruct (Hbin c Hc); congruence. }
  rewrite Hframe.
  assert (board (gravityFailSafe st).2 = board st) as ->.
  { apply (grid_ext HEIGHT WIDTH); [assumption..|].
    intros y x Hy Hx. by apply (Hsame (y, x)). }
  assert (board_color (gravityFailSafe st).2 = board_color st) as ->.
  { apply (grid_ext HEIGHT WIDTH); [assumption..|].
    intros y x Hy Hx. by apply (Hsame (y, x)). }
  by destruct st.
Qed.

(** X10: on boards as the program keeps them (occupancy 0 or 1, colour 0 on
    the empty cells), a gravityFailSafe step returns 0 if and only if it
    leaves the whole state as it was; in particular a step that returns 1 has
    changed the board. *)
Theorem gravityFailSafe_fixpoint (st : State) :
  is_board (board st) → is_board (board_color st) →
  binary (board st) → color_inv (board st) (board_color st) →
  ((gravityFailSafe st).1 = 0 ↔ (gravityFailSafe st).2 = st).
Proof.
  intros Hbd Hbc Hbin Hinv. split; [by apply gravityFailSafe_same|].
  intros Hsame. apply gravityFailSafe_spec. intros c Hc Hocc.
  apply landing_same.
  apply (proj2 (rows_sum_landing (board st) (stones (board st)))).
  - rewrite <- (rows_sum_perm _ _ (gravityFailSafe_stones st)). by rewrite Hsame.
  - by apply elem_of_stones.
Qed.

Lemma gravityFailSafe_fixpoint_witness :
  let st := session (fill [(19, 4, 1); (18, 4, 2); (19, 6, 3)]) (domino_up 1 2) 4 0 in
  (gravityFailSafe st).1 = 0 ↔ (gravityFailSafe st).2 = st.
Proof.
  intros st. apply (gravityFailSafe_fixpoint st).
  - apply fill_is_board.
  - apply fill_is_board.
  - refine (on_board_all (λ c, rd (board st) c = 0 ∨ rd (board st) c = 1) _).
    vm_compute. reflexivity.
  - refine (on_board_all (λ c, rd (board_color st) c = 0 ↔ rd (board st) c = 0) _).
    vm_compute. reflexivity.
Defined.

(** * Gravity: the loop *)

Lemma animateGravity_gravity fuel st : animateGravity fuel st = gravity fuel st.
Proof.
  revert st. induction fuel as [|fuel IH]; intros st; [reflexivity|].
  rewrite animateGravity_S, gravity_S, IH. reflexivity.
Qed.

Lemma gravityFailSafe_binary st : binary (board (gravityFailSafe st).2).
Proof.
  destruct (gravityFailSafe_cells st) as (_ & _ & _ & _ & Hland & _).
  destruct (gravityFailSafe_spec st) as (_ & Hcells & _).
  intros d _. destruct (decide (rd (board (gravityFailSafe st).2) d = 0)) as [|Hocc];
    [by left|right].
  apply Hcells in Hocc as (c & Hc & Hocc & ->). by apply (Hland c).
Qed.

(** a step that moves a cell makes the sum of the rows of the occupied
    cells larger *)
Lemma gravityFailSafe_sinks st :
  (gravityFailSafe st).1 ≠ 0 →
  rows_sum (stones (board st)) < rows_sum (stones (board (gravityFailSafe st).2)).
Proof.
  intros Hmv.
  rewrite (rows_sum_perm _ _ (gravityFailSafe_stones st)).
  destruct (rows_sum_landing (board st) (stones (board st))) as [Hle Heq].
  assert (rows_sum (landing (board st) <$> stones (board st))
          ≠ rows_sum (stones (board st))) as Hne; [|lia].
  intros Hsame. apply Hmv. apply gravityFailSafe_spec. intros c Hc Hocc.
  apply landing_same, Heq; [exact Hsame|by apply elem_of_stones].
Qed.

Lemma gravity_returns n st :
  1900 - rows_sum (stones (board st)) < Z.of_nat n →
  ∃ st', gravity n st = Some st' ∧
    st' = with_board st (board st') (board_color st') ∧
    length (stones (board st')) = length (stones (board st)).
Proof.
  revert st. induction n as [|n IH]; intros st Hn.
  { pose proof (rows_sum_stones (board st)). lia. }
  rewrite gravity_S.
  pose proof (Permutation_length (gravityFailSafe_stones st)) as Hlen.
  rewrite length_fmap in Hlen.
  destruct (gravityFailSafe_cells st) as (Hframe & _).
  destruct (truthy (gravityFailSafe st).1) eqn:Hmv.
  - apply truthy_true in Hmv.
    destruct (IH (gravityFailSafe st).2) as (st' & Hrun & Hfr & Hlen').
    { pose proof (gravityFailSafe_sinks st Hmv). lia. }
    exists st'. split; [exact Hrun|]. split; [|by rewrite Hlen'].
    etransitivity; [exact Hfr|]. rewrite Hframe. reflexivity.
  - exists (gravityFailSafe st).2. split; [reflexivity|]. by split.
Qed.

(** X11: gravity() and animateGravity() return on every board, after at
    most 1900 steps that move a cell (each such step makes the sum of the
    rows of the occupied cells larger).  They change nothing but the two
    boards, keep the number of occupied cells, and leave a board on which a
    further step moves nothing. *)
Theorem gravity_terminates (st : State) :
  ∃ st', gravity 1901 st = Some st' ∧ animateGravity 1901 st = Some st' ∧
    st' = with_board st (board st') (board_color st') ∧
    length (stones (board st')) = length (stones (board st)) ∧
    (gravityFailSafe st').1 = 0.
Proof.
  destruct (gravity_returns 1901 st) as (st' & Hrun & Hframe & Hlen).
  { pose proof (rows_sum_stones (board st)). lia. }
  exists st'. split; [exact Hrun|]. split; [by rewrite animateGravity_gravity|].
  split; [exact Hframe|]. split; [exact Hlen|]. by apply (gravity_at_rest 1901 st).
Qed.

(** X12: gravity() is idempotent.  On boards with colour 0 on the empty
    cells, the state gravity() returns is a state on which gravity() and
    animateGravity(), run again, make one step and return that same state;
    the boards it returns hold 0 or 1 and again colour 0 exactly on the empty
    cells. *)
Theorem gravity_idempotent (fuel n : nat) (st st' : State) :
  is_board (board st) → is_board (board_color st) →
  color_inv (board st) (board_color st) →
  gravity fuel st = Some st' →
  gravity (S n) st' = Some st' ∧ animateGravity (S n) st' = Some st' ∧
  is_board (board st') ∧ is_board (board_color st') ∧
  binary (board st') ∧ color_inv (board st') (board_color st').
Proof.
  revert st. induction fuel as [|fuel IH]; intros st Hbd Hbc Hinv Hrun; [discriminate|].
  rewrite gravity_S in Hrun.
  destruct (gravityFailSafe_color_inv st Hbd Hbc Hinv) as (Hbd' & Hbc' & Hinv').
  destruct (truthy (gravityFailSafe st).1) eqn:Hmv; [by apply (IH (gravityFailSafe st).2)|].
  apply truthy_false in Hmv. inversion Hrun; subst st'.
  pose proof (gravityFailSafe_binary st) as Hbin.
  destruct (gravityFailSafe_at_rest st Hmv) as [Hrest _].
  pose proof (gravityFailSafe_same _ Hbd' Hbc' Hbin Hinv' Hrest) as Hsame.
  assert (gravity (S n) (gravityFailSafe st).2 = Some (gravityFailSafe st).2) as Hagain.
  { rewrite gravity_S, Hrest. simpl. by rewrite Hsame. }
  split; [exact Hagain|]. split; [by rewrite animateGravity_gravity|].
  split; [exact Hbd'|]. split; [exact Hbc'|]. by split.
Qed.

Lemma gravity_idempotent_witness :
  let st := session (fill [(3, 4, 1); (10, 4, 2); (19, 6, 3); (0, 6, 3)])
                    (domino_up 1 2) 4 0 in
  ∃ st', gravity 5 st = Some st' ∧
    gravity 1 st' = Some st' ∧ animateGravity 1 st' = Some st' ∧
    is_board (board st') ∧ is_board (board_color st') ∧
    binary (board st') ∧ color_inv (board st') (board_color st').
Proof.
  intros st.
  assert (∃ st', gravity 5 st = Some st') as (st' & Hrun).
  { destruct (gravity 5 st) as [st'|] eqn:Hrun; [by exists st'|].
    vm_compute in Hrun. discriminate. }
  exists st'. split; [exact Hrun|].
  apply (gravity_idempotent 5 0 st st'); [apply fill_is_board|apply fill_is_board| |exact Hrun].
  refine (on_board_all (λ c, rd (board_color st) c = 0 ↔ rd (board st) c = 0) _).
  vm_compute. reflexivity.
Defined.

(** * The flood fill on its own *)

(** a call on a cell that is off the board, empty, of another colour or
    already marked returns 0 at once and writes nothing *)
Lemma dfs_skips n bd bc k y x vis coords :
  ¬ (stone bd bc k (y, x) ∧ rd vis (y, x) = 0) →
  dfs (S n) bd bc y x k (vis, coords) = Some (0, (vis, coords)).
Proof.
  intros Hnot. simpl.
  destruct ((y <? 0) || (y >=? HEIGHT) || (x <? 0) || (x >=? WIDTH)) eqn:Hout;
    [reflexivity|].
  destruct (negb (truthy (get bd y x)) || negb (get bc y x =? k)
            || truthy (get vis y x)) eqn:Hskip; [reflexivity|].
  exfalso. apply Hnot. by apply dfs_guard_stone.
Qed.

(** a call on an unmarked occupied cell of the colour returns 1 and stores
    that cell before any other *)
Lemma dfs_first fuel bd bc k y x vis coords r vis' coords' :
  is_board vis → stone bd bc k (y, x) → rd vis (y, x) = 0 →
  dfs fuel bd bc y x k (vis, coords) = Some (r, (vis', coords')) →
  r = 1 ∧ ∃ rest, coords' = coords ++ (y, x) :: rest.
Proof.
  intros Hvis (Hon & Hocc & Hcol) Hz Hrun.
  destruct fuel as [|fuel]; [discriminate|]. simpl in Hrun.
  destruct Hon as [Hy Hx]. simpl in Hy, Hx. unfold rd in Hocc, Hcol, Hz. simpl in *.
  replace ((y <? 0) || (y >=? HEIGHT) || (x <? 0) || (x >=? WIDTH)) with false in Hrun
    by (symmetry; rewrite !orb_false_iff; lia).
  replace (negb (truthy (get bd y x)) || negb (get bc y x =? k) || truthy (get vis y x))
    with false in Hrun.
  2:{ symmetry. rewrite !orb_false_iff, !negb_false_iff, truthy_true, truthy_false.
      rewrite Z.eqb_eq. by repeat split. }
  assert (is_board (put vis y x 1)) as Hvis0 by (by apply dims_put).
  destruct (dfs fuel bd bc (y + 1) x k (put vis y x 1, coords ++ [(y, x)]))
    as [[r1 [v1 c1]]|] eqn:E1; simpl in Hrun; [|discriminate].
  destruct (dfs fuel bd bc (y - 1) x k (v1, c1))
    as [[r2 [v2 c2]]|] eqn:E2; simpl in Hrun; [|discriminate].
  destruct (dfs fuel bd bc y (x + 1) k (v2, c2))
    as [[r3 [v3 c3]]|] eqn:E3; simpl in Hrun; [|discriminate].
  destruct (dfs fuel bd bc y (x - 1) k (v3, c3))
    as [[r4 [v4 c4]]|] eqn:E4; simpl in Hrun; [|discriminate].
  inversion Hrun; subst r vis' coords'. clear Hrun.
  apply dfs_spec in E1 as (Hvis1 & n1 & Hc1 & _); [|exact Hvis0].
  apply dfs_spec in E2 as (Hvis2 & n2 & Hc2 & _); [|exact Hvis1].
  apply dfs_spec in E3 as (Hvis3 & n3 & Hc3 & _); [|exact Hvis2].
  apply dfs_spec in E4 as (Hvis4 & n4 & Hc4 & _); [|exact Hvis3].
  split; [reflexivity|]. exists (n1 ++ n2 ++ n3 ++ n4).
  subst. rewrite <- !app_assoc. reflexivity.
Qed.

(** started on an occupied cell with no cell marked, the flood fill returns
    and stores the region of that cell, the cell itself first *)
Lemma dfs_from_zeros st y x :
  is_board (board st) → is_board (board_color st) →
  on_board (y, x) → get (board st) y x ≠ 0 →
  ∃ vis' rest,
    dfs dfs_fuel (board st) (board_color st) y x (get (board_color st) y x)
        (zeros HEIGHT WIDTH, []) = Some (1, (vis', (y, x) :: rest)) ∧
    region (board st) (board_color st) ((y, x) :: rest) ∧
    is_board vis' ∧ (∀ c, rd vis' c ≠ 0 ↔ c ∈ (y, x) :: rest).
Proof.
  intros Hbd Hbc Hon Hocc.
  destruct (dfs_fuel_enough (board st) (board_color st) (get (board_color st) y x)
              y x (zeros HEIGHT WIDTH) [] (dims_zeros _ _)) as (r & vis' & coords' & Hrun).
  destruct (dfs_first _ _ _ _ _ _ _ _ _ _ _ (dims_zeros _ _)
              (conj Hon (conj Hocc eq_refl)) (rd_zeros _ _ _) Hrun) as (-> & rest & ->).
  simpl in Hrun. exists vis', rest. split; [exact Hrun|].
  destruct (flood_region (board st) (board_color st) (score st) 0 []
              (with_visited st (zeros HEIGHT WIDTH)) 0 0 (y, x) 1 vis' ((y, x) :: rest))
    as (Hvis' & Hnd & _ & Hiff & Hin & Hst & Hlink & Hmax);
    [by apply scan_inv_start|exact Hon|exact Hocc|apply rd_zeros|exact Hrun|].
  split; [|split; [exact Hvis'|]].
  - split; [exact Hnd|]. split; [discriminate|].
    exists (rd (board_color st) (y, x)). by split.
  - intros c. rewrite Hiff. simpl. rewrite rd_zeros. split; [intros [?|?]; done|by right].
Qed.

(** every occupied cell of the board lies in a region *)
Lemma region_exists st c :
  is_board (board st) → is_board (board_color st) →
  on_board c → rd (board st) c ≠ 0 →
  ∃ R, region (board st) (board_color st) R ∧ c ∈ R.
Proof.
  intros Hbd Hbc Hon Hocc. destruct c as [y x].
  destruct (dfs_from_zeros st y x Hbd Hbc Hon Hocc) as (vis' & rest & _ & HR & _).
  exists ((y, x) :: rest). split; [exact HR|by left].
Qed.

(** X13: dfs on its own.  A call on a cell that is off the board, empty, of
    another colour than asked for, or already marked returns 0 and writes
    nothing.  Called as clearGroups calls it (no cell marked, the colour of
    the start cell) on an occupied cell, it returns 1, and the cells it has
    stored are, without repetition and the start cell first, exactly the
    maximal 4-connected region of cells of that colour around the start
    cell; these are also exactly the cells it has marked. *)
Theorem dfs_collects_region (st : State) (y x : Z) :
  is_board (board st) → is_board (board_color st) →
  (∀ n k vis coords,
     ¬ (stone (board st) (board_color st) k (y, x) ∧ rd vis (y, x) = 0) →
     dfs (S n) (board st) (board_color st) y x k (vis, coords) = Some (0, (vis, coords))) ∧
  (on_board (y, x) → get (board st) y x ≠ 0 →
   ∃ vis' rest,
     dfs dfs_fuel (board st) (board_color st) y x (get (board_color st) y x)
         (zeros HEIGHT WIDTH, []) = Some (1, (vis', (y, x) :: rest)) ∧
     region (board st) (board_color st) ((y, x) :: rest) ∧
     is_board vis' ∧ (∀ c, rd vis' c ≠ 0 ↔ c ∈ (y, x) :: rest)).
Proof.
  intros Hbd Hbc. split.
  - intros n k vis coords. apply dfs_skips.
  - by apply dfs_from_zeros.
Qed.

Lemma dfs_collects_region_witness :
  (∀ n k vis coords,
     ¬ (stone (board ell_and_bar) (board_color ell_and_bar) k (19, 3) ∧
        rd vis (19, 3) = 0) →
     dfs (S n) (board ell_and_bar) (board_color ell_and_bar) 19 3 k (vis, coords) =
       Some (0, (vis, coords))) ∧
  (on_board (19, 3) → get (board ell_and_bar) 19 3 ≠ 0 →
   ∃ vis' rest,
     dfs dfs_fuel (board ell_and_bar) (board_color ell_and_bar) 19 3
         (get (board_color ell_and_bar) 19 3)
         (zeros HEIGHT WIDTH, []) = Some (1, (vis', (19, 3) :: rest)) ∧
     region (board ell_and_bar) (board_color ell_and_bar) ((19, 3) :: rest) ∧
     is_board vis' ∧ (∀ c, rd vis' c ≠ 0 ↔ c ∈ (19, 3) :: rest)).
Proof.
  apply (dfs_collects_region ell_and_bar 19 3); apply fill_is_board.
Defined.

(** * The clear pass: what is removed and what is counted *)

Lemma sum_with_size gs : sum_with size gs = Z.of_nat (length (mjoin gs)).
Proof.
  unfold sum_with, size. induction gs as [|g gs IH]; [reflexivity|].
  simpl. rewrite IH, length_app. lia.
Qed.

Lemma sum_with_at_least f gs n :
  (∀ g, g ∈ gs → n ≤ f g) → n * Z.of_nat (length gs) ≤ sum_with f gs.
Proof.
  unfold sum_with. induction gs as [|g gs IH]; intros Hall; [simpl; lia|].
  assert (n ≤ f g) by (apply Hall; by left).
  assert (n * Z.of_nat (length gs) ≤ foldr (λ g a, f g + a) 0 gs)
    by (apply IH; intros h Hh; apply Hall; by right).
  simpl length. simpl foldr. lia.
Qed.

(** groups of at least four cells that share no cell: there are at most 50
    of them on the board *)
Lemma groups_bound bd bc gs :
  (∀ g, g ∈ gs → region bd bc g ∧ 4 ≤ size g) → NoDup (mjoin gs) →
  Z.of_nat (length gs) ≤ 50.
Proof.
  intros Hgs Hnd.
  assert (4 * Z.of_nat (length gs) ≤ sum_with size gs) as Hfour.
  { apply sum_with_at_least. intros g Hg. by destruct (Hgs g Hg). }
  rewrite sum_with_size in Hfour.
  assert (mjoin gs ⊆+ stones bd) as Hsub.
  { apply NoDup_submseteq; [exact Hnd|]. intros c Hc.
    apply list_elem_of_join in Hc as (g & Hc & Hg).
    destruct (Hgs g Hg) as [(_ & _ & k & Hst & _) _].
    destruct (Hst c Hc) as (Hon & Hocc & _). by apply elem_of_stones. }
  apply submseteq_length in Hsub. pose proof (stones_bound bd). lia.
Qed.

(** the pass as a whole: the groups [gs] it removes are the regions of at
    least four cells; their cells are emptied, every other cell is left as
    it is; the globals it writes besides the boards and the marks are the
    score, clears and level *)
Lemma clearGroups_removed m st :
  is_board (board st) → is_board (board_color st) →
  ∃ gs total st',
    clearGroups m st = Some (total, st') ∧
    is_board (board st') ∧ is_board (board_color st') ∧
    (∀ g, g ∈ gs → region (board st) (board_color st) g ∧ 4 ≤ size g) ∧
    NoDup (mjoin gs) ∧
    (∀ R, region (board st) (board_color st) R → 4 ≤ size R → ∃ g, g ∈ gs ∧ g ≡ₚ R) ∧
    (∀ c, c ∈ mjoin gs → rd (board st') c = 0 ∧ rd (board_color st') c = 0) ∧
    (∀ c, c ∉ mjoin gs → rd (board st') c = rd (board st) c ∧
                          rd (board_color st') c = rd (board_color st) c) ∧
    score st' = score_after m (score st) gs ∧
    total = sum_with size gs ∧
    clears st' = clears st + Z.of_nat (length gs) ∧
    level st ≤ level st' ≤ level st + 1 ∧ (gs = [] → level st' = level st) ∧
    unwritten st' = unwritten st ∧ last_chain st' = last_chain st.
Proof.
  intros Hbd Hbc. unfold clearGroups.
  destruct (scan_inv_scan (board st) (board_color st) (score st) m
              (cells HEIGHT WIDTH) [] (with_visited st (zeros HEIGHT WIDTH)) 0 0)
    as (gs & st1 & total & groups & Hrun & Hinv & Hall & _ & Hsame).
  { intros [y x] Hc. by apply elem_of_cells in Hc. }
  { by apply scan_inv_start. }
  rewrite Hrun. cbn [mbind option_bind].
  destruct (clearGroups_finish_frame st1 groups) as (Hfb & Hfc & Hfs).
  exists gs, total, (clearGroups_finish st1 groups).
  split; [reflexivity|]. rewrite Hfb, Hfc, Hfs.
  destruct Hinv as [Ib Ic Im Ifresh Icells Imarked Iclosed Ifate Igroups Ifound
                      Iapart Iscore Itotal Icount].
  split; [exact Ib|]. split; [exact Ic|]. split.
  { intros g Hg. destruct (Igroups g Hg) as (H1 & H2 & _). by split. }
  split; [exact Iapart|].
  assert (∀ R, region (board st) (board_color st) R → 4 ≤ size R →
            ∃ g, g ∈ gs ∧ g ≡ₚ R) as Hfound.
  { intros R HR H4.
    destruct R as [|c R'] eqn:HeqR; [by destruct HR as (_ & Hne & _)|].
    apply (Ifound (c :: R') c HR H4); [by left|].
    destruct HR as (_ & _ & k & Hst & _).
    destruct (Hst c ltac:(by left)) as (Hon & Hocc & _).
    apply Hall; [|exact Hocc]. destruct c as [y x]. by apply elem_of_cells. }
  split; [exact Hfound|]. split.
  { intros c Hc. apply list_elem_of_join in Hc as (g & Hc & Hg).
    destruct (Igroups g Hg) as (HR & H4 & Hmarks).
    by apply (Ifate g c HR Hc (Hmarks c Hc)). }
  split.
  { intros c Hc. destruct (decide (rd (visited st1) c = 0)) as [Hz|Hm];
      [by apply Ifresh|].
    destruct (Imarked c Hm) as [Hon Hocc].
    destruct (region_exists st c Hbd Hbc Hon Hocc) as (R & HR & HcR).
    destruct (Ifate R c HR HcR Hm) as [_ Hkeep].
    apply Hkeep. destruct (decide (size R < 4)) as [|Hbig]; [assumption|].
    exfalso. destruct (Hfound R HR ltac:(lia)) as (g & Hg & Hperm).
    apply Hc. apply list_elem_of_join. exists g. split; [by rewrite Hperm|exact Hg]. }
  split; [exact Iscore|]. split; [exact Itotal|].
  assert (level st1 = level st ∧ clears st1 = clears st ∧
          unwritten st1 = unwritten st ∧ last_chain st1 = last_chain st)
    as (Hl & Hcl & Hun & Hlc).
  { unfold untouched in Hsame. simpl in Hsame. unfold unwritten.
    inversion Hsame as [[H1 H2 H3 H4 H5 H6 H7 H8 H9 H10 H11 H12]].
    by rewrite H1, H2, H3, H4, H5, H6, H7, H8, H9, H10, H11. }
  subst groups. unfold clearGroups_finish.
  destruct gs as [|g gs].
  - simpl. rewrite Hl, Hcl. repeat split; try lia; assumption.
  - replace (Z.of_nat (length (g :: gs)) >? 0) with true
      by (symmetry; apply Z.gtb_lt; simpl length; lia).
    destruct (Z.quot (clears st1 + Z.of_nat (length (g :: gs))) 5 >=? level st1);
      cbn [clears level with_progress unwritten last_chain current next cx cy
           max_colors input_locked rand_stream rand_calls];
      rewrite Hl, Hcl; (split; [reflexivity|]); (split; [lia|]);
      (split; [discriminate|]); by split.
Qed.

(** C6: a clear pass removes the groups [gs], which are, each once, the
    maximal regions of at least four cells of the board, and adds their
    number to clears; it leaves the level alone or raises it by exactly 1,
    and it raises it exactly when it removed a group and the cumulative
    count of removed groups has reached 5 * level: hence the first time the
    count reaches 5 * level and not before, and only once in a pass however
    far the count overshoots.  The counters are taken in the range in which
    the additions of the code are exact: a pass removes at most 50 groups. *)
Theorem clearGroups_level (m : Z) (st : State) :
  is_board (board st) → is_board (board_color st) →
  0 ≤ clears st → clears st + 50 ≤ INT_MAX → level st < INT_MAX →
  ∃ gs total st',
    clearGroups m st = Some (total, st') ∧
    (∀ g, g ∈ gs → region (board st) (board_color st) g ∧ 4 ≤ size g) ∧
    NoDup (mjoin gs) ∧
    (∀ R, region (board st) (board_color st) R → 4 ≤ size R →
          ∃ g, g ∈ gs ∧ g ≡ₚ R) ∧
    clears st' = clears st + Z.of_nat (length gs) ∧
    (level st' = level st ∨ level st' = level st + 1) ∧
    (level st' = level st + 1 ↔ gs ≠ [] ∧ 5 * level st ≤ clears st') ∧
    (clears st < 5 * level st ≤ clears st' → level st' = level st + 1) ∧
    (clears st' < 5 * level st → level st' = level st) ∧
    clears st' ≤ INT_MAX ∧ level st' ≤ INT_MAX.
Proof.
  intros Hbd Hbc Hclears Hcmax Hlmax.
  destruct (clearGroups_removed m st Hbd Hbc)
    as (gs & total & st' & Hrun & _ & _ & Hgs & Hnd & Hfound & _ & _ & _ & _
        & Hcount & _).
  destruct (clearGroups_finish_level m st Hclears)
    as (total' & st'' & Hrun' & _ & Hstep & Hiff & Hfirst & Hbelow).
  rewrite Hrun in Hrun'. inversion Hrun'; subst total' st''. clear Hrun'.
  pose proof (groups_bound _ _ gs Hgs Hnd) as Hfifty.
  exists gs, total, st'. split; [exact Hrun|]. split; [exact Hgs|].
  split; [exact Hnd|]. split; [exact Hfound|]. split; [exact Hcount|].
  split; [exact Hstep|]. split; [|split; [exact Hfirst|split; [exact Hbelow|lia]]].
  rewrite Hiff. split.
  - intros [Hmore Hreach]. split; [|exact Hreach]. intros ->. simpl in Hcount. lia.
  - intros [Hne Hreach]. split; [|exact Hreach].
    destruct gs as [|g gs]; [done|]. simpl length in Hcount. lia.
Qed.

Lemma clearGroups_level_witness :
  ∃ gs st',
    clearGroups 2 ten_groups = Some (40, st') ∧
    (∀ g, g ∈ gs → region (board ten_groups) (board_color ten_groups) g ∧ 4 ≤ size g) ∧
    length gs = 10%nat ∧
    clears ten_groups = 0 ∧ level ten_groups = 1 ∧
    clears st' = 10 ∧ level st' = 2.
Proof.
  destruct (clearGroups_level 2 ten_groups)
    as (gs & total & st' & Hrun & Hgs & _ & _ & Hcount & _ & Hiff & _);
    [apply fill_is_board|apply fill_is_board|simpl; lia|vm_compute; discriminate
    |vm_compute; reflexivity|].
  assert (total = 40 ∧ clears st' = 10) as [-> Hten].
  { vm_compute in Hrun. by inversion Hrun. }
  exists gs, st'. split; [exact Hrun|]. split; [exact Hgs|].
  change (clears ten_groups) with 0 in Hcount.
  change (level ten_groups) with 1 in Hiff.
  split; [lia|]. split; [reflexivity|]. split; [reflexivity|].
  split; [exact Hten|]. apply Hiff. split; [|lia].
  intros ->. simpl in Hcount. lia.
Defined.

(** X14: what a clear pass removes and what it counts.  The groups [gs]
    it removes are, each once, the maximal regions of at least four cells of
    the board, no two of which share a cell, and there are at most 50 of
    them; the cells it empties are the cells of these groups, and every
    other cell of both boards is left as it is.  So the occupied cells before
    the pass are the occupied cells after it together with the removed ones,
    the value returned is the number of cells emptied (0, or at least 4 for
    each group), clears grows by the number of groups (the counter taken in
    the range in which the addition of the code is exact), and of the other
    globals only the score, the level and the marks are written. *)
Theorem clearGroups_accounting (m : Z) (st : State) :
  is_board (board st) → is_board (board_color st) →
  INT_MIN ≤ clears st → clears st + 50 ≤ INT_MAX →
  ∃ gs total st',
    clearGroups m st = Some (total, st') ∧
    (∀ g, g ∈ gs → region (board st) (board_color st) g ∧ 4 ≤ size g) ∧
    NoDup (mjoin gs) ∧
    (∀ R, region (board st) (board_color st) R → 4 ≤ size R →
          ∃ g, g ∈ gs ∧ g ≡ₚ R) ∧
    stones (board st) ≡ₚ stones (board st') ++ mjoin gs ∧
    (∀ c, c ∈ mjoin gs → rd (board st') c = 0 ∧ rd (board_color st') c = 0) ∧
    (∀ c, c ∉ mjoin gs → rd (board st') c = rd (board st) c ∧
                          rd (board_color st') c = rd (board_color st) c) ∧
    total = Z.of_nat (length (mjoin gs)) ∧
    Z.of_nat (length (stones (board st))) =
      Z.of_nat (length (stones (board st'))) + total ∧
    4 * Z.of_nat (length gs) ≤ total ∧ total ≤ 200 ∧
    (total = 0 ↔ gs = []) ∧
    clears st' = clears st + Z.of_nat (length gs) ∧
    INT_MIN ≤ clears st' ≤ INT_MAX ∧
    unwritten st' = unwritten st ∧ last_chain st' = last_chain st.
Proof.
  intros Hbd Hbc Hmin Hmax.
  destruct (clearGroups_removed m st Hbd Hbc)
    as (gs & total & st' & Hrun & _ & _ & Hgs & Hnd & Hfound & Hgone & Hkept & _ & Htotal
        & Hclears & _ & _ & Hun & Hlc).
  exists gs, total, st'. split; [exact Hrun|].
  split; [exact Hgs|]. split; [exact Hnd|]. split; [exact Hfound|].
  assert (∀ c, c ∈ mjoin gs → on_board c ∧ rd (board st) c ≠ 0) as Hwere.
  { intros c Hc. apply list_elem_of_join in Hc as (g & Hc & Hg).
    destruct (Hgs g Hg) as [(_ & _ & k & Hst & _) _].
    destruct (Hst c Hc) as (Hon & Hocc & _). by split. }
  assert (stones (board st) ≡ₚ stones (board st') ++ mjoin gs) as Hperm.
  { apply NoDup_Permutation.
    - apply NoDup_stones.
    - apply list.NoDup_app. split; [apply NoDup_stones|]. split; [|exact Hnd].
      intros c Hc Hc'. apply elem_of_stones in Hc as [_ Hocc].
      by destruct (Hgone c Hc').
    - intros c. rewrite elem_of_app, !elem_of_stones. split.
      + intros [Hon Hocc]. destruct (decide (c ∈ mjoin gs)) as [Hin|Hout]; [by right|].
        left. split; [exact Hon|]. by rewrite (proj1 (Hkept c Hout)).
      + intros [[Hon Hocc]|Hin]; [|by apply Hwere].
        split; [exact Hon|]. destruct (decide (c ∈ mjoin gs)) as [Hin|Hout].
        * by destruct (Hgone c Hin).
        * by rewrite <- (proj1 (Hkept c Hout)). }
  assert (total = Z.of_nat (length (mjoin gs))) as Hlen
    by (by rewrite Htotal, sum_with_size).
  assert (4 * Z.of_nat (length gs) ≤ total) as Hfour.
  { rewrite Htotal. apply sum_with_at_least. intros g Hg. by destruct (Hgs g Hg). }
  pose proof (groups_bound _ _ gs Hgs Hnd) as Hfifty.
  assert (total ≤ 200) as Hmost.
  { pose proof (stones_bound (board st)) as Hb.
    rewrite Hperm, length_app in Hb. lia. }
  split; [exact Hperm|]. split; [exact Hgone|]. split; [exact Hkept|].
  split; [exact Hlen|]. split.
  { rewrite Hperm, length_app. lia. }
  split; [exact Hfour|]. split; [exact Hmost|].
  split.
  { split.
    - intros Hz. destruct gs as [|g gs]; [reflexivity|]. simpl length in *. lia.
    - intros ->. by rewrite Hlen. }
  split; [exact Hclears|]. split; [lia|]. by split.
Qed.

Lemma clearGroups_accounting_witness :
  ∃ gs total st',
    clearGroups 2 ell_and_bar = Some (total, st') ∧
    (∀ g, g ∈ gs → region (board ell_and_bar) (board_color ell_and_bar) g ∧ 4 ≤ size g) ∧
    NoDup (mjoin gs) ∧
    (∀ R, region (board ell_and_bar) (board_color ell_and_bar) R → 4 ≤ size R →
          ∃ g, g ∈ gs ∧ g ≡ₚ R) ∧
    stones (board ell_and_bar) ≡ₚ stones (board st') ++ mjoin gs ∧
    (∀ c, c ∈ mjoin gs → rd (board st') c = 0 ∧ rd (board_color st') c = 0) ∧
    (∀ c, c ∉ mjoin gs → rd (board st') c = rd (board ell_and_bar) c ∧
                          rd (board_color st') c = rd (board_color ell_and_bar) c) ∧
    total = Z.of_nat (length (mjoin gs)) ∧
    Z.of_nat (length (stones (board ell_and_bar))) =
      Z.of_nat (length (stones (board st'))) + total ∧
    4 * Z.of_nat (length gs) ≤ total ∧ total ≤ 200 ∧
    (total = 0 ↔ gs = []) ∧
    clears st' = clears ell_and_bar + Z.of_nat (length gs) ∧
    INT_MIN ≤ clears st' ≤ INT_MAX ∧
    unwritten st' = unwritten ell_and_bar ∧ last_chain st' = last_chain ell_and_bar.
Proof.
  apply (clearGroups_accounting 2 ell_and_bar);
    [apply fill_is_board|apply fill_is_board|vm_compute; discriminate
    |vm_compute; discriminate].
Defined.

(** * The clear pass: a second pass finds nothing *)

(** a region of the boards left by a removal of cells lies inside a region
    of the boards before it *)
Lemma region_after_removal bd bc bd' bc' (removed : list (Z * Z)) R' R c :
  (∀ d, d ∈ removed → rd bd' d = 0) →
  (∀ d, d ∉ removed → rd bd' d = rd bd d ∧ rd bc' d = rd bc d) →
  region bd' bc' R' → region bd bc R → c ∈ R' → c ∈ R →
  size R' ≤ size R.
Proof.
  intros Hgone Hkept HR' HR Hc' Hc.
  assert (∀ k d, stone bd' bc' k d → stone bd bc k d) as Hstone.
  { intros k d (Hon & Hocc & Hcol).
    assert (d ∉ removed) as Hout by (intros Hin; by apply Hocc, Hgone).
    destruct (Hkept d Hout) as [Hb Hk]. split; [exact Hon|]. split; congruence. }
  assert (∀ k d e, linked bd' bc' k d e → linked bd bc k d e) as Hlinked.
  { intros k d e. induction 1 as [d Hd|d e f _ IH Hadj Hf].
    - apply linked_refl. by apply Hstone.
    - eapply linked_step; [exact IH|exact Hadj|by apply Hstone]. }
  assert (rd bc c = rd bc' c) as Hcol.
  { destruct HR' as (_ & _ & k & Hst & _). destruct (Hst c Hc') as (_ & Hocc & _).
    assert (c ∉ removed) as Hout by (intros Hin; by apply Hocc, Hgone).
    symmetry. by apply Hkept. }
  unfold size. apply inj_le. apply submseteq_length, NoDup_submseteq.
  - by destruct HR'.
  - intros d Hd. apply (region_cells bd bc R c HR Hc). rewrite Hcol.
    apply Hlinked. by apply (region_cells bd' bc' R' c HR' Hc').
Qed.

(** X15: a clear pass leaves no group behind for a pass that follows it at
    once.  Run on the state a pass returned (whatever the two multipliers),
    clearGroups returns 0 and changes nothing but the marks: boards, score,
    clears and level stay as the first pass left them.  In lock_and_cascade
    this is the pass that ends a chain when no cell has moved in between. *)
Theorem clearGroups_idempotent (m m' total : Z) (st st' : State) :
  is_board (board st) → is_board (board_color st) →
  clearGroups m st = Some (total, st') →
  ∃ st'', clearGroups m' st' = Some (0, st'') ∧
          st'' = with_visited st' (visited st'').
Proof.
  intros Hbd Hbc Hrun.
  destruct (clearGroups_removed m st Hbd Hbc)
    as (gs & total0 & st0 & Hrun0 & Hbd' & Hbc' & _ & _ & Hfound & Hgone & Hkept & _).
  rewrite Hrun in Hrun0. inversion Hrun0; subst total0 st0. clear Hrun0.
  destruct (clearGroups_removed m' st' Hbd' Hbc')
    as (gs2 & total2 & st'' & Hrun2 & Hbd2 & Hbc2 & Hgs2 & _ & _ & _ & Hkept2 & Hscore2
        & Htotal2 & Hclears2 & _ & Hlevel2 & Hun2 & Hlc2).
  assert (gs2 = []) as ->.
  { destruct gs2 as [|g gs2]; [reflexivity|]. exfalso.
    destruct (Hgs2 g ltac:(by left)) as [HR' H4].
    assert (∃ c, c ∈ g) as (c & Hc').
    { destruct g as [|c g']; [by destruct HR' as (_ & Hne & _)|]. exists c. by left. }
    destruct HR' as (Hnd' & Hne' & k & Hst' & Hrest').
    destruct (Hst' c Hc') as (Hon & Hocc' & _).
    assert (c ∉ mjoin gs) as Hout by (intros Hin; by apply Hocc', Hgone).
    assert (rd (board st) c ≠ 0) as Hocc by (by rewrite <- (proj1 (Hkept c Hout))).
    destruct (region_exists st c Hbd Hbc Hon Hocc) as (R & HR & Hc).
    assert (size g ≤ size R) as Hle.
    { apply (region_after_removal (board st) (board_color st)
               (board st') (board_color st') (mjoin gs) g R c); try assumption.
      - intros d Hd. by apply Hgone.
      - split; [exact Hnd'|]. split; [exact Hne'|]. by exists k. }
    destruct (Hfound R HR ltac:(lia)) as (g0 & Hg0 & Hperm).
    apply Hout. apply list_elem_of_join. exists g0. split; [by rewrite Hperm|exact Hg0]. }
  assert (total2 = 0) as -> by (by rewrite Htotal2).
  exists st''. split; [exact Hrun2|].
  assert (board st'' = board st') as Hb.
  { apply (grid_ext HEIGHT WIDTH); [assumption..|].
    intros y x _ _. apply (Hkept2 (y, x)). simpl. inversion 1. }
  assert (board_color st'' = board_color st') as Hc.
  { apply (grid_ext HEIGHT WIDTH); [assumption..|].
    intros y x _ _. apply (Hkept2 (y, x)). simpl. inversion 1. }
  assert (score st'' = score st') as Hs by (rewrite Hscore2; unfold sum_with; simpl; lia).
  assert (clears st'' = clears st') as Hcl by (rewrite Hclears2; simpl; lia).
  assert (level st'' = level st') as Hl by (by apply Hlevel2).
  unfold unwritten in Hun2. inversion Hun2 as [[H1 H2 H3 H4 H5 H6 H7 H8 H9]].
  destruct st'', st'. simpl in *. unfold with_visited. simpl. congruence.
Qed.

Lemma clearGroups_idempotent_witness :
  let st' := match clearGroups 2 ell_and_bar with
             | Some (_, s) => s
             | None => ell_and_bar
             end in
  ∃ st'', clearGroups 3 st' = Some (0, st'') ∧
          st'' = with_visited st' (visited st'').
Proof.
  intros st'.
  apply (clearGroups_idempotent 2 3 4 ell_and_bar st');
    [apply fill_is_board|apply fill_is_board|vm_compute; reflexivity].
Defined.

(** * lock_and_cascade returns *)

Lemma with_board_frame st st' :
  st' = with_board st (board st') (board_color st') →
  score st' = score st ∧ level st' = level st ∧ clears st' = clears st ∧
  last_chain st' = last_chain st ∧ unwritten st' = unwritten st.
Proof. intros H. rewrite H. by repeat split. Qed.

Lemma gravity_boards n st st' :
  gravity n st = Some st' → is_board (board st') ∧ is_board (board_color st').
Proof.
  revert st. induction n as [|n IH]; intros st Hrun; [discriminate|].
  rewrite gravity_S in Hrun.
  destruct (truthy (gravityFailSafe st).1); [by apply (IH _ Hrun)|].
  inversion Hrun; subst. destruct (gravityFailSafe_cells st) as (_ & H1 & H2 & _).
  by split.
Qed.

Lemma gravity_runs n st :
  (1901 ≤ n)%nat →
  ∃ st', gravity n st = Some st' ∧ animateGravity n st = Some st' ∧
    st' = with_board st (board st') (board_color st') ∧
    length (stones (board st')) = length (stones (board st)) ∧
    is_board (board st') ∧ is_board (board_color st').
Proof.
  intros Hn. destruct (gravity_returns n st) as (st' & Hrun & Hframe & Hlen).
  { pose proof (rows_sum_stones (board st)). lia. }
  exists st'. split; [exact Hrun|]. split; [by rewrite animateGravity_gravity|].
  split; [exact Hframe|]. split; [exact Hlen|]. by apply (gravity_boards n st).
Qed.

(** the occupied cells before a removal are the occupied cells after it and
    the removed ones *)
Lemma removed_stones bd bd' (removed : list (Z * Z)) :
  NoDup removed →
  (∀ c, c ∈ removed → on_board c ∧ rd bd c ≠ 0 ∧ rd bd' c = 0) →
  (∀ c, c ∉ removed → rd bd' c = rd bd c) →
  stones bd ≡ₚ stones bd' ++ removed.
Proof.
  intros Hnd Hgone Hkept. apply NoDup_Permutation.
  - apply NoDup_stones.
  - apply list.NoDup_app. split; [apply NoDup_stones|]. split; [|exact Hnd].
    intros c Hc Hc'. apply elem_of_stones in Hc as [_ Hocc].
    by destruct (Hgone c Hc') as (_ & _ & ?).
  - intros c. rewrite elem_of_app, !elem_of_stones. split.
    + intros [Hon Hocc]. destruct (decide (c ∈ removed)) as [Hin|Hout]; [by right|].
      left. split; [exact Hon|]. by rewrite (Hkept c Hout).
    + intros [[Hon Hocc]|Hin]; [|by destruct (Hgone c Hin) as (? & ? & _)].
      split; [exact Hon|]. destruct (decide (c ∈ removed)) as [Hin|Hout].
      * by destruct (Hgone c Hin) as (_ & _ & ?).
      * by rewrite <- (Hkept c Hout).
Qed.

(** one wave of the cascade: the clear pass with a multiplier of at least 1 *)
Lemma clearGroups_wave m st :
  is_board (board st) → is_board (board_color st) → 2 ≤ m →
  ∃ total st1,
    clearGroups m st = Some (total, st1) ∧
    is_board (board st1) ∧ is_board (board_color st1) ∧ 0 ≤ total ∧
    Z.of_nat (length (stones (board st))) =
      Z.of_nat (length (stones (board st1))) + total ∧
    (total = 0 → score st1 = score st ∧ clears st1 = clears st ∧ level st1 = level st) ∧
    (total ≠ 0 → clears st < clears st1) ∧
    level st ≤ level st1 ∧ unwritten st1 = unwritten st ∧
    last_chain st1 = last_chain st.
Proof.
  intros Hbd Hbc Hm.
  destruct (clearGroups_removed m st Hbd Hbc)
    as (gs & total & st1 & Hrun & Hbd1 & Hbc1 & Hgs & Hnd & _ & Hgone & Hkept & Hscore
        & Htotal & Hclears & Hlevel & Hlevel0 & Hun & Hlc).
  exists total, st1. split; [exact Hrun|]. split; [exact Hbd1|]. split; [exact Hbc1|].
  assert (total = Z.of_nat (length (mjoin gs))) as Hlen by (by rewrite Htotal, sum_with_size).
  assert (stones (board st) ≡ₚ stones (board st1) ++ mjoin gs) as Hperm.
  { apply removed_stones; [exact Hnd| |intros c Hc; by apply Hkept].
    intros c Hc. split; [|split; [|by apply Hgone]];
      apply list_elem_of_join in Hc as (g & Hc & Hg);
      destruct (Hgs g Hg) as [(_ & _ & k & Hst & _) _];
      by destruct (Hst c Hc) as (? & ? & _). }
  split; [lia|]. split; [rewrite Hperm, length_app; lia|].
  split.
  { intros Hz. assert (gs = []) as ->.
    { destruct gs as [|g gs]; [reflexivity|].
      assert (4 * Z.of_nat (length (g :: gs)) ≤ total).
      { rewrite Htotal. apply sum_with_at_least. intros h Hh. by destruct (Hgs h Hh). }
      simpl length in *. lia. }
    split; [by rewrite Hscore|].
    split; [rewrite Hclears; simpl; lia|by apply Hlevel0]. }
  split.
  { intros Hnz. assert (0 < Z.of_nat (length gs)).
    { destruct gs as [|g gs]; [|simpl length; lia]. simpl in Hlen. lia. }
    lia. }
  split; [lia|]. by split.
Qed.

Lemma chain_effect_trans a b c s1 s2 s3 :
  chain_effect a b s1 s2 → chain_effect b c s2 s3 → chain_effect a c s1 s3.
Proof.
  intros (Hab & Hsame1 & Hmore1 & Hl1 & Hu1) (Hbc & Hsame2 & Hmore2 & Hl2 & Hu2).
  split; [lia|]. split; [|split; [|split; [lia|by rewrite Hu2]]].
  - intros ->. assert (b = a) as -> by lia.
    destruct (Hsame1 eq_refl) as (E1 & E2 & E3 & E4).
    destruct (Hsame2 eq_refl) as (F1 & F2 & F3 & F4).
    repeat split; congruence.
  - intros Hac.
    destruct (decide (b = a)) as [Heq1|Hne1]; destruct (decide (c = b)) as [Heq2|Hne2];
      try subst c; try subst b.
    + lia.
    + destruct (Hsame1 eq_refl) as (_ & E2 & E3 & _).
      destruct (Hmore2 ltac:(lia)) as (F1 & F3). split; [exact F1|lia].
    + destruct (Hsame2 eq_refl) as (F1 & F2 & F3 & _).
      destruct (Hmore1 ltac:(lia)) as (E1 & E3). split; [congruence|lia].
    + destruct (Hmore1 ltac:(lia)) as (_ & ?).
      destruct (Hmore2 ltac:(lia)) as (? & ?). split; [assumption|lia].
Qed.

Lemma chain_effect_frame c st st' :
  st' = with_board st (board st') (board_color st') → chain_effect c c st st'.
Proof.
  intros Hframe. destruct (with_board_frame st st' Hframe) as (H1 & H2 & H3 & H4 & H5).
  split; [lia|]. split; [by intros _|]. split; [lia|]. split; [lia|exact H5].
Qed.

(** the inner loop returns, every wave but the last having removed cells *)
Lemma cascade_waves_runs n chain any st :
  is_board (board st) → is_board (board_color st) → 0 ≤ chain →
  (1901 + length (stones (board st)) < n)%nat →
  ∃ chain' any' st',
    cascade_waves n chain any st = Some (chain', any', st') ∧
    is_board (board st') ∧ is_board (board_color st') ∧
    chain_effect chain chain' st st' ∧
    (chain' = chain → any' = any ∧
       length (stones (board st')) = length (stones (board st))) ∧
    (chain < chain' → any' = 1 ∧
       (length (stones (board st')) < length (stones (board st)))%nat).
Proof.
  revert chain any st.
  induction n as [|n IH]; intros chain any st Hbd Hbc Hch Hn; [lia|].
  change (cascade_waves (S n) chain any st) with
    ('(cleared, st1) ← clearGroups (2 + chain) st;
     if cleared =? 0 then Some (chain, any, st1)
     else st3 ← animateGravity n (with_last_chain st1 (chain + 1));
          cascade_waves n (chain + 1) 1 st3).
  destruct (clearGroups_wave (2 + chain) st Hbd Hbc ltac:(lia))
    as (total & st1 & Hrun & Hbd1 & Hbc1 & Htot & Hlen & Hzero & Hpos & Hlev & Hun & Hlc).
  rewrite Hrun. cbn [mbind option_bind].
  destruct (total =? 0) eqn:Ht.
  - apply Z.eqb_eq in Ht. subst total. destruct (Hzero eq_refl) as (Hs & Hc & Hl).
    exists chain, any, st1. split; [reflexivity|]. split; [exact Hbd1|].
    split; [exact Hbc1|]. split.
    { split; [lia|]. split; [by intros _|]. split; [lia|]. split; [lia|exact Hun]. }
    split; [intros _; split; [reflexivity|lia]|lia].
  - apply Z.eqb_neq in Ht. pose proof (Hpos Ht) as Hc.
    destruct (gravity_runs n (with_last_chain st1 (chain + 1)))
      as (st3 & _ & Hanim & Hframe & Hlen3 & Hbd3 & Hbc3); [lia|].
    rewrite Hanim. cbn [mbind option_bind].
    change (board (with_last_chain st1 (chain + 1))) with (board st1) in Hlen3.
    destruct (IH (chain + 1) 1 st3 Hbd3 Hbc3)
      as (chain' & any' & st' & Hrun' & Hbd' & Hbc' & Heff & Hsame & Hmore); [lia|lia|].
    exists chain', any', st'. split; [exact Hrun'|]. split; [exact Hbd'|].
    split; [exact Hbc'|].
    assert (chain_effect chain (chain + 1) st st3) as Hfirst.
    { destruct (with_board_frame _ _ Hframe) as (H1 & H2 & H3 & H4 & H5).
      cbn [score level clears last_chain with_last_chain] in H1, H2, H3, H4.
      split; [lia|]. split; [lia|]. split; [intros _; lia|]. split; [lia|].
      by rewrite H5. }
    split; [by apply (chain_effect_trans chain (chain + 1) chain' st st3 st')|].
    destruct Heff as (Hle & _).
    split; [lia|]. intros _.
    destruct (decide (chain' = chain + 1)) as [Heq|Hne].
    + destruct (Hsame Heq) as [-> Hl]. split; [reflexivity|lia].
    + destruct (Hmore ltac:(lia)) as [-> Hl]. split; [reflexivity|lia].
Qed.

(** the outer loop returns *)
Lemma cascade_runs n chain st :
  is_board (board st) → is_board (board_color st) → 0 ≤ chain →
  (1902 + length (stones (board st)) < n)%nat →
  ∃ chain' st',
    cascade n chain st = Some (chain', st') ∧
    is_board (board st') ∧ is_board (board_color st') ∧
    chain_effect chain chain' st st' ∧
    (length (stones (board st')) ≤ length (stones (board st)))%nat.
Proof.
  revert chain st.
  induction n as [|n IH]; intros chain st Hbd Hbc Hch Hn; [lia|].
  change (cascade (S n) chain st) with
    ('(chain', any_wave_cleared, st1) ← cascade_waves n chain 0 st;
     st2 ← gravity n st1;
     if negb (truthy any_wave_cleared) then Some (chain', st2)
     else cascade n chain' st2).
  destruct (cascade_waves_runs n chain 0 st Hbd Hbc Hch)
    as (c1 & any1 & st1 & Hrun1 & Hbd1 & Hbc1 & Heff1 & Hsame & Hmore); [lia|].
  rewrite Hrun1. cbn [mbind option_bind].
  destruct (gravity_runs n st1) as (st2 & Hgrav & _ & Hframe & Hlen2 & Hbd2 & Hbc2); [lia|].
  rewrite Hgrav. cbn [mbind option_bind].
  assert (chain_effect chain c1 st st2) as Heff2.
  { apply (chain_effect_trans chain c1 c1 st st1 st2); [exact Heff1|].
    by apply chain_effect_frame. }
  pose proof (proj1 Heff1) as Hle.
  destruct (decide (c1 = chain)) as [Heq|Hne].
  - destruct (Hsame Heq) as [-> Hl]. simpl.
    exists c1, st2. split; [reflexivity|]. split; [exact Hbd2|]. split; [exact Hbc2|].
    split; [exact Heff2|]. lia.
  - destruct (Hmore ltac:(lia)) as [-> Hl]. simpl.
    destruct (IH c1 st2 Hbd2 Hbc2) as (c2 & st' & Hrun' & Hbd' & Hbc' & Heff' & Hlen');
      [lia|lia|].
    exists c2, st'. split; [exact Hrun'|]. split; [exact Hbd'|]. split; [exact Hbc'|].
    split; [by apply (chain_effect_trans chain c1 c2 st st2 st')|]. lia.
Qed.

Lemma placeBlock_boards b bx by_ st :
  is_board (board st) → is_board (board_color st) →
  is_board (board (placeBlock b bx by_ st)) ∧
  is_board (board_color (placeBlock b bx by_ st)) ∧
  placeBlock b bx by_ st =
    with_board st (board (placeBlock b bx by_ st))
               (board_color (placeBlock b bx by_ st)).
Proof.
  intros Hbd Hbc. unfold placeBlock.
  destruct (placeBlock_fold b bx by_ (cells SIZE SIZE) (board st) (board_color st) Hbd Hbc)
    as (Hb' & Hc' & _).
  destruct (foldl (placeBlock_cell b bx by_) (board st, board_color st) (cells SIZE SIZE))
    as [bd' bc'].
  cbn [fst snd] in *. simpl. split; [exact Hb'|]. split; [exact Hc'|reflexivity].
Qed.

Lemma lock_and_cascade_eq fuel st :
  lock_and_cascade fuel st =
    '(chain, st6) ← cascade fuel 0 (locked st);
    let st7 := if chain =? 0 then with_last_chain st6 0 else st6 in
    let st8 := with_input_locked st7 0 in
    if truthy (checkCollision (board st8) (current st8) (cx st8) (cy st8))
    then Some (GameOver st8) else Some (Returned st8).
Proof. reflexivity. Qed.

Lemma locked_frame st :
  is_board (board st) → is_board (board_color st) →
  is_board (board (locked st)) ∧ is_board (board_color (locked st)) ∧
  board (locked st) = board (placeBlock (current st) (cx st) (cy st) st) ∧
  board_color (locked st) = board_color (placeBlock (current st) (cx st) (cy st) st) ∧
  current (locked st) = next st ∧ next (locked st) = (makeBlock st).1 ∧
  rand_calls (locked st) = S (S (rand_calls st)) ∧
  rand_stream (locked st) = rand_stream st ∧
  max_colors (locked st) = max_colors st ∧
  cx (locked st) = 4 ∧ cy (locked st) = 0 ∧
  score (locked st) = score st ∧ level (locked st) = level st ∧
  clears (locked st) = clears st.
Proof.
  intros Hbd Hbc.
  destruct (placeBlock_boards (current st) (cx st) (cy st) st Hbd Hbc) as (Hb & Hc & _).
  unfold locked, placeBlock in *.
  cbn [board board_color current cx cy with_input_locked] in *.
  destruct (foldl (placeBlock_cell (current st) (cx st) (cy st))
              (board st, board_color st) (cells SIZE SIZE)) as [bd' bc'].
  split; [exact Hb|]. split; [exact Hc|]. by repeat split.
Qed.

(** lock_and_cascade ends, with at most 2103 units of fuel, and what it has
    done when it ends *)
Lemma lock_and_cascade_runs st :
  is_board (board st) → is_board (board_color st) →
  ∃ o, (∀ fuel, (2103 ≤ fuel)%nat → lock_and_cascade fuel st = Some o) ∧
       lock_effect st o.
Proof.
  intros Hbd Hbc.
  destruct (locked_frame st Hbd Hbc)
    as (Hb & Hc & _ & _ & Hcur & Hnext & Hcalls & Hstream & Hmax & Hcx & Hcy & Hsc & Hlv & Hcl).
  destruct (cascade_runs 2103 0 (locked st) Hb Hc)
    as (chain & st6 & Hrun & Hb6 & Hc6 & Heff & _);
    [lia|pose proof (stones_bound (board (locked st))); lia|].
  pose proof (cascade_at_rest _ _ _ _ _ Hrun) as Hrest.
  destruct Heff as (Hch & Hsame & Hmore & Hlev & Hun).
  remember (locked st) as st5 eqn:Hst5.
  unfold unwritten in Hun. inversion Hun as [[U1 U2 U3 U4 U5 U6 U7 U8 U9]].
  set (st8 := with_input_locked (if chain =? 0 then with_last_chain st6 0 else st6) 0).
  assert (board st8 = board st6 ∧ board_color st8 = board_color st6 ∧
          current st8 = current st6 ∧ next st8 = next st6 ∧
          cx st8 = cx st6 ∧ cy st8 = cy st6 ∧ rand_calls st8 = rand_calls st6 ∧
          rand_stream st8 = rand_stream st6 ∧ max_colors st8 = max_colors st6 ∧
          score st8 = score st6 ∧ level st8 = level st6 ∧ clears st8 = clears st6 ∧
          input_locked st8 = 0)
    as (E1 & E2 & E3 & E4 & E5 & E6 & E7 & E8 & E9 & E10 & E11 & E12 & E13).
  { unfold st8. by destruct (chain =? 0). }
  assert (last_chain st8 = chain) as Hlast.
  { unfold st8. destruct (chain =? 0) eqn:Hz.
    - apply Z.eqb_eq in Hz. by subst chain.
    - apply Z.eqb_neq in Hz. simpl. apply Hmore. lia. }
  assert ((gravityFailSafe st8).1 = 0) as Hrest8.
  { etransitivity; [|exact Hrest]. by apply gravityFailSafe_reads_boards. }
  assert (∀ o, outcome_state o = st8 →
            (o = Returned st8 ↔ piece_free st8) →
            (o = GameOver st8 ↔ ¬ piece_free st8) → lock_effect st o) as Heffect.
  { intros o Ho Hret Hover. unfold lock_effect. rewrite Ho.
    rewrite E1, E2, E3, E4, E5, E6, E7, E8, E9, E10, E11, E12, E13, Hlast.
    rewrite U1, U2, U3, U4, U5, U7, U8.
    rewrite Hcur, Hnext, Hcalls, Hstream, Hmax, Hcx, Hcy.
    split; [exact Hb6|]. split; [exact Hc6|].
    do 8 (split; [reflexivity|]). split; [exact Hch|].
    split; [intros ->; destruct (Hsame eq_refl) as (_ & ? & ? & ?); lia|].
    split; [intros Hpos; destruct (Hmore Hpos) as (_ & ?); lia|].
    split; [lia|]. split; [exact Hrest8|]. by split. }
  subst st5.
  destruct (truthy (checkCollision (board st8) (current st8) (cx st8) (cy st8))) eqn:Hcol.
  - exists (GameOver st8). split.
    + intros fuel Hf. rewrite lock_and_cascade_eq.
      rewrite (cascade_fuel 2103 fuel _ _ _ Hrun Hf). cbn [mbind option_bind].
      fold st8. by rewrite Hcol.
    + apply truthy_true in Hcol. apply Heffect; [reflexivity| |].
      * split; [discriminate|]. intros Hfree. contradiction.
      * split; [by intros _|reflexivity].
  - exists (Returned st8). split.
    + intros fuel Hf. rewrite lock_and_cascade_eq.
      rewrite (cascade_fuel 2103 fuel _ _ _ Hrun Hf). cbn [mbind option_bind].
      fold st8. by rewrite Hcol.
    + apply truthy_false in Hcol. apply Heffect; [reflexivity| |].
      * split; [by intros _|reflexivity].
      * split; [discriminate|]. intros Hnot. contradiction.
Qed.

(** the two places of main that lock a piece return as well *)
Lemma lock_then_settle_runs st :
  is_board (board st) → is_board (board_color st) →
  ∃ o, (∀ fuel, (2103 ≤ fuel)%nat → lock_then_settle fuel st = Some o) ∧
       is_board (board (outcome_state o)) ∧
       is_board (board_color (outcome_state o)).
Proof.
  intros Hbd Hbc.
  destruct (lock_and_cascade_runs st Hbd Hbc) as (o & Hrun & Hb1 & Hc1 & _).
  destruct o as [st1|st1]; simpl in Hb1, Hc1.
  - destruct (gravity_runs 2103 st1) as (st2 & Hgrav & _ & _ & _ & Hb2 & Hc2); [lia|].
    destruct (clearGroups_removed 2 st2 Hb2 Hc2)
      as (gs & total & st3 & Hclear & Hb3 & Hc3 & _).
    exists (Returned st3). split; [|by split].
    intros fuel Hf. unfold lock_then_settle. rewrite (Hrun fuel Hf).
    cbn [mbind option_bind]. rewrite (gravity_fuel 2103 fuel _ _ Hgrav Hf).
    cbn [mbind option_bind]. by rewrite Hclear.
  - exists (GameOver st1). split; [|by split].
    intros fuel Hf. unfold lock_then_settle. by rewrite (Hrun fuel Hf).
Qed.

(** X16: lock_and_cascade always ends, by returning or by exit(0): on every
    board and for every piece, 2103 units of fuel are enough (each wave that
    clears removes cells, of which there are at most 200, and each run of
    gravity ends within 1901 steps), and so does the sequence
    lock_and_cascade(); gravity(); clearGroups(1) of main.  It returns
    exactly when the new piece lies on free cells of the board and exits
    otherwise; in both cases the board it leaves is at rest. *)
Theorem lock_and_cascade_terminates (st : State) :
  is_board (board st) → is_board (board_color st) →
  ∃ o, (∀ fuel, (2103 ≤ fuel)%nat → lock_and_cascade fuel st = Some o) ∧
       (gravityFailSafe (outcome_state o)).1 = 0 ∧
       (o = Returned (outcome_state o) ↔ piece_free (outcome_state o)) ∧
       (o = GameOver (outcome_state o) ↔ ¬ piece_free (outcome_state o)) ∧
       ∃ o', ∀ fuel, (2103 ≤ fuel)%nat → lock_then_settle fuel st = Some o'.
Proof.
  intros Hbd Hbc.
  destruct (lock_and_cascade_runs st Hbd Hbc) as (o & Hrun & Heff).
  destruct (lock_then_settle_runs st Hbd Hbc) as (o' & Hrun' & _).
  exists o. split; [exact Hrun|].
  destruct Heff as (_ & _ & _ & _ & _ & _ & _ & _ & _ & _ & _ & _ & _ & _ & Hrest & Hret & Hover).
  split; [exact Hrest|]. split; [exact Hret|]. split; [exact Hover|]. by exists o'.
Qed.

Lemma lock_and_cascade_terminates_witness :
  let st := session (fill [(19, 3, 2); (19, 4, 2); (19, 5, 2); (18, 3, 2);
                           (19, 7, 1); (18, 7, 1); (17, 7, 1)])
                    (domino_up 2 1) 6 15 in
  ∃ o, (∀ fuel, (2103 ≤ fuel)%nat → lock_and_cascade fuel st = Some o) ∧
       (gravityFailSafe (outcome_state o)).1 = 0 ∧
       (o = Returned (outcome_state o) ↔ piece_free (outcome_state o)) ∧
       (o = GameOver (outcome_state o) ↔ ¬ piece_free (outcome_state o)) ∧
       ∃ o', ∀ fuel, (2103 ≤ fuel)%nat → lock_then_settle fuel st = Some o'.
Proof.
  intros st. apply (lock_and_cascade_terminates st); apply fill_is_board.
Defined.

(** * The boards the program keeps *)

Lemma placeBlock_good K b bx by_ st :
  1 ≤ K → colored K b → good_boards (board st) (board_color st) →
  good_boards (board (placeBlock b bx by_ st)) (board_color (placeBlock b bx by_ st)).
Proof.
  intros HK Hcol (Hbd & Hbc & Hbin & Hinv).
  destruct (placeBlock_color_inv K b bx by_ st HK Hcol Hbd Hbc Hinv) as (Hb' & Hc' & Hinv').
  split; [exact Hb'|]. split; [exact Hc'|]. split; [|exact Hinv'].
  unfold placeBlock in *.
  destruct (placeBlock_fold b bx by_ (cells SIZE SIZE) (board st) (board_color st) Hbd Hbc)
    as (_ & _ & Hcells).
  destruct (foldl (placeBlock_cell b bx by_) (board st, board_color st) (cells SIZE SIZE))
    as [bd' bc'].
  cbn [fst snd] in *. simpl. intros d Hd. destruct (Hcells d Hd) as [Hin Hout].
  destruct (decide ((d.1 - by_, d.2 - bx) ∈ cells SIZE SIZE ∧
                    get (shape b) (d.1 - by_) (d.2 - bx) ≠ 0)) as [[H1 H2]|Hno].
  - right. by apply Hin.
  - destruct (Hout Hno) as [-> _]. by apply Hbin.
Qed.

Lemma gravityFailSafe_good st :
  good_boards (board st) (board_color st) →
  good_boards (board (gravityFailSafe st).2) (board_color (gravityFailSafe st).2).
Proof.
  intros (Hbd & Hbc & _ & Hinv).
  destruct (gravityFailSafe_color_inv st Hbd Hbc Hinv) as (Hb' & Hc' & Hinv').
  split; [exact Hb'|]. split; [exact Hc'|]. split; [apply gravityFailSafe_binary|exact Hinv'].
Qed.

Lemma gravity_good n st st' :
  gravity n st = Some st' → good_boards (board st) (board_color st) →
  good_boards (board st') (board_color st').
Proof.
  revert st. induction n as [|n IH]; intros st Hrun Hgood; [discriminate|].
  rewrite gravity_S in Hrun. apply gravityFailSafe_good in Hgood.
  destruct (truthy (gravityFailSafe st).1); [by apply (IH _ Hrun)|].
  by inversion Hrun; subst.
Qed.

Lemma clearGroups_good m st total st' :
  clearGroups m st = Some (total, st') → good_boards (board st) (board_color st) →
  good_boards (board st') (board_color st').
Proof.
  intros Hrun (Hbd & Hbc & Hbin & Hinv).
  destruct (clearGroups_removed m st Hbd Hbc)
    as (gs & total0 & st0 & Hrun0 & Hbd' & Hbc' & _ & _ & _ & Hgone & Hkept & _).
  rewrite Hrun in Hrun0. inversion Hrun0; subst total0 st0. clear Hrun0.
  split; [exact Hbd'|]. split; [exact Hbc'|]. split.
  - intros c Hc. destruct (decide (c ∈ mjoin gs)) as [Hin|Hout].
    + left. by apply Hgone.
    + rewrite (proj1 (Hkept c Hout)). by apply Hbin.
  - intros c Hc. destruct (decide (c ∈ mjoin gs)) as [Hin|Hout].
    + by destruct (Hgone c Hin) as [-> ->].
    + destruct (Hkept c Hout) as [-> ->]. by apply Hinv.
Qed.

Lemma cascade_waves_good n chain any st chain' any' st' :
  cascade_waves n chain any st = Some (chain', any', st') →
  good_boards (board st) (board_color st) → good_boards (board st') (board_color st').
Proof.
  revert chain any st. induction n as [|n IH]; intros chain any st Hrun Hgood;
    [discriminate|].
  change (cascade_waves (S n) chain any st) with
    ('(cleared, st1) ← clearGroups (2 + chain) st;
     if cleared =? 0 then Some (chain, any, st1)
     else st3 ← animateGravity n (with_last_chain st1 (chain + 1));
          cascade_waves n (chain + 1) 1 st3) in Hrun.
  destruct (clearGroups (2 + chain) st) as [[cleared st1]|] eqn:Hclear; [|discriminate].
  cbn [mbind option_bind] in Hrun.
  pose proof (clearGroups_good _ _ _ _ Hclear Hgood) as Hgood1.
  destruct (cleared =? 0); [by inversion Hrun; subst|].
  destruct (animateGravity n (with_last_chain st1 (chain + 1))) as [st3|] eqn:Hanim;
    [|discriminate].
  cbn [mbind option_bind] in Hrun. rewrite animateGravity_gravity in Hanim.
  apply (IH _ _ _ Hrun). by apply (gravity_good _ _ _ Hanim).
Qed.

Lemma cascade_good n chain st chain' st' :
  cascade n chain st = Some (chain', st') →
  good_boards (board st) (board_color st) → good_boards (board st') (board_color st').
Proof.
  revert chain st. induction n as [|n IH]; intros chain st Hrun Hgood; [discriminate|].
  change (cascade (S n) chain st) with
    ('(chain', any_wave_cleared, st1) ← cascade_waves n chain 0 st;
     st2 ← gravity n st1;
     if negb (truthy any_wave_cleared) then Some (chain', st2)
     else cascade n chain' st2) in Hrun.
  destruct (cascade_waves n chain 0 st) as [[[c1 any1] st1]|] eqn:Hwaves; [|discriminate].
  cbn [mbind option_bind] in Hrun.
  destruct (gravity n st1) as [st2|] eqn:Hgrav; [|discriminate].
  cbn [mbind option_bind] in Hrun.
  assert (good_boards (board st2) (board_color st2)) as Hgood2.
  { apply (gravity_good _ _ _ Hgrav). by apply (cascade_waves_good _ _ _ _ _ _ _ Hwaves). }
  destruct (negb (truthy any1)); [by inversion Hrun; subst|]. by apply (IH _ _ Hrun).
Qed.

Lemma lock_and_cascade_good fuel st o :
  lock_and_cascade fuel st = Some o →
  1 ≤ max_colors st → colored (max_colors st) (current st) →
  good_boards (board st) (board_color st) →
  good_boards (board (outcome_state o)) (board_color (outcome_state o)).
Proof.
  intros Hrun HK Hcol Hgood.
  pose proof (placeBlock_good _ (current st) (cx st) (cy st) st HK Hcol Hgood) as Hplaced.
  destruct Hgood as (Hbd & Hbc & _).
  destruct (locked_frame st Hbd Hbc) as (_ & _ & Eb & Ec & _).
  rewrite <- Eb, <- Ec in Hplaced.
  rewrite lock_and_cascade_eq in Hrun.
  destruct (cascade fuel 0 (locked st)) as [[chain st6]|] eqn:Hcasc; [|discriminate].
  cbn [mbind option_bind] in Hrun.
  pose proof (cascade_good _ _ _ _ _ Hcasc Hplaced) as Hgood6.
  set (st8 := with_input_locked (if chain =? 0 then with_last_chain st6 0 else st6) 0) in *.
  assert (board st8 = board st6 ∧ board_color st8 = board_color st6) as [E1 E2]
    by (unfold st8; by destruct (chain =? 0)).
  assert (outcome_state o = st8) as ->.
  { cbv zeta in Hrun.
    destruct (truthy (checkCollision (board st8) (current st8) (cx st8) (cy st8)));
      by inversion Hrun. }
  by rewrite E1, E2.
Qed.

(** * The active piece stays on free cells *)

Lemma gravity_frame n st st' :
  gravity n st = Some st' → st' = with_board st (board st') (board_color st').
Proof.
  revert st. induction n as [|n IH]; intros st Hrun; [discriminate|].
  rewrite gravity_S in Hrun.
  destruct (gravityFailSafe_cells st) as (Hframe & _).
  destruct (truthy (gravityFailSafe st).1).
  - etransitivity; [exact (IH _ Hrun)|]. rewrite Hframe. reflexivity.
  - by inversion Hrun; subst.
Qed.

(** on good boards at rest, gravity() changes nothing *)
Lemma gravity_rest_same n st :
  good_boards (board st) (board_color st) → (gravityFailSafe st).1 = 0 →
  gravity (S n) st = Some st.
Proof.
  intros (Hbd & Hbc & Hbin & Hinv) Hrest. rewrite gravity_S, Hrest. simpl.
  by rewrite (gravityFailSafe_same st Hbd Hbc Hbin Hinv Hrest).
Qed.

(** * lock_and_cascade: the waves *)

Lemma gravity_unique n m st a b :
  gravity n st = Some a → gravity m st = Some b → a = b.
Proof.
  intros Ha Hb.
  pose proof (gravity_fuel n (n + m) st a Ha ltac:(lia)) as H1.
  pose proof (gravity_fuel m (n + m) st b Hb ltac:(lia)) as H2.
  rewrite H1 in H2. by inversion H2.
Qed.

(** the boards a gravityFailSafe step writes are tidy *)
Lemma gravityFailSafe_tidy st :
  tidy (board (gravityFailSafe st).2) (board_color (gravityFailSafe st).2).
Proof.
  split; [apply gravityFailSafe_binary|]. intros d Hd Hz.
  destruct (gravityFailSafe_cells st) as (_ & _ & _ & _ & Hland & Hfree).
  apply Hfree. intros c Hc Hocc Heq.
  destruct (Hland c Hc Hocc) as [H1 _]. rewrite Heq in H1. congruence.
Qed.

Lemma gravity_tidy n st st' :
  gravity n st = Some st' → tidy (board st') (board_color st').
Proof.
  revert st. induction n as [|n IH]; intros st Hrun; [discriminate|].
  rewrite gravity_S in Hrun.
  destruct (truthy (gravityFailSafe st).1); [by apply (IH _ Hrun)|].
  inversion Hrun; subst. apply gravityFailSafe_tidy.
Qed.

(** on tidy boards at rest a step changes nothing *)
Lemma gravityFailSafe_keeps st :
  is_board (board st) → is_board (board_color st) →
  tidy (board st) (board_color st) →
  (gravityFailSafe st).1 = 0 → (gravityFailSafe st).2 = st.
Proof.
  intros Hbd Hbc [Hbin Hempty] Hrest.
  destruct (gravityFailSafe_cells st) as (Hframe & Hb & Hbc' & _ & Hland & Hfree).
  destruct (gravityFailSafe_spec st) as (_ & _ & Hmoved).
  pose proof (proj1 Hmoved Hrest) as Hstay.
  assert (∀ c, on_board c →
            rd (board (gravityFailSafe st).2) c = rd (board st) c ∧
            rd (board_color (gravityFailSafe st).2) c = rd (board_color st) c) as Hsame.
  { intros c Hc. destruct (decide (rd (board st) c = 0)) as [Hz|Hocc].
    - destruct (Hfree c) as [-> ->].
      + intros c' Hc' Hocc' Heq. apply Hocc'.
        assert (landing (board st) c' = c') as Hl by (apply landing_same; by apply Hstay).
        by rewrite <- Hl, Heq.
      + split; [by rewrite Hz|]. symmetry. by apply Hempty.
    - assert (landing (board st) c = c) as Hl by (apply landing_same; by apply Hstay).
      destruct (Hland c Hc Hocc) as [H1 H2]. rewrite Hl in H1, H2.
      split; [|exact H2]. rewrite H1. destruct (Hbin c Hc); congruence. }
  rewrite Hframe.
  assert (board (gravityFailSafe st).2 = board st) as ->.
  { apply (grid_ext HEIGHT WIDTH); [assumption..|].
    intros y x Hy Hx. by apply (Hsame (y, x)). }
  assert (board_color (gravityFailSafe st).2 = board_color st) as ->.
  { apply (grid_ext HEIGHT WIDTH); [assumption..|].
    intros y x Hy Hx. by apply (Hsame (y, x)). }
  by destruct st.
Qed.

(** gravity() on boards that a run of gravity has left changes nothing *)
Lemma gravity_again n st st' m s :
  gravity n st = Some st' →
  board s = board st' → board_color s = board_color st' →
  gravity (S m) s = Some s.
Proof.
  intros Hrun Hb Hc.
  assert ((gravityFailSafe s).1 = 0) as Hrest.
  { rewrite (gravityFailSafe_reads_boards s st' Hb Hc).
    by apply (gravity_at_rest n st). }
  rewrite gravity_S, Hrest. simpl. f_equal.
  destruct (gravity_boards n st st' Hrun) as [Hbd Hbc].
  apply gravityFailSafe_keeps; [by rewrite Hb|by rewrite Hc| |exact Hrest].
  rewrite Hb, Hc. by apply (gravity_tidy n st).
Qed.

(** a pass that returns 0 has found no region of four cells and has left the
    boards and the counters as they were *)
Lemma clearGroups_none m st st1 :
  is_board (board st) → is_board (board_color st) →
  clearGroups m st = Some (0, st1) →
  board st1 = board st ∧ board_color st1 = board_color st ∧
  score st1 = score st ∧ clears st1 = clears st ∧ level st1 = level st ∧
  unwritten st1 = unwritten st ∧ last_chain st1 = last_chain st ∧
  (∀ R, region (board st) (board_color st) R → size R < 4).
Proof.
  intros Hbd Hbc Hrun.
  destruct (clearGroups_removed m st Hbd Hbc)
    as (gs & total & st' & Hrun' & Hbd' & Hbc' & Hgs & _ & Hfound & _ & Hkept & Hscore
        & Htotal & Hclears & _ & Hlevel & Hun & Hlc).
  rewrite Hrun in Hrun'.
  assert (total = 0) as Hzero by congruence.
  assert (st' = st1) as -> by congruence.
  rewrite Hzero in Htotal. clear Hrun' Hzero.
  assert (gs = []) as ->.
  { destruct gs as [|g gs]; [reflexivity|].
    assert (4 * Z.of_nat (length (g :: gs)) ≤ 0).
    { rewrite Htotal. apply sum_with_at_least. intros h Hh. by destruct (Hgs h Hh). }
    simpl length in *. lia. }
  split.
  { apply (grid_ext HEIGHT WIDTH); [assumption..|].
    intros y x _ _. apply (Hkept (y, x)). simpl. inversion 1. }
  split.
  { apply (grid_ext HEIGHT WIDTH); [assumption..|].
    intros y x _ _. apply (Hkept (y, x)). simpl. inversion 1. }
  split; [by rewrite Hscore|]. split; [rewrite Hclears; simpl; lia|].
  split; [by apply Hlevel|]. split; [exact Hun|]. split; [exact Hlc|].
  intros R HR. destruct (decide (size R < 4)) as [|Hbig]; [assumption|].
  destruct (Hfound R HR ltac:(lia)) as (g & Hg & _). inversion Hg.
Qed.

(** where there is no region of four cells a pass returns 0 *)
Lemma clearGroups_no_region m st :
  is_board (board st) → is_board (board_color st) →
  (∀ R, region (board st) (board_color st) R → size R < 4) →
  ∃ st1, clearGroups m st = Some (0, st1).
Proof.
  intros Hbd Hbc Hsmall.
  destruct (clearGroups_removed m st Hbd Hbc)
    as (gs & total & st' & Hrun & _ & _ & Hgs & _ & _ & _ & _ & _ & Htotal & _).
  assert (gs = []) as ->.
  { destruct gs as [|g gs]; [reflexivity|].
    destruct (Hgs g ltac:(by left)) as [HR H4]. specialize (Hsmall g HR). lia. }
  exists st'. by rewrite Hrun, Htotal.
Qed.

Lemma clearGroups_keeps_boards m st total st1 :
  is_board (board st) → is_board (board_color st) →
  clearGroups m st = Some (total, st1) →
  is_board (board st1) ∧ is_board (board_color st1) ∧
  unwritten st1 = unwritten st.
Proof.
  intros Hbd Hbc Hrun.
  destruct (clearGroups_removed m st Hbd Hbc)
    as (gs & total' & st' & Hrun' & Hbd' & Hbc' & _ & _ & _ & _ & _ & _ & _ & _ & _
        & _ & Hun & _).
  rewrite Hrun in Hrun'. inversion Hrun'; subst. by split.
Qed.

Lemma locked_speed st :
  is_board (board st) → is_board (board_color st) →
  base_speed (locked st) = base_speed st.
Proof.
  intros Hbd Hbc. unfold locked, placeBlock.
  cbn [board board_color current cx cy with_input_locked].
  by destruct (foldl (placeBlock_cell (current st) (cx st) (cy st))
                 (board st, board_color st) (cells SIZE SIZE)) as [bd' bc'].
Qed.

(** the waves of a cascade are determined by the state it starts in *)
Lemma waves_unique d st n1 s1 n2 s2 :
  waves d st n1 s1 → waves d st n2 s2 → n1 = n2 ∧ s1 = s2.
Proof.
  intros H1. revert n2 s2.
  induction H1 as [d st st' Hend|d st total st1 fuel st2 n st' Hpass Hsome Hfall Hrest IH];
    intros n2 s2 H2.
  - inversion H2 as [d' a b Hend'|d' a total' st1' fuel' st2' n' b Hpass' Hsome']; subst.
    + rewrite Hend in Hend'. by inversion Hend'.
    + rewrite Hend in Hpass'. inversion Hpass'; subst. contradiction.
  - inversion H2 as [d' a b Hend'|d' a total' st1' fuel' st2' n' b Hpass' Hsome' Hfall' Hrest'];
      subst.
    + rewrite Hpass in Hend'. inversion Hend'; subst. contradiction.
    + rewrite Hpass in Hpass'. inversion Hpass'; subst total' st1'. clear Hpass'.
      rewrite animateGravity_gravity in Hfall, Hfall'.
      pose proof (gravity_unique _ _ _ _ _ Hfall Hfall') as ->.
      destruct (IH n' s2 Hrest') as [-> ->]. by split.
Qed.

(** the inner loop of lock_and_cascade runs the waves *)
Lemma cascade_waves_trace n chain any st chain' any' st' :
  is_board (board st) → is_board (board_color st) →
  cascade_waves n chain any st = Some (chain', any', st') →
  ∃ k, waves chain st k st' ∧ chain' = chain + Z.of_nat k ∧
    is_board (board st') ∧ is_board (board_color st') ∧
    unwritten st' = unwritten st ∧
    (∀ R, region (board st') (board_color st') R → size R < 4) ∧
    (k = 0%nat → any' = any ∧ board st' = board st ∧
       board_color st' = board_color st ∧ last_chain st' = last_chain st) ∧
    (k ≠ 0%nat → any' = 1 ∧ last_chain st' = chain' ∧
       ∃ fuel s sg, gravity fuel s = Some sg ∧
         board st' = board sg ∧ board_color st' = board_color sg).
Proof.
  revert chain any st. induction n as [|n IH]; intros chain any st Hbd Hbc Hrun;
    [discriminate|].
  change (cascade_waves (S n) chain any st) with
    ('(cleared, st1) ← clearGroups (2 + chain) st;
     if cleared =? 0 then Some (chain, any, st1)
     else st3 ← animateGravity n (with_last_chain st1 (chain + 1));
          cascade_waves n (chain + 1) 1 st3) in Hrun.
  destruct (clearGroups (2 + chain) st) as [[cleared st1]|] eqn:Hclear; [|discriminate].
  cbn [mbind option_bind] in Hrun.
  destruct (clearGroups_keeps_boards _ _ _ _ Hbd Hbc Hclear) as (Hbd1 & Hbc1 & Hun1).
  destruct (cleared =? 0) eqn:Hz.
  - apply Z.eqb_eq in Hz. subst cleared.
    assert (chain' = chain ∧ any' = any ∧ st' = st1) as (-> & -> & ->)
      by (repeat split; congruence).
    destruct (clearGroups_none _ _ _ Hbd Hbc Hclear)
      as (Eb & Ec & _ & _ & _ & _ & Elc & Hsmall).
    exists 0%nat. split; [by apply waves_end|]. split; [simpl; lia|].
    split; [exact Hbd1|]. split; [exact Hbc1|]. split; [exact Hun1|].
    split; [by rewrite Eb, Ec|].
    split; [by intros _|]. intros Hne. contradiction.
  - apply Z.eqb_neq in Hz.
    destruct (animateGravity n (with_last_chain st1 (chain + 1))) as [st3|] eqn:Hanim;
      [|discriminate].
    cbn [mbind option_bind] in Hrun.
    pose proof Hanim as Hgrav. rewrite animateGravity_gravity in Hgrav.
    destruct (gravity_boards _ _ _ Hgrav) as [Hbd3 Hbc3].
    destruct (with_board_frame _ _ (gravity_frame _ _ _ Hgrav)) as (_ & _ & _ & Hlc3 & Hun3).
    cbn [last_chain with_last_chain] in Hlc3.
    change (unwritten (with_last_chain st1 (chain + 1))) with (unwritten st1) in Hun3.
    destruct (IH _ _ _ Hbd3 Hbc3 Hrun)
      as (k & Hwaves & Hchain & Hbd' & Hbc' & Hun' & Hsmall & Hnone & Hsome).
    exists (S k). split; [by apply (waves_more chain st cleared st1 n st3 k st')|].
    split; [lia|]. split; [exact Hbd'|]. split; [exact Hbc'|].
    split; [by rewrite Hun', Hun3|]. split; [exact Hsmall|].
    split; [discriminate|]. intros _.
    destruct k as [|k].
    + destruct (Hnone eq_refl) as (-> & Eb & Ec & Elc).
      split; [reflexivity|]. split; [rewrite Elc, Hlc3; simpl in Hchain; lia|].
      exists n, (with_last_chain st1 (chain + 1)), st3. by split.
    + by apply Hsome.
Qed.

(** the outer loop: after the waves, one run of gravity; when a wave has
    cleared, the loop goes round once more, and that round changes neither
    the boards nor the counters *)
Lemma cascade_trace n chain st chain' st' :
  is_board (board st) → is_board (board_color st) →
  cascade n chain st = Some (chain', st') →
  ∃ k st_w fuel_g st_g,
    waves chain st k st_w ∧ chain' = chain + Z.of_nat k ∧
    gravity fuel_g st_w = Some st_g ∧
    board st' = board st_g ∧ board_color st' = board_color st_g ∧
    score st' = score st_w ∧ clears st' = clears st_w ∧ level st' = level st_w ∧
    unwritten st' = unwritten st ∧
    (k = 0%nat → last_chain st' = last_chain st) ∧
    (k ≠ 0%nat → last_chain st' = chain').
Proof.
  intros Hbd Hbc Hrun. destruct n as [|n]; [discriminate|].
  change (cascade (S n) chain st) with
    ('(chain', any_wave_cleared, st1) ← cascade_waves n chain 0 st;
     st2 ← gravity n st1;
     if negb (truthy any_wave_cleared) then Some (chain', st2)
     else cascade n chain' st2) in Hrun.
  destruct (cascade_waves n chain 0 st) as [[[c1 any1] st1]|] eqn:Hwaves; [|discriminate].
  cbn [mbind option_bind] in Hrun.
  destruct (gravity n st1) as [st2|] eqn:Hgrav; [|discriminate].
  cbn [mbind option_bind] in Hrun.
  destruct (cascade_waves_trace _ _ _ _ _ _ _ Hbd Hbc Hwaves)
    as (k & Hk & Hc1 & Hbd1 & Hbc1 & Hun1 & Hsmall & Hnone & Hsome).
  destruct k as [|k].
  - destruct (Hnone eq_refl) as (-> & _ & _ & Elc). simpl in Hrun.
    assert (chain' = c1 ∧ st' = st2) as [-> ->] by (split; congruence).
    destruct (with_board_frame _ _ (gravity_frame _ _ _ Hgrav))
      as (Es & El & Ecl & Elc2 & Eun).
    exists 0%nat, st1, n, st2. split; [exact Hk|]. split; [exact Hc1|].
    split; [exact Hgrav|]. split; [reflexivity|]. split; [reflexivity|].
    split; [exact Es|]. split; [exact Ecl|]. split; [exact El|].
    split; [by rewrite Eun|].
    split; [intros _; by rewrite Elc2|]. intros Hne. contradiction.
  - destruct (Hsome ltac:(discriminate)) as (-> & Elc & fuel & s & sg & Hsg & Eb & Ec).
    simpl in Hrun.
    destruct n as [|m]; [discriminate|].
    pose proof (gravity_again _ _ _ m st1 Hsg Eb Ec) as Hstay.
    assert (st2 = st1) as -> by (rewrite Hstay in Hgrav; by inversion Hgrav).
    change (cascade (S m) c1 st1) with
      ('(chain', any_wave_cleared, st1') ← cascade_waves m c1 0 st1;
       st2 ← gravity m st1';
       if negb (truthy any_wave_cleared) then Some (chain', st2)
       else cascade m chain' st2) in Hrun.
    destruct (cascade_waves m c1 0 st1) as [[[c2 any2] st1']|] eqn:Hwaves2; [|discriminate].
    cbn [mbind option_bind] in Hrun.
    destruct (gravity m st1') as [st2'|] eqn:Hgrav2; [|discriminate].
    cbn [mbind option_bind] in Hrun.
    destruct (cascade_waves_trace _ _ _ _ _ _ _ Hbd1 Hbc1 Hwaves2)
      as (k2 & Hk2 & Hc2 & Hbd2 & Hbc2 & Hun2 & _ & Hnone2 & _).
    assert (k2 = 0%nat) as ->.
    { destruct (clearGroups_no_region (2 + c1) st1 Hbd1 Hbc1 Hsmall) as (sz & Hzero).
      inversion Hk2 as [|d a total s1 f s2 n' b Hpass Hpos]; subst; [reflexivity|].
      rewrite Hzero in Hpass. inversion Hpass; subst. contradiction. }
    destruct (Hnone2 eq_refl) as (-> & Eb2 & Ec2 & Elc2). simpl in Hrun.
    assert (chain' = c2 ∧ st' = st2') as [-> ->] by (split; congruence).
    assert (c2 = c1) as -> by (simpl in Hc2; lia).
    inversion Hk2 as [d a b Hpass|]; subst.
    destruct (clearGroups_none _ _ _ Hbd1 Hbc1 Hpass)
      as (_ & _ & Es & Ecl & El & Eun & _ & _).
    destruct m as [|m']; [discriminate|].
    assert (st2' = st1') as ->.
    { pose proof (gravity_again _ _ _ m' st1' Hsg) as Hstay'.
      rewrite Hstay' in Hgrav2; [by inversion Hgrav2|congruence|congruence]. }
    exists (S k), st1, (S (S m')), st1. split; [exact Hk|]. split; [reflexivity|].
    split; [exact Hstay|]. split; [exact Eb2|]. split; [exact Ec2|].
    split; [exact Es|]. split; [exact Ecl|]. split; [exact El|].
    split; [by rewrite Hun2|].
    split; [discriminate|]. intros _. by rewrite Elc2.
Qed.

(** X17: what lock_and_cascade has done when it ends.  The piece that was
    [next] is the current piece, at column 4 and row 0; [next] is the piece
    makeBlock makes from the next two values of rand; input is unlocked;
    max_colors and base_speed are unchanged.  From the state in which the
    piece has been written to the boards, the cascade runs [n] waves, each a
    clear pass that removes cells (the i-th, counted from 0, with the
    multiplier 1 + 0.5 * i) followed by a run of gravity, and then a pass
    that removes nothing; [n] is determined by that state, and last_chain is
    exactly [n].  After these passes come only runs of gravity and passes
    that remove nothing: the score, clears and the level are those the last
    of the passes left (those at the call if [n] is 0), and the boards are
    those that one run of gravity makes of the boards that pass left.  The
    board is at rest, and the function returns exactly when checkCollision
    accepts the new piece.  (fade_timer, which times the display of the
    chain text, is not part of the state.) *)
Theorem lock_and_cascade_frame (fuel : nat) (st : State) (o : outcome) :
  is_board (board st) → is_board (board_color st) →
  lock_and_cascade fuel st = Some o →
  is_board (board (outcome_state o)) ∧ is_board (board_color (outcome_state o)) ∧
  current (outcome_state o) = next st ∧ next (outcome_state o) = (makeBlock st).1 ∧
  rand_calls (outcome_state o) = S (S (rand_calls st)) ∧
  rand_stream (outcome_state o) = rand_stream st ∧
  max_colors (outcome_state o) = max_colors st ∧
  base_speed (outcome_state o) = base_speed st ∧
  cx (outcome_state o) = 4 ∧ cy (outcome_state o) = 0 ∧
  input_locked (outcome_state o) = 0 ∧
  (gravityFailSafe (outcome_state o)).1 = 0 ∧
  (o = Returned (outcome_state o) ↔ piece_free (outcome_state o)) ∧
  (o = GameOver (outcome_state o) ↔ ¬ piece_free (outcome_state o)) ∧
  ∃ n st_w fuel_g st_g,
    waves 0 (locked st) n st_w ∧
    (∀ n' s, waves 0 (locked st) n' s → n' = n ∧ s = st_w) ∧
    last_chain (outcome_state o) = Z.of_nat n ∧
    gravity fuel_g st_w = Some st_g ∧
    board (outcome_state o) = board st_g ∧
    board_color (outcome_state o) = board_color st_g ∧
    score (outcome_state o) = score st_w ∧
    clears (outcome_state o) = clears st_w ∧
    level (outcome_state o) = level st_w ∧
    (n = 0%nat →
       score (outcome_state o) = score st ∧ clears (outcome_state o) = clears st ∧
       level (outcome_state o) = level st).
Proof.
  intros Hbd Hbc Hrun.
  destruct (lock_and_cascade_runs st Hbd Hbc) as (o' & Hrun' & Heff).
  assert (o' = o) as ->.
  { pose proof (lock_and_cascade_fuel fuel (fuel + 2103) st o Hrun ltac:(lia)) as H1.
    rewrite (Hrun' (fuel + 2103)%nat ltac:(lia)) in H1. by inversion H1. }
  destruct Heff as (E1 & E2 & E3 & E4 & E5 & E6 & E7 & E8 & E9 & E10 & _ & _ & _ & _
                    & Erest & Eret & Eover).
  do 7 (split; [assumption|]).
  destruct (locked_frame st Hbd Hbc)
    as (Hb & Hc & _ & _ & _ & _ & _ & _ & _ & _ & _ & Hsc & Hlv & Hcl).
  rewrite lock_and_cascade_eq in Hrun.
  destruct (cascade fuel 0 (locked st)) as [[chain st6]|] eqn:Hcasc; [|discriminate].
  cbn [mbind option_bind] in Hrun.
  destruct (cascade_trace _ _ _ _ _ Hb Hc Hcasc)
    as (n & st_w & fuel_g & st_g & Hwaves & Hchain & Hgrav & Eb & Ec & Es & Ecl & El
        & Eun & Hlc0 & Hlc).
  set (st8 := with_input_locked (if chain =? 0 then with_last_chain st6 0 else st6) 0) in *.
  assert (outcome_state o = st8) as Ho.
  { cbv zeta in Hrun.
    destruct (truthy (checkCollision (board st8) (current st8) (cx st8) (cy st8)));
      by inversion Hrun. }
  assert (board st8 = board st6 ∧ board_color st8 = board_color st6 ∧
          score st8 = score st6 ∧ level st8 = level st6 ∧ clears st8 = clears st6 ∧
          base_speed st8 = base_speed st6)
    as (F1 & F2 & F3 & F4 & F5 & F6).
  { unfold st8. by destruct (chain =? 0). }
  assert (last_chain st8 = Z.of_nat n) as Hlast.
  { unfold st8. destruct (chain =? 0) eqn:Hz.
    - apply Z.eqb_eq in Hz. simpl. lia.
    - apply Z.eqb_neq in Hz. simpl. rewrite Hlc; [lia|]. intros ->. simpl in Hchain. lia. }
  split.
  { rewrite Ho, F6, <- (locked_speed st Hbd Hbc).
    unfold unwritten in Eun. congruence. }
  do 6 (split; [assumption|]).
  exists n, st_w, fuel_g, st_g. split; [exact Hwaves|].
  split; [intros n' s Hw; by apply (waves_unique 0 (locked st))|].
  rewrite Ho, F1, F2, F3, F4, F5, Hlast.
  do 7 (split; [assumption || reflexivity|]).
  intros ->. inversion Hwaves as [d a b Hpass|]; subst.
  destruct (clearGroups_none _ _ _ Hb Hc Hpass) as (_ & _ & Gs & Gcl & Gl & _).
  rewrite Es, Ecl, El, Gs, Gcl, Gl. by rewrite Hsc, Hlv, Hcl.
Qed.

Lemma lock_and_cascade_frame_witness :
  let st := session (fill [(19, 3, 2); (19, 4, 2); (19, 5, 2); (18, 3, 2);
                           (19, 7, 1); (18, 7, 1); (17, 7, 1)])
                    (domino_up 2 1) 6 15 in
  let o := match lock_and_cascade 30 st with
           | Some o => o
           | None => GameOver st
           end in
  is_board (board (outcome_state o)) ∧ is_board (board_color (outcome_state o)) ∧
  current (outcome_state o) = next st ∧ next (outcome_state o) = (makeBlock st).1 ∧
  rand_calls (outcome_state o) = S (S (rand_calls st)) ∧
  rand_stream (outcome_state o) = rand_stream st ∧
  max_colors (outcome_state o) = max_colors st ∧
  base_speed (outcome_state o) = base_speed st ∧
  cx (outcome_state o) = 4 ∧ cy (outcome_state o) = 0 ∧
  input_locked (outcome_state o) = 0 ∧
  (gravityFailSafe (outcome_state o)).1 = 0 ∧
  (o = Returned (outcome_state o) ↔ piece_free (outcome_state o)) ∧
  (o = GameOver (outcome_state o) ↔ ¬ piece_free (outcome_state o)) ∧
  ∃ n st_w fuel_g st_g,
    waves 0 (locked st) n st_w ∧
    (∀ n' s, waves 0 (locked st) n' s → n' = n ∧ s = st_w) ∧
    last_chain (outcome_state o) = Z.of_nat n ∧
    gravity fuel_g st_w = Some st_g ∧
    board (outcome_state o) = board st_g ∧
    board_color (outcome_state o) = board_color st_g ∧
    score (outcome_state o) = score st_w ∧
    clears (outcome_state o) = clears st_w ∧
    level (outcome_state o) = level st_w ∧
    (n = 0%nat →
       score (outcome_state o) = score st ∧ clears (outcome_state o) = clears st ∧
       level (outcome_state o) = level st).
Proof.
  intros st o.
  apply (lock_and_cascade_frame 30 st o);
    [apply fill_is_board|apply fill_is_board|vm_compute; reflexivity].
Defined.

(** an upright piece in column 4 lies on free cells exactly when the two
    cells it covers, in column 5, are on the board and empty *)
Lemma upright_free st :
  cx st = 4 → shape (current st) = upright → 0 ≤ cy st →
  (piece_free st ↔
     cy st + 1 < HEIGHT ∧ get (board st) (cy st) 5 = 0 ∧
     get (board st) (cy st + 1) 5 = 0).
Proof.
  intros Hx Hs Hy. unfold piece_free. rewrite Hx.
  assert (in_block 0 1 ∧ in_block 1 1) as [I0 I1] by (unfold in_block, SIZE; lia).
  destruct (checkCollision_cases (board st) (current st) 4 (cy st))
    as [[Hc (y & x & Hin & Hocc & Hbl)]|[Hc Hfree]]; rewrite Hc.
  - split; [discriminate|]. intros (Hlow & H0 & H1). exfalso.
    rewrite Hs in Hocc. destruct Hin as [Hy' Hx']. unfold SIZE, HEIGHT, WIDTH in *.
    assert (y = 0 ∨ y = 1 ∨ y = 2) as [-> | [-> | ->]] by lia;
      assert (x = 0 ∨ x = 1 ∨ x = 2) as [-> | [-> | ->]] by lia;
      cbv in Hocc; try congruence;
      destruct Hbl as [?|[?|[?|[_ Hhit]]]]; try lia; apply Hhit.
    + by replace (cy st + 0) with (cy st) by lia.
    + exact H1.
  - split; [intros _|done].
    assert (cy st + 1 < HEIGHT) as Hlow.
    { destruct (decide (cy st + 1 < HEIGHT)) as [|Hge]; [assumption|].
      exfalso. apply (Hfree 1 1 I1). split; [by rewrite Hs|].
      right; right; left. lia. }
    split; [exact Hlow|]. split.
    + destruct (decide (get (board st) (cy st) 5 = 0)) as [|Hne]; [assumption|].
      exfalso. apply (Hfree 0 1 I0). split; [by rewrite Hs|].
      right; right; right. split; [lia|].
      by replace (cy st + 0) with (cy st) by lia.
    + destruct (decide (get (board st) (cy st + 1) 5 = 0)) as [|Hne]; [assumption|].
      exfalso. apply (Hfree 1 1 I1). split; [by rewrite Hs|].
      right; right; right. split; [lia|exact Hne].
Qed.

(** a gravity step puts nothing on the top rows of a column that are empty *)
Lemma gravityFailSafe_top st x r :
  (∀ y, 0 ≤ y ≤ r → get (board st) y x = 0) →
  ∀ y, 0 ≤ y ≤ r → get (board (gravityFailSafe st).2) y x = 0.
Proof.
  intros Hempty y Hy.
  destruct (gravityFailSafe_spec st) as (_ & Hcells & _).
  destruct (decide (get (board (gravityFailSafe st).2) y x = 0)) as [|Hocc]; [assumption|].
  exfalso. apply (Hcells (y, x)) in Hocc as ([y0 x0] & Hon & Hocc0 & Heq).
  simpl in Heq. inversion Heq as [[Hrow Hcol]]. subst x0.
  destruct (fall_rests (board st) x y0) as (Hle & _).
  apply Hocc0. apply (Hempty y0). destruct Hon as [Hy0 _]. simpl in Hy0. lia.
Qed.

Lemma gravity_top n st st' x r :
  gravity n st = Some st' →
  (∀ y, 0 ≤ y ≤ r → get (board st) y x = 0) →
  ∀ y, 0 ≤ y ≤ r → get (board st') y x = 0.
Proof.
  revert st. induction n as [|n IH]; intros st Hrun Hempty; [discriminate|].
  rewrite gravity_S in Hrun. pose proof (gravityFailSafe_top st x r Hempty) as Hstep.
  destruct (truthy (gravityFailSafe st).1); [by apply (IH _ Hrun)|].
  by inversion Hrun; subst.
Qed.

(** gravity() leaves a new piece with nothing above it on free cells *)
Lemma gravity_fresh n st st' :
  gravity n st = Some st' → fresh st → piece_free st →
  fresh st' ∧ piece_free st'.
Proof.
  intros Hrun (Hx & Hs & Hy & Hempty) Hfree.
  pose proof (gravity_frame n st st' Hrun) as Hframe.
  assert (cx st' = 4 ∧ shape (current st') = upright ∧ cy st' = cy st)
    as (Hx' & Hs' & Hy') by (rewrite Hframe; by split).
  pose proof (gravity_top n st st' 5 (cy st + 1) Hrun Hempty) as Hempty'.
  apply (upright_free st Hx Hs Hy) in Hfree as (Hlow & _ & _).
  split.
  - split; [exact Hx'|]. split; [exact Hs'|]. rewrite Hy'. by split.
  - apply (upright_free st' Hx' Hs'); [lia|]. rewrite Hy'.
    split; [exact Hlow|]. split; apply Hempty'; lia.
Qed.

(** removing cells from the board never makes the piece collide *)
Lemma checkCollision_mono bd bd' b nx ny :
  (∀ c, rd bd' c ≠ 0 → rd bd c ≠ 0) →
  checkCollision bd b nx ny = 0 → checkCollision bd' b nx ny = 0.
Proof.
  intros Hsub Hfree.
  destruct (checkCollision_cases bd' b nx ny)
    as [[_ (y & x & Hin & Hocc & Hbl)]|[Hc _]]; [|exact Hc].
  exfalso.
  destruct (checkCollision_cases bd b nx ny) as [[Hc _]|[_ Hno]]; [congruence|].
  apply (Hno y x Hin). split; [exact Hocc|].
  destruct Hbl as [?|[?|[?|[Hy Hhit]]]]; [by left|by right; left|by right; right; left|].
  right; right; right. split; [exact Hy|]. by apply (Hsub (ny + y, nx + x)).
Qed.

(** the rotations keep a piece a piece, and its centre cell *)
Lemma rotate_piece K b :
  is_piece K b →
  is_piece K (rotateRight b) ∧ is_piece K (rotateLeft b) ∧
  get (shape (rotateRight b)) 1 1 = get (shape b) 1 1 ∧
  get (shape (rotateLeft b)) 1 1 = get (shape b) 1 1.
Proof.
  intros (Hb & Hcs & Hcc & Hcol).
  destruct (rotate_colored K b Hb Hcol) as [HcolR HcolL].
  destruct (rotate_preserves_block b) as [HbR HbL].
  destruct (rotate_corners b) as (H1 & H2 & H3 & H4).
  split; [exact (conj HbR (conj H1 (conj H2 HcolR)))|].
  split; [exact (conj HbL (conj H3 (conj H4 HcolL)))|].
  destruct b as [s c]. destruct Hb as [Hs Hc]. simpl in Hs, Hc.
  apply grid_of_nine in Hs as (s1 & s2 & s3 & s4 & s5 & s6 & s7 & s8 & s9 & ->).
  apply grid_of_nine in Hc as (c1 & c2 & c3 & c4 & c5 & c6 & c7 & c8 & c9 & ->).
  by split.
Qed.

Lemma makeBlock_upright st :
  1 ≤ max_colors st → (∀ n, 0 ≤ rand_stream st n) →
  is_piece (max_colors st) (makeBlock st).1 ∧ shape (makeBlock st).1 = upright.
Proof.
  intros HK Hrand. rewrite makeBlock_eq. cbn [fst snd].
  pose proof (Z.rem_bound_pos (rand_stream st (rand_calls st)) (max_colors st)
                (Hrand _) ltac:(lia)) as H0.
  pose proof (Z.rem_bound_pos (rand_stream st (S (rand_calls st))) (max_colors st)
                (Hrand _) ltac:(lia)) as H1.
  split; [apply domino_piece; lia|reflexivity].
Qed.

(** the keys other than Up: the piece moves or turns on free cells *)
Lemma main_key_other fuel ch st :
  ch ≠ KEY_UP → piece_free st →
  ∃ st', main_key fuel ch st = Some (Returned st') ∧ piece_free st' ∧
    st' = with_pos (with_current st (current st')) (cx st') (cy st') ∧
    (current st' = current st ∨ current st' = rotateLeft (current st) ∨
     current st' = rotateRight (current st)) ∧
    cy st - 1 ≤ cy st'.
Proof.
  intros Hup Hfree.
  assert (st = with_pos (with_current st (current st)) (cx st) (cy st)) as Hsame
    by (by destruct st).
  assert (∃ st', Some (Returned st) = Some (Returned st') ∧ piece_free st' ∧
            st' = with_pos (with_current st (current st')) (cx st') (cy st') ∧
            (current st' = current st ∨ current st' = rotateLeft (current st) ∨
             current st' = rotateRight (current st)) ∧
            cy st - 1 ≤ cy st') as Hstay.
  { exists st. split; [reflexivity|]. split; [exact Hfree|]. split; [exact Hsame|].
    split; [by left|lia]. }
  assert (∀ rot, (rot = rotateLeft ∨ rot = rotateRight) →
            ∃ st', Some (Returned (key_rotate rot st)) = Some (Returned st') ∧
              piece_free st' ∧
              st' = with_pos (with_current st (current st')) (cx st') (cy st') ∧
              (current st' = current st ∨ current st' = rotateLeft (current st) ∨
               current st' = rotateRight (current st)) ∧
              cy st - 1 ≤ cy st') as Hrot.
  { intros rot Hwhich.
    destruct (key_rotate_cases rot st) as [->|(ox & oy & Hin & Hok & ->)]; [exact Hstay|].
    apply offsets_small in Hin. eexists. split; [reflexivity|].
    split; [exact Hok|]. split; [reflexivity|].
    cbn [current cx cy with_pos with_current].
    split; [destruct Hwhich as [-> | ->]; auto|lia]. }
  unfold main_key.
  destruct (truthy (input_locked st)); [exact Hstay|]. simpl.
  destruct ch; try contradiction; try exact Hstay.
  - destruct (truthy (checkCollision (board st) (current st) (cx st - 1) (cy st))) eqn:Hc;
      [exact Hstay|].
    simpl. apply truthy_false in Hc. eexists. split; [reflexivity|].
    split; [exact Hc|]. split; [reflexivity|]. split; [by left|].
    cbn [cy with_pos]. lia.
  - destruct (truthy (checkCollision (board st) (current st) (cx st + 1) (cy st))) eqn:Hc;
      [exact Hstay|].
    simpl. apply truthy_false in Hc. eexists. split; [reflexivity|].
    split; [exact Hc|]. split; [reflexivity|]. split; [by left|].
    cbn [cy with_pos]. lia.
  - apply Hrot. by left.
  - apply Hrot. by right.
Qed.

(** * The invariant of the loop of main *)

Lemma good_zeros : good_boards (zeros HEIGHT WIDTH) (zeros HEIGHT WIDTH).
Proof.
  split; [apply dims_zeros|]. split; [apply dims_zeros|]. split.
  - intros c _. left. apply rd_zeros.
  - intros c _. by rewrite !rd_zeros.
Qed.

(** the two places of main that lock a piece lead back to the invariant *)
Lemma lock_then_settle_inv st :
  good_boards (board st) (board_color st) →
  1 ≤ max_colors st → (∀ n, 0 ≤ rand_stream st n) →
  colored (max_colors st) (current st) →
  is_piece (max_colors st) (next st) → shape (next st) = upright →
  ∃ o, (∀ fuel, (2103 ≤ fuel)%nat → lock_then_settle fuel st = Some o) ∧
       ∀ st', o = Returned st' → game_inv st' ∧ cy st' = 0.
Proof.
  intros Hgood HK Hrand Hcol Hnextp Hnexts.
  pose proof Hgood as (Hbd & Hbc & _).
  destruct (lock_and_cascade_runs st Hbd Hbc) as (o1 & Hrun1 & Heff1).
  pose proof (lock_and_cascade_good 2103 st o1 (Hrun1 2103%nat ltac:(lia)) HK Hcol Hgood)
    as Hgood1.
  destruct o1 as [st1|st1].
  2:{ exists (GameOver st1). split; [|discriminate].
      intros fuel Hf. unfold lock_then_settle. by rewrite (Hrun1 fuel Hf). }
  unfold lock_effect in Heff1. cbn [outcome_state] in Heff1, Hgood1.
  destruct Heff1 as (Hb1 & Hc1 & Hcur & Hnext & _ & Hstream & Hmax & Hcx & Hcy & Hlock
                     & _ & _ & _ & _ & _ & Hret & _).
  pose proof (proj1 Hret eq_refl) as Hfree1.
  assert (shape (current st1) = upright) as Hs1 by (by rewrite Hcur).
  assert (fresh st1) as Hfresh1.
  { split; [exact Hcx|]. split; [exact Hs1|]. split; [lia|].
    apply (upright_free st1 Hcx Hs1 ltac:(lia)) in Hfree1 as (_ & H0 & H1).
    rewrite Hcy in *. intros y Hy.
    assert (y = 0 ∨ y = 1) as [-> | ->] by lia; assumption. }
  destruct (gravity_runs 2103 st1) as (st2 & Hgrav & _ & Hframe2 & _ & Hb2 & Hc2); [lia|].
  pose proof (gravity_good _ _ _ Hgrav Hgood1) as Hgood2.
  destruct (gravity_fresh _ _ _ Hgrav Hfresh1 Hfree1) as [Hfresh2 Hfree2].
  destruct (with_board_frame st1 st2 Hframe2) as (_ & _ & _ & _ & Hun2).
  destruct (clearGroups_removed 2 st2 Hb2 Hc2)
    as (gs & total & st3 & Hclear & Hb3 & Hc3 & _ & _ & _ & Hgone & Hkept & _ & _ & _ & _
        & _ & Hun3 & _).
  pose proof (clearGroups_good _ _ _ _ Hclear Hgood2) as Hgood3.
  exists (Returned st3). split.
  { intros fuel Hf. unfold lock_then_settle. rewrite (Hrun1 fuel Hf).
    cbn [mbind option_bind]. rewrite (gravity_fuel 2103 fuel _ _ Hgrav Hf).
    cbn [mbind option_bind]. by rewrite Hclear. }
  intros st' Heq. inversion Heq; subst st'. clear Heq.
  unfold unwritten in Hun2, Hun3.
  inversion Hun2 as [[A1 A2 A3 A4 A5 A6 A7 A8 A9]].
  inversion Hun3 as [[B1 B2 B3 B4 B5 B6 B7 B8 B9]].
  assert (∀ c, rd (board st3) c ≠ 0 → rd (board st2) c ≠ 0) as Hsub.
  { intros c Hocc. destruct (decide (c ∈ mjoin gs)) as [Hin|Hout].
    - by destruct (Hgone c Hin).
    - by rewrite <- (proj1 (Hkept c Hout)). }
  destruct (makeBlock_upright st HK Hrand) as [Hnb Hns].
  assert (max_colors st3 = max_colors st) as HK3 by congruence.
  assert (cy st3 = 0) as Hcy3 by congruence.
  split; [|exact Hcy3].
  split; [exact Hgood3|]. split; [lia|].
  split; [intros n; rewrite B7, A7, Hstream; apply Hrand|].
  rewrite HK3, B1, A1, Hcur, B2, A2, Hnext.
  split; [exact Hnextp|]. split; [by rewrite Hnexts|].
  split; [exact Hnb|]. split; [exact Hns|].
  split; [congruence|].
  assert (piece_free st3) as Hfree3.
  { unfold piece_free in *. rewrite B1, B3, B4. by apply (checkCollision_mono (board st2)). }
  split; [exact Hfree3|]. right.
  destruct Hfresh2 as (Hx2 & Hs2 & Hy2 & Hempty2).
  split; [congruence|]. split; [congruence|]. split; [lia|].
  intros y Hy. destruct (decide (get (board st3) y 5 = 0)) as [|Hocc]; [assumption|].
  exfalso. apply (Hsub (y, 5)) in Hocc. apply Hocc. apply (Hempty2 y). lia.
Qed.

(** the state in which the loop of main is entered *)
Lemma main_start_inv stream K :
  1 ≤ K → (∀ n, 0 ≤ stream n) → game_inv (main_start stream K) ∧
  cy (main_start stream K) = 0.
Proof.
  intros HK Hrand.
  assert (board (main_start stream K) = zeros HEIGHT WIDTH ∧
          board_color (main_start stream K) = zeros HEIGHT WIDTH ∧
          current (main_start stream K) =
            domino_up (1 + Z.rem (stream 0%nat) K) (1 + Z.rem (stream 1%nat) K) ∧
          next (main_start stream K) =
            domino_up (1 + Z.rem (stream 2%nat) K) (1 + Z.rem (stream 3%nat) K) ∧
          max_colors (main_start stream K) = K ∧
          rand_stream (main_start stream K) = stream ∧
          input_locked (main_start stream K) = 0 ∧
          cx (main_start stream K) = 4 ∧ cy (main_start stream K) = 0)
    as (Eb & Ec & Ecur & Enext & Emax & Estream & Elock & Ex & Ey) by (by repeat split).
  pose proof (Z.rem_bound_pos (stream 0%nat) K (Hrand _) ltac:(lia)) as H0.
  pose proof (Z.rem_bound_pos (stream 1%nat) K (Hrand _) ltac:(lia)) as H1.
  pose proof (Z.rem_bound_pos (stream 2%nat) K (Hrand _) ltac:(lia)) as H2.
  pose proof (Z.rem_bound_pos (stream 3%nat) K (Hrand _) ltac:(lia)) as H3.
  assert (shape (current (main_start stream K)) = upright) as Hs by (by rewrite Ecur).
  assert (∀ y, 0 ≤ y ≤ cy (main_start stream K) + 1 →
            get (board (main_start stream K)) y 5 = 0) as Hempty.
  { intros y _. rewrite Eb. apply get_zeros. }
  split; [|exact Ey].
  split; [rewrite Eb, Ec; apply good_zeros|].
  rewrite Emax, Estream, Ecur, Enext.
  split; [exact HK|]. split; [exact Hrand|].
  split; [apply domino_piece; lia|]. split; [discriminate|].
  split; [apply domino_piece; lia|]. split; [reflexivity|].
  split; [exact Elock|]. split.
  - apply (upright_free _ Ex Hs); [lia|]. rewrite Ey.
    split; [unfold HEIGHT; lia|]. split; apply Hempty; lia.
  - right. split; [exact Ex|]. split; [exact Hs|]. split; [lia|exact Hempty].
Qed.

Lemma frame_fields st st' :
  unwritten st' = unwritten st →
  current st' = current st ∧ next st' = next st ∧ cx st' = cx st ∧ cy st' = cy st ∧
  max_colors st' = max_colors st ∧ input_locked st' = input_locked st ∧
  rand_stream st' = rand_stream st.
Proof.
  unfold unwritten. intros Hun.
  destruct st, st'. simpl in *. inversion Hun. by repeat split.
Qed.

(** the call of gravity() that opens an iteration *)
Lemma gravity_inv st :
  game_inv st →
  ∃ st1, (∀ fuel, (2103 ≤ fuel)%nat → gravity fuel st = Some st1) ∧
         game_inv st1 ∧ (gravityFailSafe st1).1 = 0 ∧ cy st1 = cy st.
Proof.
  intros (Hgood & HK & Hrand & Hcur & Hcentre & Hnext & Hns & Hlock & Hfree & Hstate).
  destruct (gravity_runs 2103 st) as (st1 & Hgrav & _ & Hframe & _); [lia|].
  pose proof (gravity_good _ _ _ Hgrav Hgood) as Hgood1.
  pose proof (gravity_at_rest _ _ _ Hgrav) as Hrest1.
  destruct (with_board_frame st st1 Hframe) as (_ & _ & _ & _ & Hun).
  destruct (frame_fields st st1 Hun) as (E1 & E2 & E3 & E4 & E5 & E6 & E7).
  exists st1. split; [intros fuel Hf; by apply (gravity_fuel 2103 fuel)|].
  split; [|by split].
  split; [exact Hgood1|]. rewrite E1, E2, E5, E6, E7.
  do 7 (split; [assumption|]). split; [|by left].
  destruct Hstate as [Hrest|Hfresh].
  - pose proof (gravity_rest_same 0 st Hgood Hrest) as Hsame.
    apply (gravity_fuel 1 2103) in Hsame; [|lia]. congruence.
  - by destruct (gravity_fresh _ _ _ Hgrav Hfresh Hfree).
Qed.

(** the key read in an iteration, the board being at rest *)
Lemma main_key_inv st ch :
  game_inv st → (gravityFailSafe st).1 = 0 →
  ∃ o, (∀ fuel, (2103 + Z.to_nat (HEIGHT - cy st) ≤ fuel)%nat →
          main_key fuel ch st = Some o) ∧
       ∀ st', o = Returned st' → game_inv st' ∧ Z.min (cy st - 1) 0 ≤ cy st'.
Proof.
  intros (Hgood & HK & Hrand & Hcur & Hcentre & Hnext & Hns & Hlock & Hfree & Hstate) Hrest.
  assert (ch ≠ KEY_UP →
          ∃ o, (∀ fuel, (2103 + Z.to_nat (HEIGHT - cy st) ≤ fuel)%nat →
                  main_key fuel ch st = Some o) ∧
               ∀ st', o = Returned st' → game_inv st' ∧ Z.min (cy st - 1) 0 ≤ cy st')
    as Hother.
  { intros Hne.
    destruct (main_key_other 0 ch st Hne Hfree) as (st' & Hrun & Hfree' & Hform & Hwhich & Hcy).
    exists (Returned st'). split.
    { intros fuel _. rewrite <- Hrun. unfold main_key.
      destruct ch; try reflexivity; contradiction. }
    intros st0 Heq. inversion Heq; subst st0. clear Heq.
    assert (board st' = board st ∧ board_color st' = board_color st ∧
            next st' = next st ∧ max_colors st' = max_colors st ∧
            input_locked st' = input_locked st ∧ rand_stream st' = rand_stream st)
      as (E1 & E2 & E3 & E4 & E5 & E6) by (rewrite Hform; by repeat split).
    split; [|lia].
    split; [by rewrite E1, E2|]. rewrite E3, E4, E5, E6.
    split; [exact HK|]. split; [exact Hrand|].
    destruct (rotate_piece _ _ Hcur) as (HpR & HpL & HcR & HcL).
    assert (is_piece (max_colors st) (current st') ∧ get (shape (current st')) 1 1 ≠ 0)
      as [Hcur' Hcentre'].
    { destruct Hwhich as [-> | [-> | ->]]; split; first [assumption|by rewrite ?HcL, ?HcR]. }
    do 6 (split; [assumption|]). left.
    etransitivity; [|exact Hrest]. by apply gravityFailSafe_reads_boards. }
  destruct ch; try (apply Hother; discriminate).
  assert (in_block 1 1) as Hin by (unfold in_block, SIZE; lia).
  destruct (hardDrop_bounded (Z.to_nat (HEIGHT - cy st)) st 1 1 Hin Hcentre)
    as (std & Hdrop & _ & Hform & _); [lia|].
  assert (board std = board st ∧ board_color std = board_color st ∧
          current std = current st ∧ next std = next st ∧
          max_colors std = max_colors st ∧ rand_stream std = rand_stream st)
    as (E1 & E2 & E3 & E4 & E5 & E6) by (rewrite Hform; by repeat split).
  destruct (lock_then_settle_inv std) as (o & Hrun & Hinv).
  { by rewrite E1, E2. } { by rewrite E5. } { by rewrite E6. }
  { rewrite E5, E3. by destruct Hcur as (_ & _ & _ & ?). }
  { by rewrite E5, E4. } { by rewrite E4. }
  exists o. split.
  - intros fuel Hf. unfold main_key. rewrite Hlock. simpl.
    rewrite (Hdrop fuel ltac:(lia)). cbn [mbind option_bind]. apply Hrun. lia.
  - intros st' Heq. destruct (Hinv st' Heq) as [Hinv' Hcy]. split; [exact Hinv'|lia].
Qed.

(** the timed fall of an iteration *)
Lemma main_fall_inv st :
  game_inv st →
  ∃ o, (∀ fuel, (2103 ≤ fuel)%nat → main_fall fuel st = Some o) ∧
       ∀ st', o = Returned st' → game_inv st' ∧ Z.min (cy st) 0 ≤ cy st'.
Proof.
  intros (Hgood & HK & Hrand & Hcur & Hcentre & Hnext & Hns & Hlock & Hfree & Hstate).
  unfold main_fall.
  destruct (truthy (checkCollision (board st) (current st) (cx st) (cy st + 1))) eqn:Hcol.
  - simpl. destruct (lock_then_settle_inv st Hgood HK Hrand) as (o & Hrun & Hinv);
      [by destruct Hcur as (_ & _ & _ & ?)|exact Hnext|exact Hns|].
    exists o. split; [exact Hrun|].
    intros st' Heq. destruct (Hinv st' Heq) as [Hinv' Hcy]. split; [exact Hinv'|lia].
  - simpl. apply truthy_false in Hcol. eexists. split; [intros fuel _; reflexivity|].
    intros st' Heq. inversion Heq; subst st'. clear Heq.
    cbn [cy with_pos]. split; [|lia].
    split; [exact Hgood|]. do 7 (split; [assumption|]).
    split; [exact Hcol|].
    destruct Hstate as [Hrest|(Hx & Hs & Hy & Hempty)].
    + left. etransitivity; [|exact Hrest]. by apply gravityFailSafe_reads_boards.
    + right. split; [exact Hx|]. split; [exact Hs|].
      cbn [cy with_pos board]. split; [lia|].
      intros y Hyy. destruct (decide (y ≤ cy st + 1)) as [Hle|Hgt]; [apply Hempty; lia|].
      assert (y = cy st + 1 + 1) as -> by lia.
      apply (upright_free (with_pos st (cx st) (cy st + 1)) Hx Hs); [simpl; lia|].
      exact Hcol.
Qed.

(** one iteration of the loop keeps the invariant *)
Lemma main_iteration_inv st ch fall_due :
  game_inv st →
  ∃ o, (∀ fuel, (2103 + Z.to_nat (HEIGHT - cy st) ≤ fuel)%nat →
          main_iteration fuel ch fall_due st = Some o) ∧
       ∀ st', o = Returned st' → game_inv st' ∧ Z.min (cy st - 1) 0 ≤ cy st'.
Proof.
  intros Hinv.
  destruct (gravity_inv st Hinv) as (st1 & Hgrav & Hinv1 & Hrest1 & Hcy1).
  destruct (main_key_inv st1 ch Hinv1 Hrest1) as (o1 & Hkey & Hinv2).
  rewrite Hcy1 in Hkey, Hinv2.
  destruct o1 as [st2|st2].
  2:{ exists (GameOver st2). split; [|discriminate].
      intros fuel Hf. unfold main_iteration. rewrite (Hgrav fuel ltac:(lia)).
      cbn [mbind option_bind]. by rewrite (Hkey fuel Hf). }
  destruct (Hinv2 st2 eq_refl) as [Hgame2 Hcy2].
  destruct fall_due.
  - destruct (main_fall_inv st2 Hgame2) as (o & Hfall & Hinv3).
    exists o. split.
    + intros fuel Hf. unfold main_iteration. rewrite (Hgrav fuel ltac:(lia)).
      cbn [mbind option_bind]. rewrite (Hkey fuel Hf). cbn [mbind option_bind].
      apply Hfall. lia.
    + intros st' Heq. destruct (Hinv3 st' Heq) as [Hgame3 Hcy3]. split; [exact Hgame3|lia].
  - exists (Returned st2). split.
    + intros fuel Hf. unfold main_iteration. rewrite (Hgrav fuel ltac:(lia)).
      cbn [mbind option_bind]. by rewrite (Hkey fuel Hf).
    + intros st' Heq. inversion Heq; subst st'. by split.
Qed.

(** drawGhost on the active piece, in a position checkCollision accepts:
    the call reads outside the array exactly when an occupied cell of the
    piece is on the row -2 or above *)
Lemma drawGhost_free st :
  piece_free st →
  (drawGhost (current st) (cx st) (cy st) st = None ↔
     ∃ yy xx, in_block yy xx ∧ get (shape (current st)) yy xx ≠ 0 ∧
              cy st + yy < -1) ∧
  (drawGhost (current st) (cx st) (cy st) st = None ∨
   ∃ marks, drawGhost (current st) (cx st) (cy st) st = Some (st, marks)).
Proof.
  intros Hfree. apply piece_free_clear in Hfree.
  destruct (drawGhost_cases (current st) (cx st) (cy st) st)
    as [[Hnone (yy & xx & Hin & Hocc & Hout)]|[Hsome Hall]].
  - split; [|by left]. split; [|by intros _].
    intros _. exists yy, xx. split; [exact Hin|]. split; [exact Hocc|].
    destruct (Hfree yy xx Hin Hocc) as (Hcol & Hrow & _).
    unfold reads_inside, in_board in Hout. lia.
  - split; [|right; by eexists]. split; [congruence|].
    intros (yy & xx & Hin & Hocc & Hrow). exfalso.
    destruct (Hall yy xx Hin Hocc) as [Hfloor|[Hon _]]; unfold HEIGHT in *; lia.
Qed.

(** the calls of drawBoard inside lock_and_cascade and animateGravity are
    made when the new piece, upright, has been put at column 4 and row 0:
    drawGhost then reads inside the array, whatever the board holds *)
Lemma drawGhost_spawned st :
  shape (current st) = upright → cx st = 4 → cy st = 0 →
  ∃ marks, drawGhost (current st) (cx st) (cy st) st = Some (st, marks).
Proof.
  intros Hs Hx Hy.
  destruct (drawGhost_cases (current st) (cx st) (cy st) st)
    as [[_ (yy & xx & [Hyy Hxx] & Hocc & Hout)]|[Hsome _]]; [|by eexists].
  exfalso. rewrite Hs in Hocc. rewrite Hx, Hy in Hout.
  unfold reads_inside, in_board in Hout. unfold SIZE in Hyy, Hxx.
  assert (yy = 0 ∨ yy = 1 ∨ yy = 2) as Hy3 by lia.
  assert (xx = 0 ∨ xx = 1 ∨ xx = 2) as Hx3 by lia.
  destruct Hy3 as [-> | [-> | ->]]; destruct Hx3 as [-> | [-> | ->]];
    first [by apply Hocc | apply Hout; unfold HEIGHT, WIDTH; lia].
Qed.

(** a game in which it happens: after the keys [climb_keys] the piece is
    upright on the rows -2 and -1 of column 8, where checkCollision accepts
    it, and the next drawBoard reads [board[-1][8]] *)
Lemma main_run_reads_above :
  main_loop 60 climb_keys (main_start climb_stream 4) = Some (Returned climbed) ∧
  cx climbed = 7 ∧ cy climbed = -2 ∧ shape (current climbed) = upright ∧
  piece_free climbed ∧
  read (board climbed) (cy climbed + 0 + 1) (cx climbed + 1) = None ∧
  main_run 60 (climb_keys ++ [(NO_KEY, false)]) (main_start climb_stream 4) =
    Some (OutOfArray climbed).
Proof.
  split; [vm_compute; reflexivity|]. do 5 (split; [reflexivity|]).
  vm_compute. reflexivity.
Qed.

(** X18: the loop of main, with the call of drawGhost that starts each
    iteration.  The state in which the loop is entered satisfies the
    invariant game_inv (for max_colors >= 1 and a rand that is never
    negative), and from every state that satisfies it, whatever keys are
    pressed and whenever the timed fall is due, the run comes to an end
    (2103 units of fuel, one more per input, and what hardDrop needs to
    cross the board are enough) in one of three ways: the inputs are used
    up, in a state that satisfies the invariant again; exit(0) is called by
    lock_and_cascade; or an iteration starts in a state that satisfies the
    invariant and in which an occupied cell of the piece is on the row -2 or
    above, where drawGhost reads [board] outside the array.  The invariant
    says that the boards are 20 by 10 with occupancy 0 or 1 and colour 0
    exactly on the empty cells, that the pieces are pieces, that input is
    not locked when a key is read, and that checkCollision accepts the
    position of the active piece: no occupied cell of it is beside the board
    or below it or on an occupied cell, but its cells may be above the top
    row, where rotation kicks can lift them.  In a state that satisfies the
    invariant drawGhost reads outside the array exactly when an occupied
    cell of the piece is on the row -2 or above, and the calls of drawGhost
    made inside lock_and_cascade, with the new piece at column 4 and row 0,
    never do. *)
Theorem main_loop_invariant (inputs : list (key * bool)) :
  (∀ stream K, 1 ≤ K → (∀ n, 0 ≤ stream n) → game_inv (main_start stream K)) ∧
  (∀ st, game_inv st →
     ∃ r, (∀ fuel,
             (2103 + Z.to_nat (HEIGHT - Z.min (cy st) 0) + length inputs ≤ fuel)%nat →
             main_run fuel inputs st = Some r) ∧
          match r with
          | Went (Returned st') => game_inv st'
          | Went (GameOver st') => True
          | OutOfArray st' =>
              game_inv st' ∧
              ∃ yy xx, in_block yy xx ∧ get (shape (current st')) yy xx ≠ 0 ∧
                       cy st' + yy < -1
          end) ∧
  (∀ st, game_inv st →
     (∀ yy xx, in_block yy xx → get (shape (current st)) yy xx ≠ 0 →
        0 ≤ cx st + xx < WIDTH ∧ cy st + yy < HEIGHT ∧
        (0 ≤ cy st + yy → get (board st) (cy st + yy) (cx st + xx) = 0)) ∧
     (drawGhost (current st) (cx st) (cy st) st = None ↔
        ∃ yy xx, in_block yy xx ∧ get (shape (current st)) yy xx ≠ 0 ∧
                 cy st + yy < -1) ∧
     (∀ s, current s = next st → cx s = 4 → cy s = 0 →
        ∃ marks, drawGhost (current s) (cx s) (cy s) s = Some (s, marks))).
Proof.
  split; [intros stream K HK Hrand; by apply main_start_inv|]. split.
  - induction inputs as [|[ch fall_due] rest IH]; intros st Hinv.
    { exists (Went (Returned st)). by split. }
    assert (piece_free st) as Hfree
      by (by destruct Hinv as (_ & _ & _ & _ & _ & _ & _ & _ & ? & _)).
    destruct (drawGhost_free st Hfree) as [Hnone [Hfault|(marks & Hdrawn)]].
    { exists (OutOfArray st). split.
      - intros fuel _. simpl. by rewrite Hfault.
      - split; [exact Hinv|]. by apply Hnone. }
    destruct (main_iteration_inv st ch fall_due Hinv) as (o1 & Hrun1 & Hinv1).
    destruct o1 as [st1|st1].
    + destruct (Hinv1 st1 eq_refl) as [Hgame1 Hcy1].
      destruct (IH st1 Hgame1) as (r & Hrun & Hend).
      exists r. split; [|exact Hend].
      intros fuel Hf. simpl length in Hf. simpl. rewrite Hdrawn.
      rewrite (Hrun1 fuel ltac:(lia)). cbn [mbind option_bind]. apply Hrun. lia.
    + exists (Went (GameOver st1)). split; [|exact I].
      intros fuel Hf. simpl length in Hf. simpl. rewrite Hdrawn.
      by rewrite (Hrun1 fuel ltac:(lia)).
  - intros st (_ & _ & _ & _ & _ & _ & Hnext & _ & Hfree & _).
    split; [by apply piece_free_clear|].
    split; [by apply drawGhost_free|].
    intros s Hcur Hx Hy. apply drawGhost_spawned; [by rewrite Hcur|exact Hx|exact Hy].
Qed.

(** * The ghost and the hard drop *)




(** * The level against the clears *)



(** * Gravity: the columns *)

Lemma sorted_filter (P : Z → Prop) `{!∀ y, Decision (P y)} l :
  StronglySorted Z.lt l → StronglySorted Z.lt (filter P l).
Proof.
  induction l as [|a l IH]; intros Hs; [constructor|].
  apply StronglySorted_cons in Hs as [Hall Hs]. rewrite filter_cons.
  destruct (decide (P a)); [|by apply IH].
  apply StronglySorted_cons. split; [|by apply IH].
  rewrite list.Forall_forall in Hall |- *. intros b Hb. apply Hall.
  by apply list_elem_of_filter in Hb as [_ Hb].
Qed.

Lemma sorted_fmap_on (f : Z → Z) l :
  StronglySorted Z.lt l → (∀ a b, a ∈ l → b ∈ l → a < b → f a < f b) →
  StronglySorted Z.lt (f <$> l).
Proof.
  induction l as [|a l IH]; intros Hs Hmono; [constructor|].
  apply StronglySorted_cons in Hs as [Hall Hs]. rewrite fmap_cons.
  apply StronglySorted_cons. split.
  - rewrite list.Forall_forall in Hall |- *. intros b Hb.
    apply list_elem_of_fmap in Hb as (c & -> & Hc).
    apply Hmono; [by left|by right|by apply Hall].
  - apply IH; [exact Hs|]. intros b c Hb Hc. apply Hmono; by right.
Qed.

Lemma sorted_NoDup l : StronglySorted Z.lt l → NoDup l.
Proof.
  induction l as [|a l IH]; intros Hs; [constructor|].
  apply StronglySorted_cons in Hs as [Hall Hs]. apply NoDup_cons. split; [|by apply IH].
  intros Hin. rewrite list.Forall_forall in Hall. specialize (Hall a Hin). lia.
Qed.

(** two increasing lists with the same elements are the same list *)
Lemma sorted_same l1 l2 :
  StronglySorted Z.lt l1 → StronglySorted Z.lt l2 → (∀ y, y ∈ l1 ↔ y ∈ l2) → l1 = l2.
Proof.
  intros H1 H2 Hsame. apply (StronglySorted_unique_strong Z.lt); try assumption.
  - intros; lia.
  - apply NoDup_Permutation; [by apply sorted_NoDup|by apply sorted_NoDup|exact Hsame].
Qed.

Lemma sorted_rows : StronglySorted Z.lt (seqZ 0 HEIGHT).
Proof. apply (bool_decide_eq_true_1 _). vm_compute. reflexivity. Qed.

Lemma sorted_column_rows bd x : StronglySorted Z.lt (column_rows bd x).
Proof. apply sorted_filter, sorted_rows. Qed.

Lemma elem_of_column_rows bd x y :
  y ∈ column_rows bd x ↔ 0 ≤ y < HEIGHT ∧ get bd y x ≠ 0.
Proof.
  unfold column_rows. rewrite list_elem_of_filter, elem_of_seqZ. unfold HEIGHT. lia.
Qed.

(** a gravity step moves the occupied rows of a column down, in their
    order, each with its colour *)
Lemma gravityFailSafe_column st x :
  0 ≤ x < WIDTH →
  column_rows (board (gravityFailSafe st).2) x =
    fall (board st) x <$> column_rows (board st) x ∧
  column (board (gravityFailSafe st).2) (board_color (gravityFailSafe st).2) x =
    column (board st) (board_color st) x.
Proof.
  intros Hx.
  destruct (gravityFailSafe_spec st) as (_ & Hcells & _).
  destruct (gravityFailSafe_cells st) as (_ & _ & _ & _ & Hland & _).
  assert (column_rows (board (gravityFailSafe st).2) x =
          fall (board st) x <$> column_rows (board st) x) as Hrows.
  { apply sorted_same.
    - apply sorted_column_rows.
    - apply sorted_fmap_on; [apply sorted_column_rows|].
      intros a b _ Hb Hlt. apply elem_of_column_rows in Hb as [_ Hb].
      pose proof (fall_above (board st) x a b Hlt Hb).
      destruct (fall_rests (board st) x b) as (Hle & _). lia.
    - intros y. rewrite elem_of_column_rows, list_elem_of_fmap. split.
      + intros [Hy Hocc]. apply (Hcells (y, x)) in Hocc as ([a x'] & Hon & Hocc & Heq).
        simpl in Heq. inversion Heq as [[Hrow Hcol]]. subst x'.
        exists a. split; [reflexivity|]. apply elem_of_column_rows.
        split; [by destruct Hon|exact Hocc].
      + intros (a & -> & Ha). apply elem_of_column_rows in Ha as [Ha Hocc].
        assert (on_board (a, x)) as Hon by (by split).
        split; [by destruct (fall_on_board (board st) x a Hon)|].
        apply (Hcells (fall (board st) x a, x)). by exists (a, x). }
  split; [exact Hrows|]. unfold column. rewrite Hrows, <- list_fmap_compose.
  apply Forall_fmap_ext, list.Forall_forall. intros a Ha.
  apply elem_of_column_rows in Ha as [Ha Hocc]. simpl.
  by apply (Hland (a, x)).
Qed.

(** a board at rest is settled *)
Lemma rest_settled st : (gravityFailSafe st).1 = 0 → settled (board st).
Proof.
  intros Hrest y x Hyx Hocc Hlow.
  destruct (gravityFailSafe_spec st) as (_ & _ & Hmoved).
  pose proof (proj1 Hmoved Hrest (y, x) Hyx Hocc) as Hstay. simpl in Hstay.
  rewrite fall_eq in Hstay.
  destruct (fall_test (board st) x y) eqn:Ht.
  - destruct (fall_rests (board st) x (y + 1)) as (Hle & _). lia.
  - apply fall_test_false in Ht as [?|?]; [lia|assumption].
Qed.

(** the occupied rows of a column of a settled board are its bottom rows *)
Lemma settled_rows bd x :
  0 ≤ x < WIDTH → settled bd →
  column_rows bd x =
    seqZ (HEIGHT - Z.of_nat (length (column_rows bd x)))
         (Z.of_nat (length (column_rows bd x))).
Proof.
  intros Hx Hset.
  pose proof (sorted_column_rows bd x) as Hsorted.
  destruct (column_rows bd x) as [|m rest] eqn:Hrows; [reflexivity|].
  assert (m ∈ column_rows bd x) as Hm by (rewrite Hrows; by left).
  apply elem_of_column_rows in Hm as [Hm Hocc].
  assert (∀ k : nat, m + Z.of_nat k < HEIGHT → get bd (m + Z.of_nat k) x ≠ 0) as Hup.
  { induction k as [|k IH]; intros Hk.
    - by replace (m + Z.of_nat 0) with m by lia.
    - replace (m + Z.of_nat (S k)) with (m + Z.of_nat k + 1) in * by lia.
      apply Hset; [split; simpl; lia|apply IH; lia|lia]. }
  assert (m :: rest = seqZ m (HEIGHT - m)) as Heq.
  { apply sorted_same; [exact Hsorted| |].
    - pose proof sorted_rows as Hall.
      replace HEIGHT with (m + (HEIGHT - m)) in Hall at 1 by lia.
      rewrite seqZ_app in Hall by lia.
      by apply StronglySorted_app_1_r in Hall.
    - intros y. rewrite elem_of_seqZ, <- Hrows, elem_of_column_rows. split.
      + intros [Hy Hyocc]. split; [|lia].
        assert (y ∈ m :: rest) as Hin
          by (rewrite <- Hrows; by apply elem_of_column_rows).
        apply elem_of_cons in Hin as [->|Hin]; [lia|].
        apply StronglySorted_cons in Hsorted as [Hall _].
        rewrite list.Forall_forall in Hall. specialize (Hall y Hin). lia.
      + intros Hy. split; [lia|].
        replace y with (m + Z.of_nat (Z.to_nat (y - m))) by lia. apply Hup. lia. }
  rewrite Heq, length_seqZ. f_equal; lia.
Qed.

(** X21: gravity() compacts every column.  The occupied cells of a column
    keep their order and their colours through every gravityFailSafe step,
    hence through gravity(); when gravity() returns no occupied cell has an
    empty cell below it, so the cells of the column lie on its bottom rows,
    as many as before, in the order and with the colours they had. *)
Theorem gravity_compacts_columns (fuel : nat) (st st' : State) (x : Z) :
  0 ≤ x < WIDTH → gravity fuel st = Some st' →
  column (board (gravityFailSafe st).2) (board_color (gravityFailSafe st).2) x =
    column (board st) (board_color st) x ∧
  column (board st') (board_color st') x = column (board st) (board_color st) x ∧
  settled (board st') ∧
  column_rows (board st') x =
    seqZ (HEIGHT - Z.of_nat (length (column_rows (board st) x)))
         (Z.of_nat (length (column_rows (board st) x))).
Proof.
  intros Hx Hrun.
  split; [by apply gravityFailSafe_column|].
  assert (column (board st') (board_color st') x = column (board st) (board_color st) x)
    as Hcol.
  { revert st Hrun. induction fuel as [|fuel IH]; intros st Hrun; [discriminate|].
    rewrite gravity_S in Hrun.
    destruct (gravityFailSafe_column st x Hx) as [_ Hstep].
    destruct (truthy (gravityFailSafe st).1).
    - by rewrite (IH _ Hrun).
    - by inversion Hrun; subst. }
  split; [exact Hcol|].
  pose proof (rest_settled st' (gravity_at_rest fuel st st' Hrun)) as Hset.
  split; [exact Hset|].
  rewrite (settled_rows (board st') x Hx Hset).
  assert (length (column_rows (board st') x) = length (column_rows (board st) x)) as ->;
    [|reflexivity].
  apply (f_equal length) in Hcol. unfold column in Hcol.
  by rewrite !length_fmap in Hcol.
Qed.

Lemma gravity_compacts_columns_witness :
  let st := session (fill [(3, 4, 1); (10, 4, 2); (12, 4, 3); (0, 6, 3)])
                    (domino_up 1 2) 4 0 in
  let st' := match gravity 5 st with Some s => s | None => st end in
  column (board (gravityFailSafe st).2) (board_color (gravityFailSafe st).2) 4 =
    column (board st) (board_color st) 4 ∧
  column (board st') (board_color st') 4 = column (board st) (board_color st) 4 ∧
  settled (board st') ∧
  column_rows (board st') 4 =
    seqZ (HEIGHT - Z.of_nat (length (column_rows (board st) 4)))
         (Z.of_nat (length (column_rows (board st) 4))).
Proof.
  intros st st'.
  apply (gravity_compacts_columns 5 st st' 4);
    [unfold WIDTH; lia|vm_compute; reflexivity].
Defined.
